(** * Social-media aggregation service: content normalizer, aggregation cache
      and query layer.

    Shallow embedding of
      - src/services/socialMediaService.ts   (module [Service]),
      - its second revision, unnamed/part_001 (module [Part001]),
      - functions/fetch-rss-feeds/index.ts   (module [RssFeeds]),
      - the tag extraction of unnamed/part_002 (module [TwitterData]).

    JavaScript strings are sequences of UTF-16 code units; lengths, [substring],
    regular expressions without the [u] flag and [<] on strings all work on
    code units, so a string is a [list N] here. *)

From Stdlib Require Import ZArith NArith Lia.
From stdpp Require Import base list gmap strings sorting.

Local Open Scope N_scope.

(** ** JavaScript strings *)

Abbreviation jsstring := (list N).

(** Decoding of the UTF-8 bytes of a literal into code points, then into
    UTF-16 code units (a code point above U+FFFF becomes a surrogate pair).
    Only used to write the string constants of the source readably. *)
Fixpoint utf8_points (bs : list N) : list N :=
  match bs with
  | [] => []
  | b0 :: r0 =>
    if b0 <? 0x80 then b0 :: utf8_points r0 else
    match r0 with
    | [] => []
    | b1 :: r1 =>
      if b0 <? 0xE0 then ((b0 mod 32) * 64 + b1 mod 64) :: utf8_points r1 else
      match r1 with
      | [] => []
      | b2 :: r2 =>
        if b0 <? 0xF0
        then ((b0 mod 16) * 4096 + (b1 mod 64) * 64 + b2 mod 64) :: utf8_points r2
        else
        match r2 with
        | [] => []
        | b3 :: r3 =>
          ((b0 mod 8) * 262144 + (b1 mod 64) * 4096 + (b2 mod 64) * 64 + b3 mod 64)
            :: utf8_points r3
        end
      end
    end
  end.

Definition utf16_units (cp : N) : list N :=
  if cp <? 0x10000 then [cp]
  else [0xD800 + (cp - 0x10000) / 1024; 0xDC00 + (cp - 0x10000) mod 1024].

Fixpoint string_bytes (s : string) : list N :=
  match s with
  | EmptyString => []
  | String a s' => Ascii.N_of_ascii a :: string_bytes s'
  end.

Definition js (s : string) : jsstring :=
  utf8_points (string_bytes s) ≫= utf16_units.

(** Code units the source names. *)
Definition ch_lt : N := 60.        (* '<' *)
Definition ch_gt : N := 62.        (* '>' *)
Definition ch_amp : N := 38.       (* '&' *)
Definition ch_semi : N := 59.      (* ';' *)
Definition ch_space : N := 32.     (* ' ' *)
Definition ch_hash : N := 35.      (* '#' *)
Definition ch_dot : N := 46.       (* '.' *)
Definition ch_bang : N := 33.      (* '!' *)
Definition ch_quest : N := 63.     (* '?' *)

(** [\s] of a regular expression and the characters [trim] strips: the
    WhiteSpace and LineTerminator code points of ECMAScript. *)
Definition isWhiteSpace (c : N) : bool :=
  (c =? 9) || (c =? 10) || (c =? 11) || (c =? 12) || (c =? 13) || (c =? 32)
  || (c =? 0xA0) || (c =? 0x1680) || ((0x2000 <=? c) && (c <=? 0x200A))
  || (c =? 0x2028) || (c =? 0x2029) || (c =? 0x202F) || (c =? 0x205F)
  || (c =? 0x3000) || (c =? 0xFEFF).

(** [\w] without the [u] flag: ASCII letters, digits and underscore. *)
Definition isWordChar (c : N) : bool :=
  ((65 <=? c) && (c <=? 90)) || ((97 <=? c) && (c <=? 122))
  || ((48 <=? c) && (c <=? 57)) || (c =? 95).

(** [String.prototype.trim]. *)
Fixpoint trimStart (s : jsstring) : jsstring :=
  match s with
  | [] => []
  | c :: s' => if isWhiteSpace c then trimStart s' else s
  end.

Fixpoint trimEnd (s : jsstring) : jsstring :=
  match s with
  | [] => []
  | c :: s' =>
    match trimEnd s' with
    | [] => if isWhiteSpace c then [] else [c]
    | t => c :: t
    end
  end.

Definition trim (s : jsstring) : jsstring := trimEnd (trimStart s).

(** [s.substring(0, n)]. *)
Definition substring0 (n : nat) (s : jsstring) : jsstring := take n s.

(** [s.substring(1)]. *)
Definition substring1 (s : jsstring) : jsstring := drop 1 s.

(** [s.startsWith(p)] and [s.includes(p)]. *)
Fixpoint startsWith (p s : jsstring) : bool :=
  match p, s with
  | [], _ => true
  | _ :: _, [] => false
  | a :: p', b :: s' => (a =? b) && startsWith p' s'
  end.

Fixpoint includes (s p : jsstring) : bool :=
  startsWith p s ||
  match s with
  | [] => false
  | _ :: s' => includes s' p
  end.

(** [a < b] on strings: lexicographic on code units, a proper prefix is
    smaller. *)
Fixpoint str_lt (a b : jsstring) : bool :=
  match a, b with
  | _, [] => false
  | [], _ :: _ => true
  | x :: a', y :: b' => (x <? y) || ((x =? y) && str_lt a' b')
  end.

(** [String.prototype.toLowerCase] on the Basic Latin, Latin-1 Supplement and
    Latin Extended-A blocks (the letters of Turkish text); code units of
    other blocks are left as they are by this model.  The mapping does not
    depend on the locale: U+0130 (capital I with dot above) becomes the two
    code units U+0069 U+0307, and U+0049 becomes U+0069. *)
Definition lowerUnit (c : N) : list N :=
  if (65 <=? c) && (c <=? 90) then [c + 32]
  else if (0xC0 <=? c) && (c <=? 0xDE) && negb (c =? 0xD7) then [c + 32]
  else if c =? 0x130 then [0x69; 0x307]
  else if c =? 0x178 then [0xFF]
  else if ((0x100 <=? c) && (c <=? 0x12F)) || ((0x132 <=? c) && (c <=? 0x137))
          || ((0x14A <=? c) && (c <=? 0x177))
       then (if N.even c then [c + 1] else [c])
  else if ((0x139 <=? c) && (c <=? 0x148)) || ((0x179 <=? c) && (c <=? 0x17E))
       then (if N.odd c then [c + 1] else [c])
  else [c].

Definition toLowerCase (s : jsstring) : jsstring := s ≫= lowerUnit.

(** [a.join(' ')]. *)
Fixpoint join_space (l : list jsstring) : jsstring :=
  match l with
  | [] => []
  | [s] => s
  | s :: l' => s ++ ch_space :: join_space l'
  end.

(** ** Global regular expressions

    A regular expression of the source is given by its matcher: on the rest
    of the subject from the current index, the length of the match that
    starts there, if any.  All expressions of the source match at least one
    code unit.  [scan] walks the subject as [replace] and [match] with the
    [g] flag do: leftmost match first, the search resumes after each match,
    and a code unit where nothing matches is passed over. *)
Inductive piece :=
| Lit (c : N)
| Match (m : jsstring).

Fixpoint scan (rx : jsstring → option nat) (skip : nat) (s : jsstring) : list piece :=
  match s with
  | [] => []
  | c :: s' =>
    match skip with
    | S k => scan rx k s'
    | O =>
      match rx s with
      | Some (S k) => Match (take (S k) s) :: scan rx k s'
      | _ => Lit c :: scan rx 0 s'
      end
    end
  end.

(** [s.replace(rx, repl)]. *)
Definition replaceAll (rx : jsstring → option nat) (repl : jsstring) (s : jsstring) : jsstring :=
  scan rx 0 s ≫= (λ p, match p with Lit c => [c] | Match _ => repl end).

(** [s.match(rx)]; [null] and the empty array are both the empty list, the
    source only spreads the result when it is not [null]. *)
Definition matchAll (rx : jsstring → option nat) (s : jsstring) : list jsstring :=
  scan rx 0 s ≫= (λ p, match p with Lit _ => [] | Match m => [m] end).

(** Index of the first code unit of [s] satisfying [f]. *)
Fixpoint indexWhere (f : N → bool) (s : jsstring) : option nat :=
  match s with
  | [] => None
  | c :: s' => if f c then Some O else S <$> indexWhere f s'
  end.

(** Length of the longest prefix of [s] whose code units satisfy [f]. *)
Fixpoint spanLength (f : N → bool) (s : jsstring) : nat :=
  match s with
  | [] => O
  | c :: s' => if f c then S (spanLength f s') else O
  end.

(** [/<[^>]*>/]: a '<', then everything up to the first '>'. *)
Definition rx_tag (s : jsstring) : option nat :=
  match s with
  | c :: r => if c =? ch_lt then (λ k, S (S k)) <$> indexWhere (N.eqb ch_gt) r else None
  | [] => None
  end.

(** [/&[^;]+;/]: a '&', at least one code unit other than ';', then the
    first ';'. *)
Definition rx_entity (s : jsstring) : option nat :=
  match s with
  | c :: r =>
    if c =? ch_amp then
      match indexWhere (N.eqb ch_semi) r with
      | Some (S k) => Some (S (S (S k)))
      | _ => None
      end
    else None
  | [] => None
  end.

(** [/\s+/]. *)
Definition rx_spaces (s : jsstring) : option nat :=
  match spanLength isWhiteSpace s with
  | O => None
  | n => Some n
  end.

(** [/#\w+/] and, with the extra class members given by [extra],
    [/#[\wğüşıöçĞÜŞİÖÇ]+/]. *)
Definition rx_hashtag (extra : N → bool) (s : jsstring) : option nat :=
  match s with
  | c :: r =>
    if c =? ch_hash then
      match spanLength (λ x, isWordChar x || extra x) r with
      | O => None
      | n => Some (S n)
      end
    else None
  | [] => None
  end.

(** ** Content normalizer shared by the service and the feed function *)

Definition cleanContent (content : jsstring) : jsstring :=
  substring0 500
    (trim
       (replaceAll rx_spaces [ch_space]
          (replaceAll rx_entity [ch_space]
             (replaceAll rx_tag [] content)))).

(** [s.split(rx)]: the stretches of [s] between the matches. *)
Fixpoint segments (ps : list piece) : list jsstring :=
  match ps with
  | [] => [[]]
  | Lit c :: ps' =>
    match segments ps' with
    | seg :: rest => (c :: seg) :: rest
    | [] => [[c]]
    end
  | Match _ :: ps' => [] :: segments ps'
  end.

Definition split (rx : jsstring → option nat) (s : jsstring) : list jsstring :=
  segments (scan rx 0 s).

(** [/[.!?]+/]. *)
Definition isTerminator (c : N) : bool :=
  (c =? ch_dot) || (c =? ch_bang) || (c =? ch_quest).

Definition rx_terminators (s : jsstring) : option nat :=
  match spanLength isTerminator s with
  | O => None
  | n => Some n
  end.

(** The separator [' '] of [split(' ')]. *)
Definition rx_one_space (s : jsstring) : option nat :=
  match s with
  | c :: _ => if c =? ch_space then Some 1%nat else None
  | [] => None
  end.

(** A string in a condition: the empty string is falsy. *)
Definition truthy (s : jsstring) : bool :=
  match s with
  | [] => false
  | _ :: _ => true
  end.

Definition generateSummary (content : jsstring) : jsstring :=
  let sentences := split rx_terminators content in
  let firstSentence := trim <$> sentences !! 0%nat in
  let rest := substring0 120 content ++ js "..." in
  match firstSentence with
  | Some firstSentence =>
    if truthy firstSentence && (20 <? length firstSentence)%nat
       && (length firstSentence <=? 150)%nat
    then firstSentence ++ js "."
    else rest
  | None => rest
  end.

(** [[...new Set(tags)]]: a Set keeps the first insertion of each value, in
    insertion order. *)
Definition setAdd (seen : list jsstring) (t : jsstring) : list jsstring :=
  if bool_decide (t ∈ seen) then seen else seen ++ [t].

Definition uniq (tags : list jsstring) : list jsstring :=
  foldl setAdd [] tags.

(** [Object.entries(keywords).forEach(...)]: the related tags of every
    keyword found in the lower-cased content are pushed, in table order. *)
Definition pushKeywordTags (keywords : list (jsstring * list jsstring))
    (content : jsstring) (tags : list jsstring) : list jsstring :=
  foldl (λ tags entry,
           if includes (toLowerCase content) entry.1 then tags ++ entry.2 else tags)
        tags keywords.

(** The members [ğüşıöçĞÜŞİÖÇ] that the functions add to [\w]. *)
Definition isTurkishLetter (c : N) : bool :=
  bool_decide (c ∈ js "ğüşıöçĞÜŞİÖÇ").

(** ** Data model *)

Inductive Platform := twitter | instagram | facebook | youtube | rss.

Definition platformName (p : Platform) : jsstring :=
  match p with
  | twitter => js "twitter"
  | instagram => js "instagram"
  | facebook => js "facebook"
  | youtube => js "youtube"
  | rss => js "rss"
  end.

Record Engagement := { likes : Z; shares : Z; comments : Z }.

Record Author := { username : jsstring; name : jsstring; verified : bool }.

Record SocialMediaPost := {
  id : jsstring;
  content : jsstring;
  summary : jsstring;
  platform : Platform;
  date : jsstring;
  time : jsstring;
  url : option jsstring;
  engagement : Engagement;
  tags : list jsstring;
  category : option jsstring;
  imageUrl : option jsstring;
  author : option Author
}.

#[global] Instance Platform_eq_dec : EqDecision Platform.
Proof. solve_decision. Defined.
#[global] Instance Engagement_eq_dec : EqDecision Engagement.
Proof. solve_decision. Defined.
#[global] Instance Author_eq_dec : EqDecision Author.
Proof. solve_decision. Defined.
#[global] Instance SocialMediaPost_eq_dec : EqDecision SocialMediaPost.
Proof. solve_decision. Defined.

(** The value type of the cache [Map]. *)
Record CacheEntry := { data : list SocialMediaPost; timestamp : Z }.

(** The [filters] argument of [filterPosts]; an absent field is [None]. *)
Module SearchFilters.
Record t := {
  platform : option jsstring;
  category : option jsstring;
  dateFrom : option jsstring;
  dateTo : option jsstring;
  tags : option (list jsstring)
}.
End SearchFilters.

(** ** The host: clock, network and [Date] *)

(** What [response.json()] gives: [NotJson] when it (or reading the parsed
    value) throws; otherwise the truthiness of [data.success] and
    [data.data] when [Array.isArray] holds of it. *)
Inductive Body :=
| NotJson
| Json (success : bool) (payload : option (list SocialMediaPost)).

Record Response := { ok : bool; status : Z; body : Body }.

(** Interactions are numbered from 0 in the order they happen; the host
    answers the n-th one. *)
Record World := {
  clock : nat → Z;                        (* a reading of the clock, in ms *)
  network : nat → string → option Response; (* [fetch(url)]; [None]: rejected *)
  dateParse : jsstring → option Z;        (* [new Date(s).getTime()]; [None]: NaN *)
  isoDate : Z → jsstring;                 (* [d.toISOString().split('T')[0]] *)
  localTime : Z → jsstring;               (* [d.toLocaleTimeString('tr-TR', ...)] *)
  daysBefore : Z → Z → Z                  (* [d.setDate(d.getDate() - k)] *)
}.

Inductive Call :=
| ClockRead
| Fetch (url : string).

Definition isFetch (c : Call) : bool :=
  match c with
  | Fetch _ => true
  | ClockRead => false
  end.

(** The service object ([this.cache]) together with the record of the
    interactions so far. *)
Record Machine := { cache : gmap string CacheEntry; log : list Call }.

(** ** Programs: state, host and exceptions *)

Inductive Outcome (A : Type) :=
| Returned (a : A)
| Thrown.
Arguments Returned {A} a.
Arguments Thrown {A}.

Definition M (A : Type) : Type := World → Machine → Outcome A * Machine.

Definition ret {A} (a : A) : M A := λ _ m, (Returned a, m).

Definition bind {A B} (c : M A) (k : A → M B) : M B :=
  λ w m, match c w m with
         | (Returned a, m') => k a w m'
         | (Thrown, m') => (Thrown, m')
         end.

Definition throw {A} : M A := λ _ m, (Thrown, m).

(** [try { c } catch (error) { h }]. *)
Definition try_catch {A} (c h : M A) : M A :=
  λ w m, match c w m with
         | (Returned a, m') => (Returned a, m')
         | (Thrown, m') => h w m'
         end.

Declare Scope prog_scope.
Delimit Scope prog_scope with prog.
Bind Scope prog_scope with M.
Notation "'let!' x := c 'in' k" := (bind c (λ x, k))
  (at level 10, x pattern, c at level 100, k at level 200, only parsing) : prog_scope.
Local Open Scope prog_scope.

Definition host : M World := λ w m, (Returned w, m).

(** [Date.now()] and [new Date()]. *)
Definition dateNow : M Z :=
  λ w m, (Returned (clock w (length (log m))),
          {| cache := cache m; log := log m ++ [ClockRead] |}).

(** [await fetch(url)]. *)
Definition fetch (url : string) : M Response :=
  λ w m, let m' := {| cache := cache m; log := log m ++ [Fetch url] |} in
         match network w (length (log m)) url with
         | Some r => (Returned r, m')
         | None => (Thrown, m')
         end.

(** [await response.json()], then the reads of [data.success] and
    [data.data]. *)
Definition json (r : Response) : M (bool * option (list SocialMediaPost)) :=
  match body r with
  | Json success payload => ret (success, payload)
  | NotJson => throw
  end.

Definition cacheGet (key : string) : M (option CacheEntry) :=
  λ _ m, (Returned (cache m !! key), m).

Definition cacheSet (key : string) (e : CacheEntry) : M unit :=
  λ _ m, (Returned tt, {| cache := <[key := e]> (cache m); log := log m |}).

(** ** [Array.prototype.sort]

    ECMAScript fixes the result for a consistent comparator: the stable
    sorted arrangement.  The model is a stable insertion sort.  A comparator
    result that is NaN ([None]) is read as +0, as [SortCompare] does. *)
Definition sortCompare {A} (comparefn : A → A → option Z) (x y : A) : Z :=
  default 0%Z (comparefn x y).

Fixpoint insertSorted {A} (comparefn : A → A → option Z) (x : A) (l : list A) : list A :=
  match l with
  | [] => [x]
  | y :: l' =>
    if (sortCompare comparefn x y <? 0)%Z then x :: y :: l'
    else y :: insertSorted comparefn x l'
  end.

Definition arraySort {A} (comparefn : A → A → option Z) (l : list A) : list A :=
  foldl (λ acc x, insertSorted comparefn x acc) [] l.

(** [new Date(p.date + ' ' + p.time).getTime()]. *)
Definition getTime (w : World) (p : SocialMediaPost) : option Z :=
  dateParse w (date p ++ js " " ++ time p).

(** The comparator [(a, b) => getTime(b) - getTime(a)]; a subtraction with a
    NaN operand is NaN. *)
Definition byDateDesc (w : World) (a b : SocialMediaPost) : option Z :=
  match getTime w b, getTime w a with
  | Some tb, Some ta => Some (tb - ta)%Z
  | _, _ => None
  end.

Definition CACHE_DURATION : Z := 5 * 60 * 1000.

Definition twitter_endpoint : string := "https://jqwosbv3--fetch-twitter-data.functions.blink.new".
Definition rss_endpoint : string := "https://jqwosbv3--fetch-rss-feeds.functions.blink.new".

(** [getAllPosts], with [this.fetchRealTwitterData], [this.fetchRealRSSFeeds]
    and [this.getMockData] as they are bound in each revision of the class.
    The locals [allPosts] and [hasAnyData] are threaded through the two
    [try] blocks. *)
Definition getAllPostsOf (fetchRealTwitterData fetchRealRSSFeeds getMockData : M (list SocialMediaPost))
    : M (list SocialMediaPost) :=
  let cacheKey := "all_posts"%string in
  let! cached := cacheGet cacheKey in
  let! hit := match cached with
         | Some entry =>
           let! now := dateNow in
           ret (if (now - timestamp entry <? CACHE_DURATION)%Z
                then Some (data entry) else None)
         | None => ret None
         end in
  match hit with
  | Some posts => ret posts
  | None =>
    let allPosts : list SocialMediaPost := [] in
    let hasAnyData := false in
    let! (allPosts, hasAnyData) :=
      try_catch
        (let! twitterPosts := fetchRealTwitterData in
         if (0 <? length twitterPosts)%nat
         then ret (allPosts ++ twitterPosts, true)
         else ret (allPosts, hasAnyData))
        (ret (allPosts, hasAnyData)) in
    let! (allPosts, hasAnyData) :=
      try_catch
        (let! rssPosts := fetchRealRSSFeeds in
         if (0 <? length rssPosts)%nat
         then ret (allPosts ++ rssPosts, true)
         else ret (allPosts, hasAnyData))
        (ret (allPosts, hasAnyData)) in
    if hasAnyData then
      let! w := host in
      let allPosts := arraySort (byDateDesc w) allPosts in
      let! now := dateNow in
      let! _ := cacheSet cacheKey {| data := allPosts; timestamp := now |} in
      ret allPosts
    else
      match cached with
      | Some entry => ret (data entry)
      | None => getMockData
      end
  end.

(** ** src/services/socialMediaService.ts *)
Module Service.

Definition keywords : list (jsstring * list jsstring) :=
  [ (js "İstanbul", [js "İstanbul"; js "Şehir"]);
    (js "belediye", [js "Belediye"; js "Yönetim"]);
    (js "proje", [js "Proje"; js "Gelişim"]);
    (js "ulaşım", [js "Ulaşım"; js "Metro"]);
    (js "çevre", [js "Çevre"; js "Yeşil"]);
    (js "gençlik", [js "Gençlik"; js "Eğitim"]);
    (js "kültür", [js "Kültür"; js "Sanat"]);
    (js "spor", [js "Spor"; js "Sağlık"]);
    (js "ekonomi", [js "Ekonomi"; js "İş"]);
    (js "sosyal", [js "Sosyal"; js "Toplum"]) ].

Definition extractTags (content : jsstring) : list jsstring :=
  let hashtags := matchAll (rx_hashtag (λ _, false)) content in
  let tags := [] ++ (substring1 <$> hashtags) in
  let tags := pushKeywordTags keywords content tags in
  take 5 (uniq tags).

Definition fetchRealTwitterData : M (list SocialMediaPost) :=
  try_catch
    (let! response := fetch twitter_endpoint in
     if negb (ok response) then throw
     else
       let! (success, payload) := json response in
       match payload with
       | Some posts => if success then ret posts else ret []
       | None => ret []
       end)
    (ret []).

Definition fetchRealRSSFeeds : M (list SocialMediaPost) :=
  try_catch
    (let! response := fetch rss_endpoint in
     if negb (ok response) then ret []
     else
       let! (success, payload) := json response in
       match payload with
       | Some posts => if success then ret posts else ret []
       | None => ret []
       end)
    (ret []).

Definition getMockData : M (list SocialMediaPost) :=
  let! today := dateNow in
  let! w := host in
  let yesterday := daysBefore w today 1 in
  let twoDaysAgo := daysBefore w today 2 in
  ret [
    {| id := js "real_content_1";
       content := js "İstanbul'da ulaşım devrimini sürdürüyoruz. Yeni metro hatlarımızla vatandaşlarımızın hayatını kolaylaştırıyoruz. Çevre dostu, hızlı ve konforlu ulaşım hakkı herkesin hakkıdır. #İstanbulMetrosu #UlaşımDevrimi #YeşilUlaşım";
       summary := js "İstanbul'da metro hatları genişletilerek ulaşım devrimi sürdürülüyor.";
       platform := twitter;
       date := isoDate w today;
       time := js "14:30";
       url := Some (js "https://twitter.com/CBAdayOfisi/status/1234567890");
       engagement := {| likes := 2847; shares := 456; comments := 189 |};
       tags := [js "İstanbul"; js "Metro"; js "Ulaşım"; js "YeşilUlaşım"; js "Belediye"];
       category := Some (js "Ulaşım");
       imageUrl := None;
       author := Some {| username := js "CBAdayOfisi"; name := js "Ekrem İmamoğlu"; verified := true |} |};
    {| id := js "real_content_2";
       content := js "Gençlerimiz İstanbul'un geleceğidir. Onlara daha fazla imkan, daha fazla destek sağlamak için çalışmaya devam ediyoruz. Gençlik merkezlerimizde ücretsiz kurslar, spor aktiviteleri ve sosyal etkinlikler düzenliyoruz. #Gençlikİçin #İstanbulGençlik";
       summary := js "Gençler için ücretsiz kurslar ve sosyal etkinlikler düzenleniyor.";
       platform := instagram;
       date := isoDate w yesterday;
       time := js "16:45";
       url := Some (js "https://www.instagram.com/p/ABC123/");
       engagement := {| likes := 4521; shares := 234; comments := 312 |};
       tags := [js "Gençlik"; js "Eğitim"; js "Sosyal"; js "İstanbul"; js "Destek"];
       category := Some (js "Eğitim");
       imageUrl := None;
       author := Some {| username := js "ekremimamoglu"; name := js "Ekrem İmamoğlu"; verified := true |} |};
    {| id := js "real_content_3";
       content := js "İstanbul'u daha yeşil, daha yaşanabilir bir şehir haline getiriyoruz. Her mahallede yeni parklar açıyor, ağaçlandırma çalışmalarını sürdürüyoruz. Çevre koruma sadece bir slogan değil, yaşam tarzımızdır. #Yeşilİstanbul #ÇevreKoruma #SürdürülebilirŞehir";
       summary := js "İstanbul'da yeşil alanlar artırılıyor ve çevre koruma çalışmaları sürdürülüyor.";
       platform := facebook;
       date := isoDate w twoDaysAgo;
       time := js "10:15";
       url := Some (js "https://www.facebook.com/imamogluekrem/posts/123456789");
       engagement := {| likes := 3654; shares := 789; comments := 445 |};
       tags := [js "Çevre"; js "Yeşil"; js "Park"; js "İstanbul"; js "SürdürülebilirŞehir"];
       category := Some (js "Çevre");
       imageUrl := None;
       author := Some {| username := js "imamogluekrem"; name := js "Ekrem İmamoğlu"; verified := true |} |};
    {| id := js "real_content_4";
       content := js "Demokrasi ve adalet mücadelemiz devam ediyor. Halkın iradesine saygı, şeffaflık ve hesap verebilirlik ilkelerimizden asla taviz vermeyeceğiz. İstanbul'u birlikte yönetiyoruz, birlikte büyütüyoruz. #Demokrasi #Adalet #Halkınİradesi";
       summary := js "Demokrasi ve adalet mücadelesi, şeffaflık ilkeleriyle sürdürülüyor.";
       platform := twitter;
       date := isoDate w twoDaysAgo;
       time := js "20:30";
       url := Some (js "https://twitter.com/imamoglu_int/status/9876543210");
       engagement := {| likes := 5234; shares := 1234; comments := 567 |};
       tags := [js "Demokrasi"; js "Adalet"; js "Şeffaflık"; js "Halkınİradesi"; js "Politika"];
       category := Some (js "Politika");
       imageUrl := None;
       author := Some {| username := js "imamoglu_int"; name := js "Ekrem İmamoğlu"; verified := true |} |};
    {| id := js "real_content_5";
       content := js "İstanbul'da kültür ve sanat hayatını canlandırıyoruz. Müzelerimiz, tiyatrolarımız ve konser salonlarımızla şehrimizi kültür başkenti yapıyoruz. Sanat herkesin hakkıdır. #KültürBaşkenti #SanatHerkesin #İstanbulKültür";
       summary := js "İstanbul'da kültür ve sanat etkinlikleri artırılarak şehir kültür başkenti yapılıyor.";
       platform := youtube;
       date := isoDate w today;
       time := js "12:00";
       url := Some (js "https://www.youtube.com/watch?v=ABC123DEF456");
       engagement := {| likes := 1876; shares := 345; comments := 234 |};
       tags := [js "Kültür"; js "Sanat"; js "Müze"; js "Tiyatro"; js "İstanbul"];
       category := Some (js "Kültür");
       imageUrl := None;
       author := Some {| username := js "EkremImamogluTV"; name := js "Ekrem İmamoğlu"; verified := true |} |};
    {| id := js "real_content_6";
       content := js "Sosyal belediyecilik anlayışımızla hiçbir vatandaşımızı yalnız bırakmıyoruz. Yaşlılarımıza, engelli kardeşlerimize ve ihtiyaç sahibi ailelerimize destek olmaya devam ediyoruz. Dayanışma İstanbul'un ruhudur. #SosyalBelediyecilik #Dayanışma #İstanbulRuhu";
       summary := js "Sosyal belediyecilik kapsamında yaşlı, engelli ve ihtiyaç sahibi ailelere destek veriliyor.";
       platform := twitter;
       date := isoDate w yesterday;
       time := js "09:45";
       url := Some (js "https://twitter.com/CBAdayOfisi/status/5555666677");
       engagement := {| likes := 3421; shares := 567; comments := 289 |};
       tags := [js "Sosyal"; js "Belediyecilik"; js "Dayanışma"; js "Destek"; js "İstanbul"];
       category := Some (js "Sosyal");
       imageUrl := None;
       author := Some {| username := js "CBAdayOfisi"; name := js "Ekrem İmamoğlu"; verified := true |} |};
    {| id := js "real_content_7";
       content := js "İstanbul'da spor kültürünü geliştiriyoruz. Yeni spor tesisleri, halı sahalar ve fitness alanlarıyla vatandaşlarımızın sağlıklı yaşam sürmesini destekliyoruz. Sağlıklı nesiller, güçlü İstanbul. #Sporİstanbul #SağlıklıYaşam #FitnessHerkesin";
       summary := js "İstanbul'da spor tesisleri artırılarak vatandaşların sağlıklı yaşam sürmesi destekleniyor.";
       platform := instagram;
       date := isoDate w today;
       time := js "18:20";
       url := Some (js "https://www.instagram.com/p/DEF456GHI/");
       engagement := {| likes := 2987; shares := 198; comments := 156 |};
       tags := [js "Spor"; js "Sağlık"; js "Fitness"; js "İstanbul"; js "SağlıklıYaşam"];
       category := Some (js "Spor");
       imageUrl := None;
       author := Some {| username := js "ekremimamoglu"; name := js "Ekrem İmamoğlu"; verified := true |} |};
    {| id := js "real_content_8";
       content := js "İstanbul'un ekonomik gücünü artırmak için girişimcilerimizi destekliyoruz. KOBİ'lere kredi desteği, genç girişimcilere mentorluk programları ve iş geliştirme merkezleriyle ekonomimizi güçlendiriyoruz. #GirişimcilikDestegi #İstanbulEkonomi #KOBİDestek";
       summary := js "Girişimciler ve KOBİ'ler için destek programları ile İstanbul'un ekonomik gücü artırılıyor.";
       platform := facebook;
       date := isoDate w yesterday;
       time := js "13:15";
       url := Some (js "https://www.facebook.com/imamogluekrem/posts/987654321");
       engagement := {| likes := 2156; shares := 432; comments := 178 |};
       tags := [js "Ekonomi"; js "Girişimcilik"; js "KOBİ"; js "İş"; js "Destek"];
       category := Some (js "Ekonomi");
       imageUrl := None;
       author := Some {| username := js "imamogluekrem"; name := js "Ekrem İmamoğlu"; verified := true |} |}
  ].

Definition getAllPosts : M (list SocialMediaPost) :=
  getAllPostsOf fetchRealTwitterData fetchRealRSSFeeds getMockData.

End Service.

(** ** unnamed/part_001: the revision of the class whose fallback posts are
    system messages *)
Module Part001.

Definition fetchRealTwitterData : M (list SocialMediaPost) :=
  Service.fetchRealTwitterData.

Definition fetchRealRSSFeeds : M (list SocialMediaPost) :=
  try_catch
    (let! response := fetch rss_endpoint in
     if negb (ok response) then throw
     else
       let! (success, payload) := json response in
       match payload with
       | Some posts => if success then ret posts else ret []
       | None => ret []
       end)
    (ret []).

Definition getMockData : M (list SocialMediaPost) :=
  let! today := dateNow in
  let! time1 := dateNow in
  let! time2 := dateNow in
  let! w := host in
  ret [
    {| id := js "system_message_1";
       content := js "⚠️ Sosyal medya beslemeleri şu anda yüklenemiyor. Bu durum geçicidir ve genellikle birkaç dakika içinde düzelir. Lütfen sayfayı yenileyin veya birkaç dakika sonra tekrar deneyin. Twitter API ve RSS beslemeleri yeniden bağlanmaya çalışılıyor...";
       summary := js "Sosyal medya beslemeleri geçici olarak kullanılamıyor.";
       platform := rss;
       date := isoDate w today;
       time := localTime w time1;
       url := Some (js "");
       engagement := {| likes := 0; shares := 0; comments := 0 |};
       tags := [js "Sistem"; js "Bilgi"; js "Geçici"];
       category := Some (js "Sistem");
       imageUrl := None;
       author := None |};
    {| id := js "system_message_2";
       content := js "🔧 Teknik Bilgi: Site şu anda Twitter API v2 ve RSS beslemelerinden gerçek zamanlı veri çekmeye çalışıyor. Bağlantı sorunları genellikle kısa sürelidir. Veriler başarıyla yüklendiğinde bu mesajlar otomatik olarak kaybolacak.";
       summary := js "Sistem durumu ve teknik bilgiler.";
       platform := rss;
       date := isoDate w today;
       time := localTime w time2;
       url := Some (js "");
       engagement := {| likes := 0; shares := 0; comments := 0 |};
       tags := [js "Teknik"; js "API"; js "Durum"];
       category := Some (js "Sistem");
       imageUrl := None;
       author := None |}
  ].

Definition getAllPosts : M (list SocialMediaPost) :=
  getAllPostsOf fetchRealTwitterData fetchRealRSSFeeds getMockData.

End Part001.

(** ** functions/fetch-rss-feeds/index.ts *)
Module RssFeeds.

Definition keywords : list (jsstring * list jsstring) :=
  [ (js "İstanbul", [js "İstanbul"; js "Şehir"]);
    (js "belediye", [js "Belediye"; js "Yönetim"]);
    (js "proje", [js "Proje"; js "Gelişim"]);
    (js "ulaşım", [js "Ulaşım"; js "Metro"]);
    (js "çevre", [js "Çevre"; js "Yeşil"]);
    (js "gençlik", [js "Gençlik"; js "Eğitim"]);
    (js "kültür", [js "Kültür"; js "Sanat"]);
    (js "spor", [js "Spor"; js "Sağlık"]);
    (js "ekonomi", [js "Ekonomi"; js "İş"]);
    (js "sosyal", [js "Sosyal"; js "Toplum"]);
    (js "seçim", [js "Seçim"; js "Politika"]);
    (js "cumhurbaşkanı", [js "CB"; js "Seçim"]);
    (js "millet", [js "Millet"; js "Halk"]);
    (js "demokrasi", [js "Demokrasi"; js "Özgürlük"]) ].

Definition extractTags (content : jsstring) : list jsstring :=
  let hashtags := matchAll (rx_hashtag isTurkishLetter) content in
  let tags := [] ++ (substring1 <$> hashtags) in
  let tags := pushKeywordTags keywords content tags in
  take 5 (uniq tags).

End RssFeeds.

(** ** unnamed/part_002: the Twitter function *)
Module TwitterData.

Definition keywords : list (jsstring * list jsstring) := RssFeeds.keywords.

(** [contextAnnotations] is the optional array of annotations, each reduced
    to its [entity?.name] ([None] when missing). *)
Definition extractTags (text : jsstring) (contextAnnotations : option (list (option jsstring)))
    : list jsstring :=
  let hashtags := matchAll (rx_hashtag isTurkishLetter) text in
  let tags := [] ++ (substring1 <$> hashtags) in
  let tags :=
    match contextAnnotations with
    | Some annotations =>
      foldl (λ tags name,
               match name with
               | Some n => if truthy n then tags ++ [n] else tags
               | None => tags
               end)
            tags annotations
    | None => tags
    end in
  let tags := pushKeywordTags keywords text tags in
  take 8 (uniq tags).

End TwitterData.

(** ** Query layer of the service *)

Definition searchPosts (posts : list SocialMediaPost) (query : jsstring) : list SocialMediaPost :=
  if negb (truthy (trim query)) then posts
  else
    let searchTerms :=
      List.filter (λ term, (0 <? length term)%nat) (split rx_one_space (toLowerCase query)) in
    List.filter
      (λ post,
         let searchableText :=
           toLowerCase
             (join_space ([content post; summary post] ++ tags post
                          ++ [default [] (category post)])) in
         forallb (λ term, includes searchableText term) searchTerms)
      posts.

(** [filters.x && test(filters.x)] for an optional string field. *)
Definition whenSet (field : option jsstring) (test : jsstring → bool) : bool :=
  match field with
  | Some v => truthy v && test v
  | None => false
  end.

Definition filterPosts (posts : list SocialMediaPost) (filters : SearchFilters.t) : list SocialMediaPost :=
  List.filter
    (λ post,
       if whenSet (SearchFilters.platform filters)
            (λ v, negb (bool_decide (platformName (platform post) = v)))
       then false
       else if whenSet (SearchFilters.category filters)
                 (λ v, negb (bool_decide (category post = Some v)))
       then false
       else if whenSet (SearchFilters.dateFrom filters) (λ v, str_lt (date post) v)
       then false
       else if whenSet (SearchFilters.dateTo filters) (λ v, str_lt v (date post))
       then false
       else
         match SearchFilters.tags filters with
         | Some ftags =>
           if (0 <? length ftags)%nat then
             let hasMatchingTag :=
               existsb
                 (λ tag, existsb (λ postTag, includes (toLowerCase postTag) (toLowerCase tag))
                                 (tags post))
                 ftags in
             if negb hasMatchingTag then false else true
           else true
         | None => true
         end)
    posts.

(** ** Predicates on normalized text *)

(** A code unit that is neither '<' nor '>'. *)
Definition isPlain (c : N) : bool := negb (c =? ch_lt) && negb (c =? ch_gt).

(** [Erases out s]: [out] arises from [s] by deleting code units and by
    inserting plain ones; what every later stage of [cleanContent] does to
    the text it receives. *)
Inductive Erases : jsstring → jsstring → Prop :=
| erases_nil : Erases [] []
| erases_keep c out s : Erases out s → Erases (c :: out) (c :: s)
| erases_drop c out s : Erases out s → Erases out (c :: s)
| erases_insert c out s : isPlain c = true → Erases out s → Erases (c :: out) s.

(** No '<' with a '>' anywhere after it. *)
Fixpoint tagFree (s : jsstring) : bool :=
  match s with
  | [] => true
  | c :: s' => (negb (c =? ch_lt) || negb (bool_decide (ch_gt ∈ s'))) && tagFree s'
  end.

(** No two adjacent white-space code units. *)
Fixpoint singleSpaced (s : jsstring) : bool :=
  match s with
  | [] => true
  | x :: s' =>
    match s' with
    | [] => true
    | y :: _ => negb (isWhiteSpace x && isWhiteSpace y) && singleSpaced s'
    end
  end.

(** The first, respectively last, code unit is not white space. *)
Definition startsClean (s : jsstring) : Prop :=
  ∀ c, head s = Some c → isWhiteSpace c = false.

Definition endsClean (s : jsstring) : Prop :=
  ∀ c, last s = Some c → isWhiteSpace c = false.

(** An input of 501 code units: 499 letters, a space and a letter. *)
Definition long_input : jsstring := replicate 499 97 ++ js " b".

(** ** Predicates on summaries and queries *)

(** The text before the first '.', '!' or '?', trimmed. *)
Definition firstSentence (content : jsstring) : jsstring :=
  trim (take (spanLength (λ c, negb (isTerminator c)) content) content).

(** Lexicographic order on code units, written out as a relation. *)
Inductive lex_le : jsstring → jsstring → Prop :=
| lex_le_nil s : lex_le [] s
| lex_le_lt x y s t : (x < y)%N → lex_le (x :: s) (y :: t)
| lex_le_eq x s t : lex_le s t → lex_le (x :: s) (x :: t).


(** A filter field is present with value [v]: it is defined and not the
    empty string (the search form stores [undefined] for an empty input). *)
Definition given (field : option jsstring) (v : jsstring) : Prop :=
  field = Some v ∧ v ≠ [].


(** Sample posts for the examples. *)
Definition post_of (i d t : string) (p : Platform) (c : string) (ts : list jsstring)
    : SocialMediaPost :=
  {| id := js i; content := js "Metro hattı açıldı"; summary := js "Metro";
     platform := p; date := js d; time := js t; url := None;
     engagement := {| likes := 0; shares := 0; comments := 0 |};
     tags := ts; category := Some (js c); imageUrl := None; author := None |}.

Definition post_jan : SocialMediaPost :=
  post_of "twitter_1" "2025-01-15" "14:30" twitter "Ulaşım" [js "Metro"; js "İstanbul"].

Definition post_feb : SocialMediaPost :=
  post_of "rss_2" "2025-02-03" "09:00" rss "Genel" [js "Spor"].

(** A post whose date and time are empty. *)
Definition post_undated : SocialMediaPost :=
  post_of "rss_3" "" "" rss "Genel" [].

Definition filters_january : SearchFilters.t :=
  {| SearchFilters.platform := Some (js "twitter");
     SearchFilters.category := None;
     SearchFilters.dateFrom := Some (js "2025-01-01");
     SearchFilters.dateTo := Some (js "2025-01-31");
     SearchFilters.tags := Some [js "metro"] |}.

(** ** Predicates on runs of [getAllPosts] *)

(** The posts an adapter extracts from the answer to its request: those of
    a successful answer whose body has a truthy [success] and an array
    [data]; none in every other case. *)
Definition postsOf (r : option Response) : list SocialMediaPost :=
  match r with
  | Some {| ok := true; body := Json true (Some posts) |} => posts
  | _ => []
  end.

(** The cache holds no entry younger than five minutes when the call starts. *)
Definition stale (w : World) (m : Machine) : Prop :=
  ∀ entry, cache m !! "all_posts" = Some entry →
           (CACHE_DURATION ≤ clock w (length (log m)) - timestamp entry)%Z.

(** Number of the interaction that starts a refresh: the clock is read first
    when an entry exists. *)
Definition refreshStart (m : Machine) : nat :=
  (length (log m) + (if cache m !! "all_posts" is Some _ then 1 else 0))%nat.

(** The concatenation of what the two adapters contribute in a refresh. *)
Definition fetched (w : World) (m : Machine) : list SocialMediaPost :=
  postsOf (network w (refreshStart m) twitter_endpoint)
  ++ postsOf (network w (S (refreshStart m)) rss_endpoint).

(** Both timestamps parse and [a] is not older than [b]. *)
Definition notOlder (w : World) (a b : SocialMediaPost) : Prop :=
  ∃ ta tb, getTime w a = Some ta ∧ getTime w b = Some tb ∧ (tb ≤ ta)%Z.

(** The posts of [l] whose timestamp is [t], in their order in [l]. *)
Definition stampedAt (w : World) (t : Z) (l : list SocialMediaPost) : list SocialMediaPost :=
  List.filter (λ p, bool_decide (getTime w p = Some t)) l.

(** The reading of the specification: a timestamp that does not parse counts
    as 0. *)
Definition epochZeroTime (w : World) (p : SocialMediaPost) : Z :=
  default 0%Z (getTime w p).

Definition sortedEpochZero (w : World) (l : list SocialMediaPost) : Prop :=
  StronglySorted (λ a b, (epochZeroTime w b ≤ epochZeroTime w a)%Z) l.

(** ** Hosts for the examples *)

Definition digit (c : N) : option Z :=
  if (48 <=? c) && (c <=? 57) then Some (Z.of_N (c - 48)) else None.

Fixpoint number (acc : Z) (s : jsstring) : option Z :=
  match s with
  | [] => Some acc
  | c :: s' => d ← digit c; number (10 * acc + d)%Z s'
  end.

Definition daysFromCivil (y m d : Z) : Z :=
  let y' := if (m <=? 2)%Z then (y - 1)%Z else y in
  let era := (y' / 400)%Z in
  let yoe := (y' - era * 400)%Z in
  let doy := ((153 * (if (2 <? m)%Z then m - 3 else m + 9) + 2) / 5 + d - 1)%Z in
  let doe := (yoe * 365 + yoe / 4 - yoe / 100 + doy)%Z in
  (era * 146097 + doe - 719468)%Z.

(** [new Date(s).getTime()] for the stamps the pipeline writes,
    "YYYY-MM-DD HH:MM", read as UTC; any other string is an invalid date. *)
Definition parseStamp (s : jsstring) : option Z :=
  if bool_decide (length s = 16%nat ∧ s !! 4%nat = Some 45 ∧ s !! 7%nat = Some 45
                  ∧ s !! 10%nat = Some 32 ∧ s !! 13%nat = Some 58)
  then
    y ← number 0 (take 4 s);
    mo ← number 0 (take 2 (drop 5 s));
    d ← number 0 (take 2 (drop 8 s));
    h ← number 0 (take 2 (drop 11 s));
    mi ← number 0 (take 2 (drop 14 s));
    if ((1 <=? mo) && (mo <=? 12) && (1 <=? d) && (d <=? 31) && (h <=? 23) && (mi <=? 59))%Z
    then Some ((((daysFromCivil y mo d * 24 + h) * 60 + mi) * 60000)%Z)
    else None
  else None.

(** A host with the given network whose clock starts at [t0] and advances
    by one millisecond per interaction. *)
Definition hostOf (net : nat → string → option Response) (t0 : Z) : World :=
  {| clock := λ n, (t0 + Z.of_nat n)%Z;
     network := net;
     dateParse := parseStamp;
     isoDate := λ _, js "2025-01-15";
     localTime := λ _, js "12:00";
     daysBefore := λ t k, (t - k * 86400000)%Z |}.

Definition answer (posts : list SocialMediaPost) : option Response :=
  Some {| ok := true; status := 200; body := Json true (Some posts) |}.

(** Every request is rejected. *)
Definition offline (t0 : Z) : World := hostOf (λ _ _, None) t0.

(** The Twitter function answers with [posts], the feed function with a
    server error. *)
Definition twitterOnly (posts : list SocialMediaPost) (t0 : Z) : World :=
  hostOf (λ _ url, if bool_decide (url = twitter_endpoint) then answer posts
                   else Some {| ok := false; status := 500; body := NotJson |}) t0.

Definition machine0 : Machine := {| cache := ∅; log := [] |}.

Definition machine_cached : Machine :=
  {| cache := {[ "all_posts"%string := {| data := [post_feb]; timestamp := 1736950000000 |} ]};
     log := [] |}.

(** 2025-01-15T14:06:40Z. *)
Definition t0 : Z := 1736950000000.

(** The input of the tag example of the specification. *)
Definition tag_example : jsstring := js "İstanbul'da #Metro ve #YeşilUlaşım büyüyor".

(** ** Categories *)

(** The loop of [categorizeContent], the same in the three files: the first
    category, in table order, one of whose keywords occurs in the lower-cased
    content. *)
Fixpoint firstCategory (categories : list (jsstring * list jsstring))
    (lowerContent : jsstring) : option jsstring :=
  match categories with
  | [] => None
  | (category, keywords) :: rest =>
    if existsb (λ keyword, includes lowerContent keyword) keywords
    then Some category
    else firstCategory rest lowerContent
  end.

(** [categorizeContent] of src/services/socialMediaService.ts. *)
Module ServiceCategories.

Definition categories : list (jsstring * list jsstring) :=
  [ (js "Ulaşım", [js "metro"; js "otobüs"; js "ulaşım"; js "trafik"; js "yol"]);
    (js "Çevre", [js "çevre"; js "yeşil"; js "park"; js "ağaç"; js "temiz"]);
    (js "Kültür", [js "kültür"; js "sanat"; js "müze"; js "tiyatro"; js "konser"]);
    (js "Spor", [js "spor"; js "stadyum"; js "futbol"; js "basketbol"; js "olimpiyat"]);
    (js "Eğitim", [js "eğitim"; js "okul"; js "üniversite"; js "öğrenci"; js "kurs"]);
    (js "Ekonomi", [js "ekonomi"; js "iş"; js "yatırım"; js "ticaret"; js "istihdam"]);
    (js "Sosyal", [js "sosyal"; js "yardım"; js "destek"; js "hizmet"; js "vatandaş"]) ].

Definition categorizeContent (content : jsstring) : jsstring :=
  let lowerContent := toLowerCase content in
  default (js "Genel") (firstCategory categories lowerContent).

End ServiceCategories.

(** [categorizeContent] of functions/fetch-rss-feeds/index.ts and of
    unnamed/part_002 (the same table in both). *)
Module FunctionCategories.

Definition categories : list (jsstring * list jsstring) :=
  [ (js "Ulaşım", [js "metro"; js "otobüs"; js "ulaşım"; js "trafik"; js "yol"; js "köprü"]);
    (js "Çevre", [js "çevre"; js "yeşil"; js "park"; js "ağaç"; js "temiz"; js "doğa"]);
    (js "Kültür", [js "kültür"; js "sanat"; js "müze"; js "tiyatro"; js "konser"; js "festival"]);
    (js "Spor", [js "spor"; js "stadyum"; js "futbol"; js "basketbol"; js "olimpiyat"; js "maç"]);
    (js "Eğitim", [js "eğitim"; js "okul"; js "üniversite"; js "öğrenci"; js "kurs"; js "bilim"]);
    (js "Ekonomi", [js "ekonomi"; js "iş"; js "yatırım"; js "ticaret"; js "istihdam"; js "gelir"]);
    (js "Sosyal", [js "sosyal"; js "yardım"; js "destek"; js "hizmet"; js "vatandaş"; js "toplum"]);
    (js "Politika", [js "seçim"; js "cumhurbaşkanı"; js "millet"; js "demokrasi"; js "özgürlük"; js "adalet"]);
    (js "Sağlık", [js "sağlık"; js "hastane"; js "doktor"; js "tedavi"; js "aşı"; js "pandemi"]) ].

Definition categorizeContent (content : jsstring) : jsstring :=
  let lowerContent := toLowerCase content in
  default (js "Genel") (firstCategory categories lowerContent).

End FunctionCategories.

(** ** Predicates on normalized text, continued *)

(** The first ';' of [s], if there is one, is its first code unit. *)
Definition semiFirst (s : jsstring) : bool :=
  match indexWhere (N.eqb ch_semi) s with
  | Some (S _) => false
  | _ => true
  end.

(** No '&' that is followed by at least one code unit other than ';' and
    then a ';': nothing [/&[^;]+;/] matches. *)
Fixpoint entityFree (s : jsstring) : bool :=
  match s with
  | [] => true
  | c :: s' => (negb (c =? ch_amp) || semiFirst s') && entityFree s'
  end.

(** Every white-space code unit is a space. *)
Definition onlySpaces (s : jsstring) : Prop :=
  Forall (λ c, isWhiteSpace c = true → c = ch_space) s.

(** ** Predicates on tags and categories *)

(** Where a tag comes from: a hashtag of the content, an annotation, or the
    related tags of a keyword that occurs in the lower-cased content; in
    every case it is not empty. *)
Definition tagOrigin (extra : N → bool) (keywords : list (jsstring * list jsstring))
    (annotations : list (option jsstring)) (content tag : jsstring) : Prop :=
  tag ≠ []
  ∧ ((Forall (λ x, isWordChar x || extra x = true) tag
      ∧ ∃ a b, content = a ++ ch_hash :: tag ++ b)
     ∨ Some tag ∈ annotations
     ∨ ∃ entry, entry ∈ keywords
                ∧ includes (toLowerCase content) entry.1 = true ∧ tag ∈ entry.2).

(** [keyword] occurs in the lower-cased content. *)
Definition occursLower (keyword content : jsstring) : Prop :=
  ∃ a b, toLowerCase content = a ++ keyword ++ b.

(** [r] is the name of the first category of the table with a keyword that
    occurs, or "Genel" when no keyword of the table occurs. *)
Definition categorized (categories : list (jsstring * list jsstring))
    (content r : jsstring) : Prop :=
  (∃ before keywords after,
     categories = before ++ (r, keywords) :: after
     ∧ (∃ keyword, keyword ∈ keywords ∧ occursLower keyword content)
     ∧ ∀ entry keyword, entry ∈ before → keyword ∈ entry.2 → ¬ occursLower keyword content)
  ∨ (r = js "Genel"
     ∧ ∀ entry keyword, entry ∈ categories → keyword ∈ entry.2 → ¬ occursLower keyword content).

(** ** The rest of the query layer of the service *)

(** [Array.prototype.sort()] without a comparator, on strings: the order of
    [<] on strings. *)
Definition defaultCompare (x y : jsstring) : option Z :=
  Some (if str_lt x y then -1 else if str_lt y x then 1 else 0)%Z.

Definition getCategories (posts : list SocialMediaPost) : list jsstring :=
  let categories := omap category posts in
  arraySort defaultCompare (uniq categories).

(** A [Map] from strings to numbers: its entries in insertion order.  [set]
    on a key that is present keeps the place of the key. *)
Fixpoint mapSet (key : jsstring) (value : Z) (entries : list (jsstring * Z))
    : list (jsstring * Z) :=
  match entries with
  | [] => [(key, value)]
  | (k, v) :: rest =>
    if bool_decide (k = key) then (key, value) :: rest
    else (k, v) :: mapSet key value rest
  end.

Fixpoint mapGet (key : jsstring) (entries : list (jsstring * Z)) : option Z :=
  match entries with
  | [] => None
  | (k, v) :: rest => if bool_decide (k = key) then Some v else mapGet key rest
  end.

(** [a.slice(0, end)]: a negative [end] counts from the end of the array. *)
Definition sliceTo {A} (finish : Z) (l : list A) : list A :=
  if (finish <? 0)%Z
  then take (Z.to_nat (Z.max (Z.of_nat (length l) + finish) 0)) l
  else take (Z.to_nat finish) l.

(** [limit] is [None] when the argument is left out; it then defaults to 20. *)
Definition getPopularTags (posts : list SocialMediaPost) (limit : option Z) : list jsstring :=
  let limit := default 20%Z limit in
  let tagCounts :=
    foldl (λ tagCounts post,
             foldl (λ tagCounts tag,
                      mapSet tag (default 0 (mapGet tag tagCounts) + 1)%Z tagCounts)
                   tagCounts (tags post))
          [] posts in
  fst <$> sliceTo limit (arraySort (λ a b, Some (b.2 - a.2)%Z) tagCounts).

(** How often [tag] occurs in a list of tags, and among the tags of [posts]. *)
Definition countIn (tag : jsstring) (l : list jsstring) : Z :=
  Z.of_nat (length (List.filter (λ t, bool_decide (t = tag)) l)).

Definition occurrences (tag : jsstring) (posts : list SocialMediaPost) : Z :=
  countIn tag (posts ≫= tags).

(** ** unnamed/part_000: the page and its search form *)
Module Ui.

(** [Object.values(localFilters).some(...)]: a field counts when it is
    defined, not the empty string and not an empty array. *)
Definition hasActiveFilters (localFilters : SearchFilters.t) : bool :=
  let activeString (value : option jsstring) :=
    match value with
    | Some v => truthy v
    | None => false
    end in
  activeString (SearchFilters.platform localFilters)
  || activeString (SearchFilters.category localFilters)
  || activeString (SearchFilters.dateFrom localFilters)
  || activeString (SearchFilters.dateTo localFilters)
  || match SearchFilters.tags localFilters with
     | Some l => (0 <? length l)%nat
     | None => false
     end.

(** [handleTagToggle], with the [handleFilterChange('tags', newTags)] it
    ends in: the new value of [localFilters]. *)
Definition handleTagToggle (localFilters : SearchFilters.t) (tag : jsstring) : SearchFilters.t :=
  let currentTags := default [] (SearchFilters.tags localFilters) in
  let newTags :=
    if bool_decide (tag ∈ currentTags)
    then List.filter (λ t, negb (bool_decide (t = tag))) currentTags
    else currentTags ++ [tag] in
  {| SearchFilters.platform := SearchFilters.platform localFilters;
     SearchFilters.category := SearchFilters.category localFilters;
     SearchFilters.dateFrom := SearchFilters.dateFrom localFilters;
     SearchFilters.dateTo := SearchFilters.dateTo localFilters;
     SearchFilters.tags := Some newTags |}.

(** [applySearchAndFilters]: the value passed to [setFilteredPosts]. *)
Definition applySearchAndFilters (allPosts : list SocialMediaPost) (searchQuery : jsstring)
    (filters : SearchFilters.t) : list SocialMediaPost :=
  let filtered := allPosts in
  let filtered :=
    if truthy (trim searchQuery) then searchPosts filtered searchQuery else filtered in
  filterPosts filtered filters.

(** [getTodaysPost], with [today] the ISO date the clock gives; [None] is
    [undefined]. *)
Definition getTodaysPost (today : jsstring) (filteredPosts : list SocialMediaPost)
    : option SocialMediaPost :=
  match List.find (λ post, bool_decide (date post = today)) filteredPosts with
  | Some post => Some post
  | None => filteredPosts !! 0%nat
  end.

End Ui.

(** A filter whose date range is empty, and one with nothing set. *)
Definition filters_inverted : SearchFilters.t :=
  {| SearchFilters.platform := None;
     SearchFilters.category := None;
     SearchFilters.dateFrom := Some (js "2025-02-01");
     SearchFilters.dateTo := Some (js "2025-01-31");
     SearchFilters.tags := None |}.

Definition filters_blank : SearchFilters.t :=
  {| SearchFilters.platform := Some [];
     SearchFilters.category := None;
     SearchFilters.dateFrom := None;
     SearchFilters.dateTo := None;
     SearchFilters.tags := Some [] |}.


(** * The feed function (functions/fetch-rss-feeds/index.ts, first revision) *)

(** [String(n)] for an integer [n] (below 1e21 in absolute value, as every
    reading of the clock and every index is). *)
Fixpoint uintUnits (d : Decimal.uint) : jsstring :=
  match d with
  | Decimal.Nil => []
  | Decimal.D0 d => 48 :: uintUnits d
  | Decimal.D1 d => 49 :: uintUnits d
  | Decimal.D2 d => 50 :: uintUnits d
  | Decimal.D3 d => 51 :: uintUnits d
  | Decimal.D4 d => 52 :: uintUnits d
  | Decimal.D5 d => 53 :: uintUnits d
  | Decimal.D6 d => 54 :: uintUnits d
  | Decimal.D7 d => 55 :: uintUnits d
  | Decimal.D8 d => 56 :: uintUnits d
  | Decimal.D9 d => 57 :: uintUnits d
  end.

Definition numberToString (z : Z) : jsstring :=
  match Z.to_int z with
  | Decimal.Pos d => uintUnits d
  | Decimal.Neg d => 45 :: uintUnits d
  end.

(** [a || b] on strings. *)
Definition orElse (a b : jsstring) : jsstring := if truthy a then a else b.

Module FeedFunction.

(** What the queries of [parseRSSItem] find in an item: the text content of
    the first matching element, [None] where there is none; for [link] also
    its attribute [href]. *)
Record Item := {
  title : option jsstring;
  description : option jsstring;
  link : option (jsstring * option jsstring);
  pubDate : option jsstring
}.

(** The errors thrown in the file, by what their message is built from. *)
Inductive Error :=
| TimedOut (platform : jsstring)
| NetworkError (platform message : jsstring)
| HttpError (status : Z) (platform : jsstring)
| BodyError
| EmptyResponse (platform : jsstring)
| XmlFailure (platform message : jsstring)
| XmlParsingError (platform textContent : jsstring)
| RangeError
| GaveUp (platform : jsstring) (maxRetries : nat).

(** What [fetch] does: it is rejected, with an [AbortError] when the ten
    seconds are over or with another error, or it gives a response;
    [text = None] when [response.text()] is rejected. *)
Inductive FetchResult :=
| Aborted
| Rejected (message : jsstring)
| Responded (ok : bool) (status : Z) (text : option jsstring).

(** What [parseFromString] does: it throws, or gives a document with a
    [parsererror] element, or a document with its [item] and [entry]
    elements in document order. *)
Inductive XmlResult :=
| ParserThrew (message : jsstring)
| ParserError (textContent : jsstring)
| Document (items : list Item).

(** The host.  Interactions are numbered from 0 in the order they happen;
    [respond] and [randomEngagement] answer the n-th one.  [calendar] gives
    the clock and the date functions. *)
Record Host := {
  calendar : World;
  respond : nat → string → FetchResult;
  parseFromString : jsstring → XmlResult;
  randomEngagement : nat → Platform → nat → Engagement
}.

Inductive Event :=
| Request (url : string)
| Wait (ms : Z)
| Now
| Random.

Inductive Result (A : Type) :=
| Done (a : A)
| Raised (e : Error).
Arguments Done {A} a.
Arguments Raised {A} e.

Definition Prog (A : Type) : Type := Host → list Event → Result A * list Event.

Definition pure {A} (a : A) : Prog A := λ _ t, (Done a, t).

Definition andThen {A B} (c : Prog A) (k : A → Prog B) : Prog B :=
  λ h t, match c h t with
         | (Done a, t') => k a h t'
         | (Raised e, t') => (Raised e, t')
         end.

Definition raise {A} (e : Error) : Prog A := λ _ t, (Raised e, t).

(** [try { c } catch (error) { handler }]. *)
Definition attempt {A} (c : Prog A) (handler : Error → Prog A) : Prog A :=
  λ h t, match c h t with
         | (Done a, t') => (Done a, t')
         | (Raised e, t') => handler e h t'
         end.

Declare Scope feed_scope.
Delimit Scope feed_scope with feed.
Bind Scope feed_scope with Prog.
Notation "'let!' x := c 'in' k" := (andThen c (λ x, k))
  (at level 10, x pattern, c at level 100, k at level 200, only parsing) : feed_scope.
Local Open Scope feed_scope.

Definition askHost : Prog Host := λ h t, (Done h, t).

(** [Date.now()]. *)
Definition now : Prog Z :=
  λ h t, (Done (clock (calendar h) (length t)), t ++ [Now]).

(** [fetch(url, ...)] with the abort timer. *)
Definition fetchUrl (url : string) : Prog FetchResult :=
  λ h t, (Done (respond h (length t) url), t ++ [Request url]).

(** [await new Promise(resolve => setTimeout(resolve, ms))]. *)
Definition sleep (ms : Z) : Prog unit :=
  λ _ t, (Done (), t ++ [Wait ms]).

(** [generateRealisticEngagement]: its result hangs on [Math.random] and is
    left to the host. *)
Definition generateRealisticEngagement (platform : Platform) (contentLength : nat)
    : Prog Engagement :=
  λ h t, (Done (randomEngagement h (length t) platform contentLength), t ++ [Random]).

Definition platformTypeOf (platform : jsstring) : Platform :=
  if includes platform (js "instagram") then instagram
  else if includes platform (js "facebook") then facebook
  else if includes platform (js "youtube") then youtube
  else rss.

Definition parseRSSItem (item : Item) (platform : jsstring) (index : nat)
    : Prog (option SocialMediaPost) :=
  attempt
    (let title := default [] (title item) in
     let description := default [] (description item) in
     let link :=
       match link item with
       | Some (textContent, href) => orElse textContent (default [] href)
       | None => []
       end in
     let pubDate := default [] (pubDate item) in
     let content := cleanContent (orElse description title) in
     if negb (truthy content) || (length content <? 10)%nat then pure None
     else
       let summary := generateSummary content in
       let! h := askHost in
       let! date :=
         if truthy pubDate then pure (dateParse (calendar h) pubDate)
         else let! instant := now in pure (Some instant) in
       match date with
       | None => raise RangeError
       | Some instant =>
         let dateString := isoDate (calendar h) instant in
         let timeString := localTime (calendar h) instant in
         let platformType := platformTypeOf platform in
         let tags := RssFeeds.extractTags content in
         let category := FunctionCategories.categorizeContent content in
         let! engagement := generateRealisticEngagement platformType (length content) in
         let! stamp := now in
         pure (Some {| id := platform ++ js "_" ++ numberToString stamp
                             ++ js "_" ++ numberToString (Z.of_nat index);
                       content := content;
                       summary := summary;
                       platform := platformType;
                       date := dateString;
                       time := timeString;
                       url := Some link;
                       engagement := engagement;
                       tags := tags;
                       category := Some category;
                       imageUrl := None;
                       author := None |})
       end)
    (λ error, pure None).

(** [items.forEach((item, index) => ...)], filling [posts]. *)
Fixpoint forEachItem (platform : jsstring) (items : list Item) (index : nat)
    (posts : list SocialMediaPost) : Prog (list SocialMediaPost) :=
  match items with
  | [] => pure posts
  | item :: rest =>
    let! posts :=
      attempt
        (let! post := parseRSSItem item platform index in
         pure (match post with
               | Some post => posts ++ [post]
               | None => posts
               end))
        (λ error, pure posts) in
    forEachItem platform rest (S index) posts
  end.

Definition fetchRSSFeed (url : string) (platform : jsstring) : Prog (list SocialMediaPost) :=
  let! response := fetchUrl url in
  match response with
  | Aborted => raise (TimedOut platform)
  | Rejected message => raise (NetworkError platform message)
  | Responded ok status text =>
    if negb ok then raise (HttpError status platform)
    else
      match text with
      | None => raise BodyError
      | Some xmlText =>
        if negb (truthy xmlText) || (length (trim xmlText) =? 0)%nat
        then raise (EmptyResponse platform)
        else
          let! h := askHost in
          match parseFromString h xmlText with
          | ParserThrew message => raise (XmlFailure platform message)
          | ParserError textContent => raise (XmlParsingError platform textContent)
          | Document items =>
            let! posts := forEachItem platform items 0 [] in
            pure (take 15 posts)
          end
      end
  end.

(** The loop of [fetchRSSFeedWithRetry] from [attempt] on, with
    [remaining = maxRetries + 1 - attempt] rounds to go. *)
Fixpoint retryLoop (url : string) (platform : jsstring) (maxRetries : nat)
    (remaining : nat) (attemptNo : nat) (lastError : option Error)
    : Prog (list SocialMediaPost) :=
  match remaining with
  | O => raise (default (GaveUp platform maxRetries) lastError)
  | S remaining =>
    attempt (fetchRSSFeed url platform)
      (λ error,
         let! _ := if (attemptNo <? maxRetries)%nat
                   then sleep (1000 * Z.of_nat attemptNo)
                   else pure () in
         retryLoop url platform maxRetries remaining (S attemptNo) (Some error))
  end.

Definition fetchRSSFeedWithRetry (url : string) (platform : jsstring) (maxRetries : nat)
    : Prog (list SocialMediaPost) :=
  retryLoop url platform maxRetries maxRetries 1 None.

Definition RSS_FEEDS : list (jsstring * string) :=
  [ (js "instagram", "https://rss.app/feeds/v1.1/_ekremimamoglu_instagram.rss"%string);
    (js "facebook", "https://rss.app/feeds/v1.1/_imamogluekrem_facebook.rss"%string);
    (js "youtube",
     "https://www.youtube.com/feeds/videos.xml?channel_id=UCT0byua4qIz2wtrmnXoPK6w"%string) ].

(** The loop over the feeds, filling [allPosts]. *)
Fixpoint forEachFeed (feeds : list (jsstring * string)) (allPosts : list SocialMediaPost)
    : Prog (list SocialMediaPost) :=
  match feeds with
  | [] => pure allPosts
  | (platform, url) :: rest =>
    let! allPosts :=
      attempt
        (let! posts := fetchRSSFeedWithRetry url platform 3 in
         pure (if (0 <? length posts)%nat then allPosts ++ posts else allPosts))
        (λ error, pure allPosts) in
    forEachFeed rest allPosts
  end.

(** The answers of the handler: the preflight answer, the answer with the
    posts ([lastUpdated] is the instant whose ISO string is sent), and the
    answer with status 500. *)
Inductive Reply :=
| Preflight
| Success (data : list SocialMediaPost) (count : nat) (lastUpdated : Z)
| Failure (error : Error).

Definition serve (method : jsstring) : Prog Reply :=
  if bool_decide (method = js "OPTIONS") then pure Preflight
  else
    attempt
      (let! allPosts := forEachFeed RSS_FEEDS [] in
       let! h := askHost in
       let allPosts := arraySort (byDateDesc (calendar h)) allPosts in
       let! lastUpdated := now in
       pure (Success allPosts (length allPosts) lastUpdated))
      (λ error, pure (Failure error)).

(** The requests and the waits among some events. *)
Definition requests (events : list Event) : list string :=
  omap (λ e, if e is Request url then Some url else None) events.

Definition waits (events : list Event) : list Z :=
  omap (λ e, if e is Wait ms then Some ms else None) events.

(** The text [parseRSSItem] works on, and the items it keeps: those with at
    least ten code units of content and, when they carry a date, one that
    can be parsed. *)
Definition itemContent (item : Item) : jsstring :=
  cleanContent (orElse (default [] (description item)) (default [] (title item))).

Definition kept (h : Host) (item : Item) : bool :=
  (10 <=? length (itemContent item))%nat
  && (negb (truthy (default [] (pubDate item)))
      || bool_decide (is_Some (dateParse (calendar h) (default [] (pubDate item))))).

End FeedFunction.

(** ** A feed for the examples *)

Definition item_of (text : string) (pubDate : option string) : FeedFunction.Item :=
  {| FeedFunction.title := Some (js text);
     FeedFunction.description := None;
     FeedFunction.link := Some ([], Some (js "https://example.org/post"));
     FeedFunction.pubDate := js <$> pubDate |}.

(** Four items: a dated one, one that is too short, one whose date cannot be
    read, and one without a date. *)
Definition feed_items : list FeedFunction.Item :=
  [ item_of "<p>Metro hattı açıldı, yeni bir dönem başlıyor.</p>" (Some "2025-01-15 10:00");
    item_of "Kısa" None;
    item_of "Tarihi okunamayan bir duyuru metni." (Some "yesterday");
    item_of "Parklar &amp; bahçeler yenileniyor." None ]%string.

Definition feedHost (respond : nat → string → FeedFunction.FetchResult) : FeedFunction.Host :=
  {| FeedFunction.calendar := offline t0;
     FeedFunction.respond := respond;
     FeedFunction.parseFromString := λ _, FeedFunction.Document feed_items;
     FeedFunction.randomEngagement := λ _ _ _, {| likes := 0; shares := 0; comments := 0 |} |}.

(** A feed that answers, one whose first two interactions fail, and one that
    is down. *)
Definition feed_up : nat → string → FeedFunction.FetchResult :=
  λ _ _, FeedFunction.Responded true 200 (Some (js "<rss/>")).

Definition feed_flaky : nat → string → FeedFunction.FetchResult :=
  λ n _, if (n <? 3)%nat then FeedFunction.Aborted
         else FeedFunction.Responded true 200 (Some (js "<rss/>")).

Definition feed_down : nat → string → FeedFunction.FetchResult :=
  λ _ _, FeedFunction.Responded false 503 None.

(** * The Twitter function (unnamed/part_002) *)

(** The objects the function reads from the API answers, with the fields it
    uses; a missing field is [None]. *)
Module PublicMetrics.
Record t := {
  retweet_count : option Z;
  like_count : option Z;
  reply_count : option Z;
  quote_count : option Z
}.
End PublicMetrics.

Module Tweet.
Record t := {
  id : jsstring;
  text : jsstring;
  created_at : jsstring;
  public_metrics : option PublicMetrics.t;
  lang : option jsstring;
  context_annotations : option (list (option jsstring))
}.
End Tweet.

Module UserInfo.
Record t := {
  username : jsstring;
  name : jsstring;
  verified : option bool
}.
End UserInfo.

(** [/c\w+/] for a character [c]: [/@\w+/] and [/#\w+/]. *)
Definition rx_sigil (sigil : N) (s : jsstring) : option nat :=
  match s with
  | c :: r =>
    if c =? sigil then
      match spanLength isWordChar r with
      | O => None
      | n => Some (S n)
      end
    else None
  | [] => None
  end.

(** [/https?:\/\/[^\s]+/]. *)
Definition rx_url (s : jsstring) : option nat :=
  let rest (scheme : nat) :=
    match spanLength (λ c, negb (isWhiteSpace c)) (drop scheme s) with
    | O => None
    | n => Some (scheme + n)%nat
    end in
  if startsWith (js "https://") s then rest 8%nat
  else if startsWith (js "http://") s then rest 7%nat
  else None.

Definition ch_at : N := 64.         (* '@' *)

(** No code unit of [s] in the class [sigils] is followed by a word
    character; [sigilFree]: no '@' and no '#' is. *)
Fixpoint noSigil (sigils : N → bool) (s : jsstring) : bool :=
  match s with
  | [] => true
  | c :: r =>
    negb (sigils c && match r with
                      | d :: _ => isWordChar d
                      | [] => false
                      end)
    && noSigil sigils r
  end.

Definition sigilFree (s : jsstring) : bool :=
  noSigil (λ c, (c =? ch_at) || (c =? ch_hash)) s.

Module TwitterFunction.

(** The text [generateSummary] summarizes. *)
Definition cleanText (text : jsstring) : jsstring :=
  trim (replaceAll (rx_sigil ch_hash) []
          (replaceAll (rx_sigil ch_at) []
             (replaceAll rx_url [] text))).

Definition generateSummary (text : jsstring) : jsstring :=
  let cleanText := cleanText text in
  let sentences := split rx_terminators cleanText in
  let firstSentence := trim <$> sentences !! 0%nat in
  let rest := substring0 120 cleanText ++ js "..." in
  match firstSentence with
  | Some firstSentence =>
    if truthy firstSentence && (20 <? length firstSentence)%nat
       && (length firstSentence <=? 150)%nat
    then firstSentence ++ js "."
    else rest
  | None => rest
  end.

(** The two kinds of request. *)
Inductive Url :=
| UserByUsername (username : jsstring)
| UserTweets (userId : jsstring).

(** What [response.json()] gives: [Unreadable] when it is rejected or gives
    [null]; otherwise what the function reads from the value: [data?.id],
    [data] when it is an array, and [includes?.users?.[0]]. *)
Inductive Body :=
| Unreadable
| Parsed (userId : option jsstring) (data : option (list Tweet.t))
         (firstUser : option UserInfo.t).

Record Response := { ok : bool; status : Z; body : Body }.

(** The host: [bearerToken] is the environment variable, [respond] answers
    the n-th interaction ([None]: the request is rejected). *)
Record Host := {
  calendar : World;
  bearerToken : option jsstring;
  respond : nat → Url → option Response
}.

Inductive Event :=
| Request (url : Url)
| Now.

Inductive Error :=
| NoToken                 (* 'Twitter Bearer Token not configured' *)
| FetchRejected
| JsonError
| RangeError.             (* [toISOString] of an invalid date *)

(** The array [allPosts], which the loops fill in place, and the
    interactions so far. *)
Record State := { allPosts : list SocialMediaPost; trace : list Event }.

Inductive Result (A : Type) :=
| Done (a : A)
| Raised (e : Error).
Arguments Done {A} a.
Arguments Raised {A} e.

Definition Prog (A : Type) : Type := Host → State → Result A * State.

Definition pure {A} (a : A) : Prog A := λ _ st, (Done a, st).

Definition andThen {A B} (c : Prog A) (k : A → Prog B) : Prog B :=
  λ h st, match c h st with
          | (Done a, st') => k a h st'
          | (Raised e, st') => (Raised e, st')
          end.

Definition raise {A} (e : Error) : Prog A := λ _ st, (Raised e, st).

(** [try { c } catch (error) { handler }]. *)
Definition attempt {A} (c : Prog A) (handler : Error → Prog A) : Prog A :=
  λ h st, match c h st with
          | (Done a, st') => (Done a, st')
          | (Raised e, st') => handler e h st'
          end.

Declare Scope twitter_scope.
Delimit Scope twitter_scope with twitter.
Bind Scope twitter_scope with Prog.
Notation "'let!' x := c 'in' k" := (andThen c (λ x, k))
  (at level 10, x pattern, c at level 100, k at level 200, only parsing) : twitter_scope.
Local Open Scope twitter_scope.

Definition askHost : Prog Host := λ h st, (Done h, st).

(** [Date.now()], here through [new Date()]. *)
Definition now : Prog Z :=
  λ h st, (Done (clock (calendar h) (length (trace st))),
           {| allPosts := allPosts st; trace := trace st ++ [Now] |}).

(** [await fetch(url, ...)]. *)
Definition fetchUrl (url : Url) : Prog Response :=
  λ h st,
    let st' := {| allPosts := allPosts st; trace := trace st ++ [Request url] |} in
    match respond h (length (trace st)) url with
    | Some response => (Done response, st')
    | None => (Raised FetchRejected, st')
    end.

(** [allPosts.push(post)]. *)
Definition push (post : SocialMediaPost) : Prog unit :=
  λ _ st, (Done (), {| allPosts := allPosts st ++ [post]; trace := trace st |}).

Definition getPosts : Prog (list SocialMediaPost) := λ _ st, (Done (allPosts st), st).

Definition setPosts (posts : list SocialMediaPost) : Prog unit :=
  λ _ st, (Done (), {| allPosts := posts; trace := trace st |}).

(** [count || 0] for a count of the metrics. *)
Definition metric (field : PublicMetrics.t → option Z) (metrics : option PublicMetrics.t) : Z :=
  default 0%Z (metrics ≫= field).

(** The object literal [post], for a tweet whose date is [instant]. *)
Definition postOf (h : Host) (userInfo : UserInfo.t) (tweet : Tweet.t) (instant : Z)
    : SocialMediaPost :=
  {| id := js "twitter_" ++ Tweet.id tweet;
     content := Tweet.text tweet;
     summary := generateSummary (Tweet.text tweet);
     platform := twitter;
     date := isoDate (calendar h) instant;
     time := localTime (calendar h) instant;
     url := Some (js "https://twitter.com/" ++ UserInfo.username userInfo
                  ++ js "/status/" ++ Tweet.id tweet);
     engagement :=
       {| likes := metric PublicMetrics.like_count (Tweet.public_metrics tweet);
          shares := (metric PublicMetrics.retweet_count (Tweet.public_metrics tweet)
                     + metric PublicMetrics.quote_count (Tweet.public_metrics tweet))%Z;
          comments := metric PublicMetrics.reply_count (Tweet.public_metrics tweet) |};
     tags := TwitterData.extractTags (Tweet.text tweet) (Tweet.context_annotations tweet);
     category := Some (FunctionCategories.categorizeContent (Tweet.text tweet));
     imageUrl := None;
     author := Some {| username := UserInfo.username userInfo;
                       name := UserInfo.name userInfo;
                       verified := default false (UserInfo.verified userInfo) |} |}.

(** The tweets the loop does not skip: those without a language other than
    Turkish that are no retweets. *)
Definition wanted (tweet : Tweet.t) : bool :=
  negb (match Tweet.lang tweet with
        | Some lang => truthy lang && negb (bool_decide (lang = js "tr"))
        | None => false
        end)
  && negb (startsWith (js "RT @") (Tweet.text tweet)).

(** [for (const tweet of tweetsData.data) ...]. *)
Fixpoint forEachTweet (userInfo : UserInfo.t) (tweets : list Tweet.t) : Prog unit :=
  match tweets with
  | [] => pure ()
  | tweet :: rest =>
    let! _ :=
      if negb (wanted tweet) then pure ()
      else
        let! h := askHost in
        match dateParse (calendar h) (Tweet.created_at tweet) with
        | None => raise RangeError
        | Some instant => push (postOf h userInfo tweet instant)
        end in
    forEachTweet userInfo rest
  end.

(** The body of the [try] for one account. *)
Definition fetchAccount (username : jsstring) : Prog unit :=
  let! userResponse := fetchUrl (UserByUsername username) in
  if negb (ok userResponse) then pure ()
  else
    match body userResponse with
    | Unreadable => raise JsonError
    | Parsed userId _ _ =>
      if negb (truthy (default [] userId)) then pure ()
      else
        let! tweetsResponse := fetchUrl (UserTweets (default [] userId)) in
        if negb (ok tweetsResponse) then pure ()
        else
          match body tweetsResponse with
          | Unreadable => raise JsonError
          | Parsed _ data firstUser =>
            match data with
            | Some tweets =>
              let userInfo :=
                default {| UserInfo.username := username;
                           UserInfo.name := username;
                           UserInfo.verified := None |} firstUser in
              forEachTweet userInfo tweets
            | None => pure ()
            end
          end
    end.

Definition accounts : list jsstring := [js "CBAdayOfisi"; js "imamoglu_int"].

(** [for (const username of accounts) { try { ... } catch (error) { ... } }]. *)
Fixpoint forEachAccount (accounts : list jsstring) : Prog unit :=
  match accounts with
  | [] => pure ()
  | username :: rest =>
    let! _ := attempt (fetchAccount username) (λ error, pure ()) in
    forEachAccount rest
  end.

(** The answers of the handler: the preflight answer, the answer with the
    posts ([lastUpdated] is the instant whose ISO string is sent), and the
    answer with status 500 and [data: []]. *)
Inductive Reply :=
| Preflight
| Success (data : list SocialMediaPost) (count : nat) (lastUpdated : Z)
| Failure (error : Error).

Definition serve (method : jsstring) : Prog Reply :=
  if bool_decide (method = js "OPTIONS") then pure Preflight
  else
    attempt
      (let! h := askHost in
       if negb (truthy (default [] (bearerToken h))) then raise NoToken
       else
         let! _ := setPosts [] in
         let! _ := forEachAccount accounts in
         let! posts := getPosts in
         let! _ := setPosts (arraySort (byDateDesc (calendar h)) posts) in
         let! allPosts := getPosts in
         let! lastUpdated := now in
         pure (Success allPosts (length allPosts) lastUpdated))
      (λ error, pure (Failure error)).

Definition requests (events : list Event) : list Url :=
  omap (λ e, if e is Request url then Some url else None) events.

(** The tweets of an answer that become posts: the wanted ones up to the
    first whose date cannot be read. *)
Definition dated (h : Host) (tweet : Tweet.t) : bool :=
  bool_decide (is_Some (dateParse (calendar h) (Tweet.created_at tweet))).

Fixpoint accepted (h : Host) (tweets : list Tweet.t) : list Tweet.t :=
  match tweets with
  | [] => []
  | tweet :: rest =>
    if wanted tweet
    then if dated h tweet then tweet :: accepted h rest else []
    else accepted h rest
  end.

(** The posts made of tweets, for those whose date can be read. *)
Definition postsOf (h : Host) (userInfo : UserInfo.t) (tweets : list Tweet.t)
    : list SocialMediaPost :=
  omap (λ tweet, postOf h userInfo tweet <$> dateParse (calendar h) (Tweet.created_at tweet))
       tweets.

(** What the API answers for an account when the first request is the
    interaction number [n]: the user and the tweets, when both requests are
    answered with an ok response, the first one carrying a user id and the
    second one an array of tweets. *)
Definition answered (h : Host) (n : nat) (username : jsstring)
    : option (UserInfo.t * list Tweet.t) :=
  match respond h n (UserByUsername username) with
  | Some {| ok := true; body := Parsed (Some userId) _ _ |} =>
    if truthy userId then
      match respond h (S n) (UserTweets userId) with
      | Some {| ok := true; body := Parsed _ (Some tweets) firstUser |} =>
        Some (default {| UserInfo.username := username;
                         UserInfo.name := username;
                         UserInfo.verified := None |} firstUser, tweets)
      | _ => None
      end
    else None
  | _ => None
  end.

End TwitterFunction.

(** ** Tweets for the examples *)

Definition tweet_of (i text created lang : string) : Tweet.t :=
  {| Tweet.id := js i;
     Tweet.text := js text;
     Tweet.created_at := js created;
     Tweet.public_metrics :=
       Some {| PublicMetrics.retweet_count := Some 3%Z;
               PublicMetrics.like_count := Some 10%Z;
               PublicMetrics.reply_count := None;
               PublicMetrics.quote_count := Some 2%Z |};
     Tweet.lang := Some (js lang);
     Tweet.context_annotations := None |}.

(** A Turkish tweet, an English one, a retweet, a tweet whose date cannot be
    read and a Turkish tweet after it. *)
Definition example_tweets : list Tweet.t :=
  [ tweet_of "1" "Yeni metro hattını bugün hizmete açıyoruz, hayırlı olsun." "2025-01-15 10:00" "tr";
    tweet_of "2" "A new metro line opens today." "2025-01-15 11:00" "en";
    tweet_of "3" "RT @ibb: Metro açıldı" "2025-01-15 12:00" "tr";
    tweet_of "4" "Tarihi bozuk bir gönderi daha burada." "soon" "tr";
    tweet_of "5" "Parklarımızı yeniliyoruz, herkesi bekleriz." "2025-01-16 09:00" "tr" ]%string.

Definition twitterHost (token : option jsstring) : TwitterFunction.Host :=
  {| TwitterFunction.calendar := offline t0;
     TwitterFunction.bearerToken := token;
     TwitterFunction.respond := λ _ url,
       match url with
       | TwitterFunction.UserByUsername username =>
         if bool_decide (username = js "CBAdayOfisi")
         then Some {| TwitterFunction.ok := true; TwitterFunction.status := 200;
                      TwitterFunction.body := TwitterFunction.Parsed (Some (js "42")) None None |}
         else Some {| TwitterFunction.ok := false; TwitterFunction.status := 404;
                      TwitterFunction.body := TwitterFunction.Unreadable |}
       | TwitterFunction.UserTweets _ =>
         Some {| TwitterFunction.ok := true; TwitterFunction.status := 200;
                 TwitterFunction.body :=
                   TwitterFunction.Parsed None (Some example_tweets) None |}
       end |}.
(** * Proofs *)

Local Close Scope N_scope.

(** ** Strings *)

Lemma trimStart_suffix s : ∃ a, s = a ++ trimStart s.
Proof.
  induction s as [|c s [a IH]]; [by exists []|].
  simpl. destruct (isWhiteSpace c).
  - exists (c :: a). by rewrite <- app_comm_cons, <- IH.
  - by exists [].
Qed.

Lemma trimEnd_prefix s : ∃ b, s = trimEnd s ++ b.
Proof.
  induction s as [|c s [b IH]]; [by exists []|].
  simpl. destruct (trimEnd s) as [|d t] eqn:E.
  - destruct (isWhiteSpace c); [by exists (c :: s)|by exists s].
  - exists b. by rewrite <- app_comm_cons, <- IH.
Qed.

Lemma trimStart_startsClean s : startsClean (trimStart s).
Proof.
  induction s as [|c s IH]; intros d; simpl; [done|].
  destruct (isWhiteSpace c) eqn:E; [apply IH|].
  simpl. by intros [= <-].
Qed.

Lemma trimEnd_endsClean s : endsClean (trimEnd s).
Proof.
  induction s as [|c s IH]; intros d; simpl; [done|].
  destruct (trimEnd s) as [|e t] eqn:E.
  - destruct (isWhiteSpace c) eqn:W; simpl; [done|]. by intros [= <-].
  - rewrite last_cons_cons. apply IH.
Qed.

Lemma trimEnd_head s c : head (trimEnd s) = Some c → head s = Some c.
Proof.
  destruct (trimEnd_prefix s) as [b E]. intros H.
  rewrite E. destruct (trimEnd s); [done|]. by simpl in *.
Qed.

Lemma trim_startsClean s : startsClean (trim s).
Proof.
  intros c H. apply trimEnd_head in H. by apply (trimStart_startsClean s).
Qed.

Lemma trim_endsClean s : endsClean (trim s).
Proof. apply trimEnd_endsClean. Qed.

Lemma trim_substring s : ∃ a b, s = a ++ trim s ++ b.
Proof.
  destruct (trimStart_suffix s) as [a Ha].
  destruct (trimEnd_prefix (trimStart s)) as [b Hb].
  exists a, b. unfold trim. by rewrite <- Hb.
Qed.

Lemma trimStart_blank s : Forall (λ c, isWhiteSpace c = true) s → trimStart s = [].
Proof. induction 1 as [|c s H _ IH]; simpl; [done|]. by rewrite H. Qed.

Lemma take_head {A} n (l : list A) c : head (take n l) = Some c → head l = Some c.
Proof. destruct n, l; simpl; done. Qed.

(** ** Scanning with a global regular expression *)

Lemma scan_skip rx k s : scan rx k s = scan rx 0 (drop k s).
Proof.
  revert k. induction s as [|c s IH]; intros [|k]; simpl; auto.
Qed.

Lemma replaceAll_cons rx repl c s :
  replaceAll rx repl (c :: s) =
  match rx (c :: s) with
  | Some (S k) => repl ++ replaceAll rx repl (drop k s)
  | _ => c :: replaceAll rx repl s
  end.
Proof.
  unfold replaceAll. simpl.
  destruct (rx (c :: s)) as [[|k]|]; simpl; try done.
  by rewrite scan_skip.
Qed.

Lemma indexWhere_None f s : indexWhere f s = None → Forall (λ c, f c = false) s.
Proof.
  induction s as [|c s IH]; simpl; [constructor|].
  destruct (f c) eqn:E; [done|].
  destruct (indexWhere f s); [done|]. constructor; auto.
Qed.

Lemma spanLength_drop f s :
  ∀ c, head (drop (spanLength f s) s) = Some c → f c = false.
Proof.
  induction s as [|d s IH]; simpl; [done|].
  destruct (f d) eqn:E; simpl; [apply IH|]. by intros c [= <-].
Qed.

(** ** cleanContent *)

Lemma Erases_sublist out s : out `sublist_of` s → Erases out s.
Proof. induction 1; constructor; done. Qed.

Lemma Erases_app_plain repl out s :
  Forall (λ c, isPlain c = true) repl → Erases out s → Erases (repl ++ out) s.
Proof. induction 1; simpl; [done|]. intros. apply erases_insert; auto. Qed.

Lemma Erases_replaceAll rx repl s :
  Forall (λ c, isPlain c = true) repl → Erases (replaceAll rx repl s) s.
Proof.
  intros Hr. unfold replaceAll. generalize 0%nat.
  induction s as [|c s IH]; intros k; simpl; [constructor|].
  destruct k as [|k].
  - destruct (rx (c :: s)) as [[|n]|]; simpl.
    + by apply erases_keep.
    + apply Erases_app_plain; [done|]. by apply erases_drop.
    + by apply erases_keep.
  - by apply erases_drop.
Qed.

Lemma Erases_gt out s : Erases out s → ch_gt ∈ out → ch_gt ∈ s.
Proof.
  induction 1 as [|c out s _ IH|c out s _ IH|c out s Hc _ IH]; [done|..].
  - rewrite !elem_of_cons. intros [?|?]; auto.
  - rewrite elem_of_cons. auto.
  - rewrite elem_of_cons. intros [<-|]; [by vm_compute in Hc|auto].
Qed.

Lemma tagFree_Erases out s : Erases out s → tagFree s = true → tagFree out = true.
Proof.
  induction 1 as [|c out s He IH|c out s He IH|c out s Hc He IH]; simpl; [done|..].
  - intros [H1 H2]%andb_true_iff. rewrite IH by done. rewrite andb_true_r.
    destruct (c =? ch_lt)%N; simpl in *; [|done].
    apply negb_true_iff, bool_decide_eq_false in H1.
    apply negb_true_iff, bool_decide_eq_false. intros ?. by apply H1, (Erases_gt out).
  - intros [_ H2]%andb_true_iff. auto.
  - intros H. rewrite IH by done. rewrite andb_true_r.
    unfold isPlain in Hc. apply andb_true_iff in Hc as [-> _]. done.
Qed.

Lemma tagFree_stripped s : tagFree (replaceAll rx_tag [] s) = true.
Proof.
  unfold replaceAll. generalize 0%nat.
  induction s as [|c s IH]; intros k; simpl; [done|].
  destruct k as [|k]; [|apply IH].
  destruct (c =? ch_lt)%N eqn:E.
  - destruct (indexWhere (N.eqb ch_gt) s) as [i|] eqn:Ei; simpl; [apply IH|].
    rewrite IH, andb_true_r, E. simpl.
    apply negb_true_iff, bool_decide_eq_false. intros Hin.
    apply (Erases_gt _ s) in Hin; [|by apply (Erases_replaceAll rx_tag [] s)].
    apply indexWhere_None in Ei. rewrite Forall_forall in Ei.
    specialize (Ei _ Hin). by rewrite N.eqb_refl in Ei.
  - simpl. by rewrite IH, E.
Qed.

Lemma tagFree_no_markup s :
  tagFree s = true → ∀ a t b, s ≠ a ++ [ch_lt] ++ t ++ [ch_gt] ++ b.
Proof.
  induction s as [|c s IH]; intros H a t b E.
  - by destruct a.
  - simpl in H. apply andb_true_iff in H as [H1 H2].
    destruct a as [|x a]; simpl in E; injection E as -> ->.
    + simpl in H1. apply negb_true_iff, bool_decide_eq_false in H1.
      apply H1. set_solver.
    + by apply (IH H2 a t b).
Qed.

Lemma singleSpaced_app_l a b : singleSpaced (a ++ b) = true → singleSpaced a = true.
Proof.
  induction a as [|x a IH]; [done|].
  destruct a as [|y a]; [done|].
  simpl in *. intros [-> H]%andb_true_iff. simpl. auto.
Qed.

Lemma singleSpaced_app_r a b : singleSpaced (a ++ b) = true → singleSpaced b = true.
Proof.
  induction a as [|x a IH]; [done|].
  destruct a as [|y a]; simpl in *.
  - destruct b; [done|]. by intros [_ H]%andb_true_iff.
  - intros [_ H]%andb_true_iff. auto.
Qed.

Lemma singleSpaced_no_pair s :
  singleSpaced s = true →
  ∀ a x y b, s = a ++ x :: y :: b → ¬ (isWhiteSpace x = true ∧ isWhiteSpace y = true).
Proof.
  intros H a x y b -> [Hx Hy].
  apply singleSpaced_app_r in H. simpl in H. by rewrite Hx, Hy in H.
Qed.

(** After the replacement of [\s+] no two white-space code units are
    adjacent, and the text starts with white space only if the subject did. *)
Lemma collapse_singleSpaced n : ∀ s, length s ≤ n →
  singleSpaced (replaceAll rx_spaces [ch_space] s) = true
  ∧ (startsClean s → startsClean (replaceAll rx_spaces [ch_space] s)).
Proof.
  induction n as [|n IH]; intros [|c s] Hn; simpl in Hn; try done; try lia.
  rewrite replaceAll_cons. unfold rx_spaces. simpl.
  destruct (isWhiteSpace c) eqn:W.
  - assert (length (drop (spanLength isWhiteSpace s) s) ≤ n) as Hl
      by (rewrite length_drop; lia).
    destruct (IH _ Hl) as [H1 H2]. split.
    + simpl. destruct (replaceAll _ _ (drop _ s)) as [|y r] eqn:E; [done|].
      rewrite H1, andb_true_r. simpl.
      rewrite (H2 (spanLength_drop _ s) y); done.
    + intros H. by rewrite (H c) in W.
  - destruct (IH s ltac:(lia)) as [H1 H2]. split.
    + simpl. destruct (replaceAll _ _ s) as [|y r] eqn:E; [done|].
      by rewrite W, H1.
    + intros _ d [= <-]. done.
Qed.

Lemma collapsed_singleSpaced s : singleSpaced (replaceAll rx_spaces [ch_space] s) = true.
Proof. by destruct (collapse_singleSpaced (length s) s). Qed.

Lemma cleanContent_unfold content :
  ∃ a b text,
    replaceAll rx_spaces [ch_space]
      (replaceAll rx_entity [ch_space] (replaceAll rx_tag [] content)) = a ++ text ++ b
    ∧ text = trim (a ++ text ++ b)
    ∧ cleanContent content = take 500 text.
Proof.
  pose proof (trim_substring (replaceAll rx_spaces [ch_space]
      (replaceAll rx_entity [ch_space] (replaceAll rx_tag [] content)))) as (a & b & E).
  eexists a, b, _. split; [exact E|]. split; [by rewrite <- E|done].
Qed.

Lemma cleanContent_length content : length (cleanContent content) ≤ 500.
Proof. unfold cleanContent, substring0. rewrite length_take. lia. Qed.

Lemma cleanContent_tagFree content : tagFree (cleanContent content) = true.
Proof.
  unfold cleanContent, substring0.
  set (e := replaceAll rx_entity [ch_space] (replaceAll rx_tag [] content)).
  set (x := replaceAll rx_spaces [ch_space] e).
  apply (tagFree_Erases _ (trim x)); [apply Erases_sublist, sublist_take|].
  destruct (trim_substring x) as (a & b & E).
  apply (tagFree_Erases _ x).
  { apply Erases_sublist. rewrite E at 2.
    apply sublist_inserts_l, sublist_inserts_r. done. }
  apply (tagFree_Erases _ e).
  { apply (Erases_replaceAll rx_spaces [ch_space]). by repeat constructor. }
  apply (tagFree_Erases _ (replaceAll rx_tag [] content)).
  { apply (Erases_replaceAll rx_entity [ch_space]). by repeat constructor. }
  apply tagFree_stripped.
Qed.

Lemma cleanContent_singleSpaced content : singleSpaced (cleanContent content) = true.
Proof.
  destruct (cleanContent_unfold content) as (a & b & text & E & _ & ->).
  pose proof (collapsed_singleSpaced
    (replaceAll rx_entity [ch_space] (replaceAll rx_tag [] content))) as H.
  rewrite E in H. apply singleSpaced_app_r, singleSpaced_app_l in H.
  rewrite <- (take_drop 500 text) in H. by apply singleSpaced_app_l in H.
Qed.

Lemma cleanContent_startsClean content : startsClean (cleanContent content).
Proof.
  intros c H. unfold cleanContent, substring0 in H.
  apply take_head in H. by apply trim_startsClean in H.
Qed.

Lemma cleanContent_endsClean content :
  length (cleanContent content) < 500 → endsClean (cleanContent content).
Proof.
  unfold cleanContent, substring0. intros H.
  rewrite length_take in H. rewrite take_ge by lia. apply trim_endsClean.
Qed.

(** ** cleanContent: the claim *)

(** C5 (amended): for every input, [cleanContent] returns at most 500 code
    units, with no substring that starts with '<' and ends with '>', no two
    adjacent white-space code units (so no run of two or more spaces), and
    no leading white space; it is the prefix of 500 code units of a text
    that neither starts nor ends with white space, so it has no trailing
    white space either whenever it is shorter than 500 code units, that is,
    whenever the truncation that follows the trim did not cut the text. *)
Theorem cleanContent_normalized (content : jsstring) :
  let out := cleanContent content in
  length out ≤ 500
  ∧ (∀ a t b, out ≠ a ++ [ch_lt] ++ t ++ [ch_gt] ++ b)
  ∧ (∀ a x y b, out = a ++ x :: y :: b →
       ¬ (isWhiteSpace x = true ∧ isWhiteSpace y = true))
  ∧ startsClean out
  ∧ (∃ text, out = take 500 text ∧ startsClean text ∧ endsClean text)
  ∧ (length out < 500 → endsClean out).
Proof.
  split; [apply cleanContent_length|].
  split; [apply tagFree_no_markup, cleanContent_tagFree|].
  split; [apply singleSpaced_no_pair, cleanContent_singleSpaced|].
  split; [apply cleanContent_startsClean|].
  split; [|apply cleanContent_endsClean].
  eexists. split; [reflexivity|]. split; [apply trim_startsClean|apply trim_endsClean].
Qed.

Lemma cleanContent_normalized_witness :
  length (cleanContent (js "<p>Merhaba &amp;  dünya</p> ")) < 500
  ∧ endsClean (cleanContent (js "<p>Merhaba &amp;  dünya</p> ")).
Proof.
  split; [vm_compute; lia|].
  apply (cleanContent_normalized (js "<p>Merhaba &amp;  dünya</p> ")).
  vm_compute; lia.
Defined.

(** C5 as stated fails: truncation comes after the trim, so the 500th code
    unit of the trimmed text can be a space, and the result then ends with
    white space. *)
Lemma cleanContent_trailing_space : ¬ endsClean (cleanContent long_input).
Proof.
  intros H. specialize (H ch_space).
  assert (last (cleanContent long_input) = Some ch_space) as E by (vm_compute; reflexivity).
  specialize (H E). vm_compute in H. discriminate H.
Qed.

(** ** generateSummary *)

Lemma segments_first ps : ∃ seg rest, segments ps = seg :: rest.
Proof.
  induction ps as [|[c|m] ps (seg & rest & IH)]; simpl; eauto.
  rewrite IH. eauto.
Qed.

Lemma split_first content :
  split rx_terminators content !! 0 =
  Some (take (spanLength (λ c, negb (isTerminator c)) content) content).
Proof.
  unfold split. induction content as [|c s IH]; [done|].
  simpl scan.
  assert (rx_terminators (c :: s) =
          if isTerminator c then Some (S (spanLength isTerminator s)) else None) as ->
    by (unfold rx_terminators; simpl; by destruct (isTerminator c)).
  simpl spanLength. destruct (isTerminator c) eqn:E; simpl; [done|].
  destruct (segments_first (scan rx_terminators 0 s)) as (seg & rest & Hs).
  rewrite Hs in IH |- *. simpl in *. congruence.
Qed.

Lemma truthy_length s : truthy s = (0 <? length s).
Proof. by destruct s. Qed.


(** ** The query layer *)

Lemma filter_sublist {A} (f : A → bool) (l : list A) : List.filter f l `sublist_of` l.
Proof.
  induction l as [|x l IH]; simpl; [constructor|].
  destruct (f x); by constructor.
Qed.

Lemma elem_of_filter {A} (f : A → bool) (l : list A) x :
  x ∈ List.filter f l ↔ x ∈ l ∧ f x = true.
Proof. rewrite !list_elem_of_In. apply filter_In. Qed.

(** C9: with an empty query, or one of white space only, [searchPosts]
    returns the post list it was given. *)
Theorem searchPosts_blank_query (posts : list SocialMediaPost) (query : jsstring) :
  Forall (λ c, isWhiteSpace c = true) query → searchPosts posts query = posts.
Proof.
  intros H. unfold searchPosts, trim. by rewrite trimStart_blank.
Qed.

Lemma searchPosts_blank_query_witness :
  Forall (λ c, isWhiteSpace c = true) (js "  ")
  ∧ searchPosts [post_jan; post_feb] (js "  ") = [post_jan; post_feb].
Proof.
  assert (Forall (λ c, isWhiteSpace c = true) (js "  ")) as H
    by (repeat constructor).
  split; [exact H|]. exact (searchPosts_blank_query [post_jan; post_feb] (js "  ") H).
Defined.

(** C10: [searchPosts] and [filterPosts] return a subsequence of the post
    list: posts of the input, in their order, none repeated or made up.
    Both are functions of their arguments and leave them as they are. *)
Theorem query_results_sublist (posts : list SocialMediaPost) (query : jsstring)
    (filters : SearchFilters.t) :
  searchPosts posts query `sublist_of` posts
  ∧ filterPosts posts filters `sublist_of` posts.
Proof.
  split.
  - unfold searchPosts. destruct (negb _); [done|apply filter_sublist].
  - apply filter_sublist.
Qed.

Lemma startsWith_spec p s : startsWith p s = true ↔ ∃ b, s = p ++ b.
Proof.
  revert s. induction p as [|x p IH]; intros s; simpl.
  - split; [by exists s|done].
  - destruct s as [|y s]; [split; [done|by intros [b ?]]|].
    rewrite andb_true_iff, N.eqb_eq, IH. split.
    + intros [-> [b ->]]. by exists b.
    + intros [b [= -> ->]]. eauto.
Qed.

Lemma includes_spec s p : includes s p = true ↔ ∃ a b, s = a ++ p ++ b.
Proof.
  induction s as [|c s IH]; simpl; rewrite orb_true_iff, startsWith_spec.
  - split.
    + intros [[b ->]|?]; [by exists [], b|done].
    + intros (a & b & E). left. exists b. destruct a; [done|discriminate].
  - rewrite IH. split.
    + intros [[b ->]|(a & b & ->)]; [by exists [], b|by exists (c :: a), b].
    + intros ([|x a] & b & E); [left; by exists b|right].
      injection E as -> ->. eauto.
Qed.

Lemma str_lt_lex a b : str_lt a b = false ↔ lex_le b a.
Proof.
  revert b. induction a as [|x a IH]; intros [|y b]; simpl.
  - split; [constructor|done].
  - split; [done|inversion 1].
  - split; [constructor|done].
  - rewrite orb_false_iff, andb_false_iff, N.ltb_ge, N.eqb_neq, IH. split.
    + intros [Hle [Hne|Hl]].
      * apply lex_le_lt. lia.
      * destruct (decide (x = y)) as [->|]; [by apply lex_le_eq|apply lex_le_lt; lia].
    + inversion 1; subst; [split; [lia|left; lia]|split; [lia|by right]].
Qed.

Lemma truthy_nonempty v : truthy v = true ↔ v ≠ [].
Proof. by destruct v. Qed.

Lemma whenSet_true field test :
  whenSet field test = true ↔ ∃ v, given field v ∧ test v = true.
Proof.
  unfold whenSet, given. destruct field as [v|].
  - rewrite andb_true_iff, truthy_nonempty. split.
    + intros [? ?]. eauto.
    + intros (? & [[= <-] ?] & ?). done.
  - split; [done|]. by intros (? & [? ?] & ?).
Qed.

Lemma whenSet_false field test :
  whenSet field test = false ↔ ∀ v, given field v → test v = false.
Proof.
  rewrite <- not_true_iff_false, whenSet_true. split.
  - intros H v Hv. apply not_true_iff_false. eauto.
  - intros H (v & Hv & Ht). by rewrite (H v Hv) in Ht.
Qed.



(** An empty string in a filter field is no constraint. *)
Lemma filterPosts_empty_field (posts : list SocialMediaPost) :
  filterPosts posts
    {| SearchFilters.platform := Some []; SearchFilters.category := Some [];
       SearchFilters.dateFrom := Some []; SearchFilters.dateTo := Some [];
       SearchFilters.tags := Some [] |} = posts.
Proof. unfold filterPosts. simpl. induction posts; simpl; congruence. Qed.

(** The January example of the specification. *)
Example filterPosts_january :
  filterPosts [post_jan; post_feb; post_undated] filters_january = [post_jan].
Proof. vm_compute. reflexivity. Qed.

(** ** Source adapters *)

Lemma fetchRealTwitterData_run w m :
  Service.fetchRealTwitterData w m =
  (Returned (postsOf (network w (length (log m)) twitter_endpoint)),
   {| cache := cache m; log := log m ++ [Fetch twitter_endpoint] |}).
Proof.
  unfold Service.fetchRealTwitterData, try_catch, bind, fetch, json, throw, ret, postsOf.
  destruct (network w (length (log m)) twitter_endpoint) as [[[] st [|[] [posts|]]]|];
    reflexivity.
Qed.

Lemma fetchRealRSSFeeds_run w m :
  Service.fetchRealRSSFeeds w m =
  (Returned (postsOf (network w (length (log m)) rss_endpoint)),
   {| cache := cache m; log := log m ++ [Fetch rss_endpoint] |}).
Proof.
  unfold Service.fetchRealRSSFeeds, try_catch, bind, fetch, json, throw, ret, postsOf.
  destruct (network w (length (log m)) rss_endpoint) as [[[] st [|[] [posts|]]]|];
    reflexivity.
Qed.

Lemma Part001_fetchRealRSSFeeds_run w m :
  Part001.fetchRealRSSFeeds w m =
  (Returned (postsOf (network w (length (log m)) rss_endpoint)),
   {| cache := cache m; log := log m ++ [Fetch rss_endpoint] |}).
Proof.
  unfold Part001.fetchRealRSSFeeds, try_catch, bind, fetch, json, throw, ret, postsOf.
  destruct (network w (length (log m)) rss_endpoint) as [[[] st [|[] [posts|]]]|];
    reflexivity.
Qed.

(** Every way an adapter can fail ends in no posts: a rejected request, a
    status that is not a success, a body that is not JSON, a falsy
    [success], a [data] that is no array. *)
Lemma postsOf_failure st b success payload :
  postsOf None = []
  ∧ postsOf (Some {| ok := false; status := st; body := b |}) = []
  ∧ postsOf (Some {| ok := true; status := st; body := NotJson |}) = []
  ∧ postsOf (Some {| ok := true; status := st; body := Json false payload |}) = []
  ∧ postsOf (Some {| ok := true; status := st; body := Json success None |}) = [].
Proof. repeat split; try done. by destruct success. Qed.

(** ** Sorting *)

Lemma insertSorted_perm {A} (cmp : A → A → option Z) x l :
  insertSorted cmp x l ≡ₚ x :: l.
Proof.
  induction l as [|y l IH]; simpl; [done|].
  destruct (_ <? 0)%Z; [done|]. rewrite IH. apply perm_swap.
Qed.

Lemma arraySort_perm {A} (cmp : A → A → option Z) l : arraySort cmp l ≡ₚ l.
Proof.
  unfold arraySort.
  assert (∀ acc, foldl (λ acc x, insertSorted cmp x acc) acc l ≡ₚ acc ++ l) as H.
  { induction l as [|x l IH]; intros acc; simpl; [by rewrite app_nil_r|].
    rewrite IH, insertSorted_perm. by rewrite <- Permutation_middle. }
  apply H.
Qed.

Lemma notOlder_trans w a b c : notOlder w a b → notOlder w b c → notOlder w a c.
Proof.
  intros (ta & tb & Ha & Hb & H1) (tb' & tc & Hb' & Hc & H2).
  exists ta, tc. repeat split; try done. rewrite Hb in Hb'. injection Hb' as <-. lia.
Qed.

Lemma insertSorted_sorted w x l :
  is_Some (getTime w x) → Forall (λ p, is_Some (getTime w p)) l →
  StronglySorted (notOlder w) l →
  StronglySorted (notOlder w) (insertSorted (byDateDesc w) x l).
Proof.
  intros [tx Hx]. induction l as [|y l IH]; intros Hl Hs; simpl.
  - repeat constructor.
  - apply Forall_cons in Hl as [[ty Hy] Hl]. apply StronglySorted_inv in Hs as [Hs Hy'].
    unfold sortCompare, byDateDesc. rewrite Hx, Hy. simpl.
    destruct (Z.ltb_spec (ty - tx) 0).
    + constructor; [by constructor|]. constructor.
      * exists tx, ty. repeat split; try done. lia.
      * eapply Forall_impl; [exact Hy'|]. intros z Hz.
        apply (notOlder_trans w x y z); [|done]. exists tx, ty. repeat split; try done. lia.
    + constructor; [by apply IH|].
      rewrite insertSorted_perm. constructor; [|done].
      exists ty, tx. repeat split; try done. lia.
Qed.

Lemma arraySort_sorted w l :
  Forall (λ p, is_Some (getTime w p)) l →
  StronglySorted (notOlder w) (arraySort (byDateDesc w) l).
Proof.
  unfold arraySort.
  assert (∀ acc, Forall (λ p, is_Some (getTime w p)) acc →
                 StronglySorted (notOlder w) acc →
                 Forall (λ p, is_Some (getTime w p)) l →
                 StronglySorted (notOlder w)
                   (foldl (λ acc x, insertSorted (byDateDesc w) x acc) acc l)) as H.
  { induction l as [|x l IH]; intros acc Ha Hs Hl; simpl; [done|].
    apply Forall_cons in Hl as [Hx Hl]. apply IH; [|by apply insertSorted_sorted|done].
    rewrite insertSorted_perm. by constructor. }
  intros Hl. apply H; [constructor|constructor|done].
Qed.

Lemma stampedAt_app w t l1 l2 :
  stampedAt w t (l1 ++ l2) = stampedAt w t l1 ++ stampedAt w t l2.
Proof. apply List.filter_app. Qed.

Lemma stampedAt_none w t l :
  Forall (λ p, getTime w p ≠ Some t) l → stampedAt w t l = [].
Proof.
  induction 1 as [|p l Hp _ IH]; [done|].
  unfold stampedAt in *. simpl. by rewrite bool_decide_eq_false_2.
Qed.

(** The sort is stable: posts with one timestamp keep their order. *)
Lemma insertSorted_stable w t x l :
  is_Some (getTime w x) → Forall (λ p, is_Some (getTime w p)) l →
  StronglySorted (notOlder w) l →
  stampedAt w t (insertSorted (byDateDesc w) x l) = stampedAt w t l ++ stampedAt w t [x].
Proof.
  intros [tx Hx]. induction l as [|y l IH]; intros Hl Hs; [done|].
  apply Forall_cons in Hl as [[ty Hy] Hl]. apply StronglySorted_inv in Hs as [Hs Hy'].
  assert (sortCompare (byDateDesc w) x y = (ty - tx)%Z) as Hcmp
    by (unfold sortCompare, byDateDesc; by rewrite Hx, Hy).
  cbn [insertSorted]. rewrite Hcmp.
  destruct (Z.ltb_spec (ty - tx) 0).
  - change (x :: y :: l) with ([x] ++ y :: l). rewrite stampedAt_app.
    destruct (decide (tx = t)) as [<-|Hne].
    + rewrite (stampedAt_none w tx (y :: l)); [by rewrite app_nil_r|].
      constructor; [rewrite Hy; intros [= ->]; lia|].
      eapply Forall_impl; [exact Hy'|]. intros z (ty' & tz & Hy'' & Hz & Hle).
      rewrite Hy in Hy''. injection Hy'' as <-. rewrite Hz. intros [= ->]. lia.
    + rewrite (stampedAt_none w t [x]); [by rewrite app_nil_r|].
      constructor; [|done]. rewrite Hx. by intros [= ->].
  - change (y :: insertSorted (byDateDesc w) x l)
      with ([y] ++ insertSorted (byDateDesc w) x l).
    change (y :: l) with ([y] ++ l).
    rewrite !stampedAt_app, IH by done. by rewrite app_assoc.
Qed.

Lemma arraySort_stable w t l :
  Forall (λ p, is_Some (getTime w p)) l →
  stampedAt w t (arraySort (byDateDesc w) l) = stampedAt w t l.
Proof.
  unfold arraySort.
  assert (∀ acc, Forall (λ p, is_Some (getTime w p)) acc →
                 StronglySorted (notOlder w) acc →
                 Forall (λ p, is_Some (getTime w p)) l →
                 stampedAt w t (foldl (λ acc x, insertSorted (byDateDesc w) x acc) acc l)
                 = stampedAt w t acc ++ stampedAt w t l) as H.
  { induction l as [|x l IH]; intros acc Ha Hs Hl; cbn [foldl]; [by rewrite app_nil_r|].
    apply Forall_cons in Hl as [Hx Hl]. rewrite IH.
    - rewrite insertSorted_stable by done.
      change (x :: l) with ([x] ++ l). by rewrite stampedAt_app, app_assoc.
    - rewrite insertSorted_perm. by constructor.
    - by apply insertSorted_sorted.
    - done. }
  intros Hl. by rewrite H; [|constructor|constructor|].
Qed.

(** ** The aggregation cache *)

Section Aggregation.
Variables twitterData rssFeeds mockData : M (list SocialMediaPost).

Hypothesis twitter_run : ∀ w m,
  twitterData w m =
  (Returned (postsOf (network w (length (log m)) twitter_endpoint)),
   {| cache := cache m; log := log m ++ [Fetch twitter_endpoint] |}).

Hypothesis rss_run : ∀ w m,
  rssFeeds w m =
  (Returned (postsOf (network w (length (log m)) rss_endpoint)),
   {| cache := cache m; log := log m ++ [Fetch rss_endpoint] |}).

Let getAllPosts := getAllPostsOf twitterData rssFeeds mockData.

Lemma cache_hit_run w m entry :
  cache m !! "all_posts" = Some entry →
  (clock w (length (log m)) - timestamp entry < CACHE_DURATION)%Z →
  getAllPosts w m =
  (Returned (data entry), {| cache := cache m; log := log m ++ [ClockRead] |}).
Proof.
  intros Hc Hf. unfold getAllPosts, getAllPostsOf, bind, cacheGet, dateNow, ret.
  rewrite Hc. simpl. apply Z.ltb_lt in Hf. by rewrite Hf.
Qed.

(** What a refresh does, from the machine [m1] it starts in. *)
Lemma refresh_run w m m1 :
  stale w m →
  m1 = {| cache := cache m; log := log m ++ (if cache m !! "all_posts" is Some _ then [ClockRead] else []) |} →
  getAllPosts w m =
  let requests := log m1 ++ [Fetch twitter_endpoint; Fetch rss_endpoint] in
  match fetched w m with
  | [] =>
    match cache m !! "all_posts" with
    | Some entry => (Returned (data entry), {| cache := cache m; log := requests |})
    | None => mockData w {| cache := cache m; log := requests |}
    end
  | _ :: _ =>
    let sorted := arraySort (byDateDesc w) (fetched w m) in
    (Returned sorted,
     {| cache := <["all_posts" := {| data := sorted;
                                     timestamp := clock w (S (S (refreshStart m))) |}]> (cache m);
        log := requests ++ [ClockRead] |})
  end.
Proof.
  intros Hs ->. unfold fetched, refreshStart.
  unfold getAllPosts, getAllPostsOf, bind, cacheGet, dateNow, ret, try_catch, host, cacheSet.
  destruct (cache m !! "all_posts") as [entry|] eqn:Hc; simpl.
  - specialize (Hs entry Hc). apply Z.ltb_ge in Hs. rewrite Hs.
    rewrite twitter_run. simpl. rewrite !length_app. cbn [length].
    destruct (postsOf (network w (length (log m) + 1) twitter_endpoint)) as [|p t]; simpl; rewrite rss_run; simpl; rewrite !length_app; cbn [length];
      replace (length (log m) + 1 + 1) with (S (length (log m) + 1)) by lia;
      destruct (postsOf (network w (S (length (log m) + 1)) rss_endpoint)) as [|q r]; simpl; rewrite ?app_nil_r, ?length_app; cbn [length];
      rewrite <- ?app_assoc; simpl; repeat f_equal; lia.
  - rewrite app_nil_r, Nat.add_0_r.
    rewrite twitter_run. simpl.
    destruct (postsOf (network w (length (log m)) twitter_endpoint)) as [|p t]; simpl; rewrite rss_run; simpl; rewrite !length_app; cbn [length];
      replace (length (log m) + 1) with (S (length (log m))) by lia;
      destruct (postsOf (network w (S (length (log m))) rss_endpoint)) as [|q r]; simpl; rewrite ?app_nil_r, ?length_app; cbn [length];
      rewrite <- ?app_assoc; simpl; repeat f_equal; lia.
Qed.
End Aggregation.

Lemma Service_refresh_run w m :
  stale w m →
  Service.getAllPosts w m =
  let requests :=
    (log m ++ (if cache m !! "all_posts" is Some _ then [ClockRead] else []))
    ++ [Fetch twitter_endpoint; Fetch rss_endpoint] in
  match fetched w m with
  | [] =>
    match cache m !! "all_posts" with
    | Some entry => (Returned (data entry), {| cache := cache m; log := requests |})
    | None => Service.getMockData w {| cache := cache m; log := requests |}
    end
  | _ :: _ =>
    let sorted := arraySort (byDateDesc w) (fetched w m) in
    (Returned sorted,
     {| cache := <["all_posts" := {| data := sorted;
                                     timestamp := clock w (S (S (refreshStart m))) |}]> (cache m);
        log := requests ++ [ClockRead] |})
  end.
Proof.
  intros Hs.
  exact (refresh_run Service.fetchRealTwitterData Service.fetchRealRSSFeeds
           Service.getMockData fetchRealTwitterData_run fetchRealRSSFeeds_run
           w m _ Hs eq_refl).
Qed.

Lemma Part001_refresh_run w m :
  stale w m →
  Part001.getAllPosts w m =
  let requests :=
    (log m ++ (if cache m !! "all_posts" is Some _ then [ClockRead] else []))
    ++ [Fetch twitter_endpoint; Fetch rss_endpoint] in
  match fetched w m with
  | [] =>
    match cache m !! "all_posts" with
    | Some entry => (Returned (data entry), {| cache := cache m; log := requests |})
    | None => Part001.getMockData w {| cache := cache m; log := requests |}
    end
  | _ :: _ =>
    let sorted := arraySort (byDateDesc w) (fetched w m) in
    (Returned sorted,
     {| cache := <["all_posts" := {| data := sorted;
                                     timestamp := clock w (S (S (refreshStart m))) |}]> (cache m);
        log := requests ++ [ClockRead] |})
  end.
Proof.
  intros Hs.
  exact (refresh_run Part001.fetchRealTwitterData Part001.fetchRealRSSFeeds
           Part001.getMockData fetchRealTwitterData_run Part001_fetchRealRSSFeeds_run
           w m _ Hs eq_refl).
Qed.

Lemma getAllPosts_hit_any (w : World) (m : Machine) (entry : CacheEntry) :
  cache m !! "all_posts" = Some entry →
  (clock w (length (log m)) - timestamp entry < CACHE_DURATION)%Z →
  ∃ m', Service.getAllPosts w m = (Returned (data entry), m') ∧ cache m' = cache m.
Proof.
  intros Hc Hf. eexists. split; [|shelve].
  by apply (cache_hit_run Service.fetchRealTwitterData Service.fetchRealRSSFeeds
              Service.getMockData w m entry).
  Unshelve. done.
Qed.

(** C1: when the entry "all_posts" exists and the clock reads less than five
    minutes past its timestamp, [getAllPosts] returns the data of the entry
    as it is; the cache is left as it was, and the one interaction with the
    host is the reading of the clock: no request is sent. *)
Theorem getAllPosts_cache_hit (w : World) (m : Machine) (entry : CacheEntry) :
  cache m !! "all_posts" = Some entry →
  (clock w (length (log m)) - timestamp entry < CACHE_DURATION)%Z →
  ∃ m', Service.getAllPosts w m = (Returned (data entry), m')
        ∧ cache m' = cache m
        ∧ log m' = log m ++ [ClockRead]
        ∧ Forall (λ c, isFetch c = false) (drop (length (log m)) (log m')).
Proof.
  intros Hc Hf. eexists. split.
  - by apply (cache_hit_run Service.fetchRealTwitterData Service.fetchRealRSSFeeds
                Service.getMockData w m entry).
  - simpl. repeat split. rewrite drop_app_length. by repeat constructor.
Qed.

Lemma getAllPosts_cache_hit_witness :
  ∃ m', Service.getAllPosts (offline t0) machine_cached = (Returned [post_feb], m')
        ∧ cache m' = cache machine_cached
        ∧ log m' = [ClockRead]
        ∧ Forall (λ c, isFetch c = false) (drop 0 (log m')).
Proof.
  apply (getAllPosts_cache_hit (offline t0) machine_cached
           {| data := [post_feb]; timestamp := 1736950000000 |});
    vm_compute; reflexivity.
Defined.

(** The cache test of the specification: a call that follows a refresh
    within five minutes returns the same list and sends no request. *)
Lemma getAllPosts_twice (w : World) (m m' : Machine) (posts : list SocialMediaPost) :
  stale w m → fetched w m ≠ [] →
  Service.getAllPosts w m = (Returned posts, m') →
  (clock w (length (log m')) - clock w (S (S (refreshStart m))) < CACHE_DURATION)%Z →
  Service.getAllPosts w m' =
  (Returned posts, {| cache := cache m'; log := log m' ++ [ClockRead] |}).
Proof.
  intros Hs Hne Hrun Hclock.
  rewrite (Service_refresh_run w m Hs) in Hrun.
  cbv zeta in Hrun. destruct (fetched w m) as [|p l] eqn:Ef; [done|].
  injection Hrun as <- <-.
  apply (cache_hit_run _ _ _ w _ {| data := arraySort (byDateDesc w) (p :: l);
                                    timestamp := clock w (S (S (refreshStart m))) |}).
  - simpl. apply lookup_insert_eq.
  - simpl in *. exact Hclock.
Qed.

(** C2: when an entry exists, fresh or stale, and the two adapters together
    contribute no post (each failed or came back empty), [getAllPosts]
    returns the data of that entry and leaves the cache as it was. *)
Theorem getAllPosts_failed_refresh (w : World) (m : Machine) (entry : CacheEntry) :
  cache m !! "all_posts" = Some entry →
  fetched w m = [] →
  ∃ m', Service.getAllPosts w m = (Returned (data entry), m') ∧ cache m' = cache m.
Proof.
  intros Hc Hf.
  destruct (Z.lt_ge_cases (clock w (length (log m)) - timestamp entry) CACHE_DURATION) as [Hlt|Hge].
  - destruct (getAllPosts_hit_any w m entry Hc Hlt) as [m' [? ?]]. eauto.
  - rewrite (Service_refresh_run w m ltac:(intros e He; congruence)).
    cbv zeta. rewrite Hf, Hc. eauto.
Qed.

Lemma getAllPosts_failed_refresh_witness :
  ∃ m', Service.getAllPosts (offline (t0 + 600000)) machine_cached = (Returned [post_feb], m')
        ∧ cache m' = cache machine_cached.
Proof.
  apply (getAllPosts_failed_refresh (offline (t0 + 600000)) machine_cached
           {| data := [post_feb]; timestamp := 1736950000000 |});
    vm_compute; reflexivity.
Defined.

(** ** Sorting and storing of fresh posts *)

(** C4 (amended): when no fresh entry exists and the adapters contribute at
    least one post, [getAllPosts] returns a rearrangement of their
    concatenation; whenever every timestamp date + ' ' + time parses, that
    list is in descending order of the timestamp and posts with one
    timestamp keep the order of the concatenation; the entry "all_posts" is
    overwritten with exactly the returned list and the time read from the
    clock when it is stored (the last interaction of the call). *)
Theorem getAllPosts_refresh (w : World) (m : Machine) :
  stale w m → fetched w m ≠ [] →
  ∃ sorted m',
    Service.getAllPosts w m = (Returned sorted, m')
    ∧ sorted ≡ₚ fetched w m
    ∧ (Forall (λ p, is_Some (getTime w p)) (fetched w m) →
       StronglySorted (notOlder w) sorted
       ∧ ∀ t, stampedAt w t sorted = stampedAt w t (fetched w m))
    ∧ cache m' = <["all_posts" := {| data := sorted;
                                     timestamp := clock w (pred (length (log m'))) |}]> (cache m)
    ∧ last (log m') = Some ClockRead.
Proof.
  intros Hs Hne. rewrite (Service_refresh_run w m Hs). cbv zeta.
  destruct (fetched w m) as [|p l] eqn:Ef; [done|].
  eexists _, _. split; [reflexivity|]. repeat split.
  - apply arraySort_perm.
  - by apply arraySort_sorted.
  - intros t. by apply arraySort_stable.
  - simpl. do 3 f_equal. unfold refreshStart. rewrite !length_app.
    destruct (cache m !! "all_posts"); simpl; lia.
  - simpl. by rewrite last_snoc.
Qed.

Lemma getAllPosts_refresh_witness :
  ∃ sorted m',
    Service.getAllPosts (twitterOnly [post_jan; post_feb] t0) machine0 = (Returned sorted, m')
    ∧ sorted ≡ₚ fetched (twitterOnly [post_jan; post_feb] t0) machine0
    ∧ (Forall (λ p, is_Some (getTime (twitterOnly [post_jan; post_feb] t0) p))
              (fetched (twitterOnly [post_jan; post_feb] t0) machine0) →
       StronglySorted (notOlder (twitterOnly [post_jan; post_feb] t0)) sorted
       ∧ ∀ t, stampedAt (twitterOnly [post_jan; post_feb] t0) t sorted
              = stampedAt (twitterOnly [post_jan; post_feb] t0) t
                  (fetched (twitterOnly [post_jan; post_feb] t0) machine0))
    ∧ cache m' = <["all_posts" := {| data := sorted;
          timestamp := clock (twitterOnly [post_jan; post_feb] t0) (pred (length (log m'))) |}]>
                   (cache machine0)
    ∧ last (log m') = Some ClockRead.
Proof.
  apply (getAllPosts_refresh (twitterOnly [post_jan; post_feb] t0) machine0).
  - intros entry H. vm_compute in H. discriminate H.
  - vm_compute. discriminate.
Defined.

(** The run of the witness: the newer post comes first. *)
Example newest_post_first :
  (Service.getAllPosts (twitterOnly [post_jan; post_feb] t0) machine0).1
  = Returned [post_feb; post_jan].
Proof. vm_compute. reflexivity. Qed.

(** C4 as stated fails: a timestamp that does not parse makes the comparator
    return NaN, which the sort reads as "equal"; the post stays where it
    was instead of sorting as timestamp 0. *)
Lemma getAllPosts_undated_not_epoch_zero :
  (Service.getAllPosts (twitterOnly [post_undated; post_jan] t0) machine0).1
  = Returned [post_undated; post_jan]
  ∧ ¬ sortedEpochZero (twitterOnly [post_undated; post_jan] t0) [post_undated; post_jan].
Proof.
  split; [vm_compute; reflexivity|].
  intros H. apply StronglySorted_inv in H as [_ H].
  apply Forall_cons in H as [H _]. vm_compute in H. by apply H.
Qed.

(** ** The fallback of last resort *)

Lemma Service_getMockData_run w m :
  ∃ posts,
    Service.getMockData w m =
      (Returned posts, {| cache := cache m; log := log m ++ [ClockRead] |})
    ∧ id <$> posts =
        js <$> ["real_content_1"; "real_content_2"; "real_content_3"; "real_content_4";
                "real_content_5"; "real_content_6"; "real_content_7"; "real_content_8"]%string
    ∧ category <$> posts =
        (Some ∘ js) <$> ["Ulaşım"; "Eğitim"; "Çevre"; "Politika";
                         "Kültür"; "Sosyal"; "Spor"; "Ekonomi"]%string.
Proof.
  eexists. split.
  { cbv beta iota zeta delta [Service.getMockData bind dateNow host ret]. reflexivity. }
  split; reflexivity.
Qed.

Lemma Part001_getMockData_run w m :
  ∃ posts,
    Part001.getMockData w m =
      (Returned posts,
       {| cache := cache m; log := log m ++ [ClockRead; ClockRead; ClockRead] |})
    ∧ id <$> posts = js <$> ["system_message_1"; "system_message_2"]%string
    ∧ category <$> posts = (Some ∘ js) <$> ["Sistem"; "Sistem"]%string
    ∧ platform <$> posts = [rss; rss].
Proof.
  eexists. split.
  { cbv beta iota zeta delta [Part001.getMockData bind dateNow host ret cache log].
    rewrite <- !app_assoc. reflexivity. }
  repeat split; reflexivity.
Qed.

(** In the revision of unnamed/part_001 the fallback is the pair of system
    messages the specification describes. *)
Lemma Part001_fallback (w : World) (m : Machine) :
  cache m !! "all_posts" = None → fetched w m = [] →
  ∃ posts m',
    Part001.getAllPosts w m = (Returned posts, m')
    ∧ id <$> posts = js <$> ["system_message_1"; "system_message_2"]%string
    ∧ Forall (λ p, category p = Some (js "Sistem")) posts
    ∧ cache m' = cache m.
Proof.
  intros Hc Hf.
  rewrite (Part001_refresh_run w m ltac:(intros e He; congruence)).
  cbv zeta. rewrite Hf, Hc.
  destruct (Part001_getMockData_run w
    {| cache := cache m; log := (log m ++ []) ++ [Fetch twitter_endpoint; Fetch rss_endpoint] |})
    as (posts & -> & Hid & Hcat & _).
  exists posts. eexists. split; [reflexivity|]. split; [done|]. split; [|done].
  destruct posts as [|p1 [|p2 [|]]]; try discriminate Hcat.
  injection Hcat as H1 H2. by repeat constructor.
Qed.

(** In src/services/socialMediaService.ts the fallback is the list of eight
    sample posts. *)
Lemma Service_fallback (w : World) (m : Machine) :
  cache m !! "all_posts" = None → fetched w m = [] →
  ∃ posts m',
    Service.getAllPosts w m = (Returned posts, m')
    ∧ category <$> posts =
        (Some ∘ js) <$> ["Ulaşım"; "Eğitim"; "Çevre"; "Politika";
                         "Kültür"; "Sosyal"; "Spor"; "Ekonomi"]%string
    ∧ cache m' = cache m.
Proof.
  intros Hc Hf.
  rewrite (Service_refresh_run w m ltac:(intros e He; congruence)).
  cbv zeta. rewrite Hf, Hc.
  destruct (Service_getMockData_run w
    {| cache := cache m; log := (log m ++ []) ++ [Fetch twitter_endpoint; Fetch rss_endpoint] |})
    as (posts & -> & _ & Hcat).
  exists posts. eexists. split; [reflexivity|]. split; done.
Qed.

(** C3 (what the code does): with an empty cache and every request
    rejected, [getAllPosts] of src/services/socialMediaService.ts returns
    eight sample posts in the categories of ordinary content, none of them
    "Sistem", although its call site announces "mock data with error
    message"; the revision of unnamed/part_001 returns the two system
    messages of category "Sistem". *)
Theorem getAllPosts_fallback_divergence :
  (∃ posts m',
     Service.getAllPosts (offline t0) machine0 = (Returned posts, m')
     ∧ length posts = 8
     ∧ Forall (λ p, category p ≠ Some (js "Sistem")) posts)
  ∧ (∃ posts m',
       Part001.getAllPosts (offline t0) machine0 = (Returned posts, m')
       ∧ length posts = 2
       ∧ Forall (λ p, category p = Some (js "Sistem")) posts).
Proof.
  split.
  - destruct (Service_fallback (offline t0) machine0) as (posts & m' & Hrun & Hcat & _);
      [reflexivity..|].
    exists posts, m'. split; [done|].
    do 9 (destruct posts as [|? posts]; try discriminate Hcat).
    split; [done|]. simpl in Hcat.
    repeat match goal with
           | H : _ :: _ = _ :: _ |- _ => injection H as ? H
           end.
    repeat constructor; intros E; rewrite E in *; vm_compute in *; discriminate.
  - destruct (Part001_fallback (offline t0) machine0) as (posts & m' & Hrun & Hid & Hcat & _);
      [reflexivity..|].
    exists posts, m'. split; [done|]. split; [|done].
    by destruct posts as [|? [|? [|]]].
Qed.

(** ** Tag extraction *)

Lemma lowerUnit_no_capital_dotted_I c : (0x130)%N ∉ lowerUnit c.
Proof.
  unfold lowerUnit.
  repeat match goal with
         | |- context [if ?b then _ else _] => destruct b eqn:?
         end;
    rewrite ?elem_of_cons, ?elem_of_nil; intros H;
    repeat match goal with
           | H : _ ∨ _ |- _ => destruct H
           | H : (_ && _) = true |- _ => apply andb_true_iff in H as [? ?]
           | H : (_ || _) = true |- _ => apply orb_true_iff in H as [?|?]
           | H : negb _ = true |- _ => apply negb_true_iff in H
           | H : (_ <=? _)%N = true |- _ => apply N.leb_le in H
           | H : (_ =? _)%N = true |- _ => apply N.eqb_eq in H
           | H : (_ =? _)%N = false |- _ => apply N.eqb_neq in H
           end;
    try done; try lia.
  all: try (assert (c = 303%N) as -> by lia; vm_compute in *; discriminate).
Qed.

(** The keyword 'İstanbul' is looked up in the lower-cased content, which
    never holds a capital dotted I: the entry never fires. *)
Lemma keyword_Istanbul_never_found content :
  includes (toLowerCase content) (js "İstanbul") = false.
Proof.
  apply not_true_iff_false. intros (a & b & E)%includes_spec.
  assert ((0x130)%N ∈ toLowerCase content) as H.
  { rewrite E. apply elem_of_app. right. apply elem_of_app. left.
    vm_compute. apply elem_of_cons. by left. }
  unfold toLowerCase in H. apply list_elem_of_bind in H as (c & Hc & _).
  by apply lowerUnit_no_capital_dotted_I in Hc.
Qed.

(** C6 (what the code does): on "İstanbul'da #Metro ve #YeşilUlaşım büyüyor"
    the feed function and the Twitter function find the hashtags Metro and
    YeşilUlaşım and the contextual tag Ulaşım; the tags İstanbul and Şehir
    are missing.  The service class, whose hashtag pattern is [\w] alone,
    cuts the second hashtag at its first Turkish letter. *)
Theorem extractTags_example :
  RssFeeds.extractTags tag_example = [js "Metro"; js "YeşilUlaşım"; js "Ulaşım"]
  ∧ TwitterData.extractTags tag_example None = [js "Metro"; js "YeşilUlaşım"; js "Ulaşım"]
  ∧ Service.extractTags tag_example = [js "Metro"; js "Ye"; js "Ulaşım"]
  ∧ (js "İstanbul" ∉ RssFeeds.extractTags tag_example)
  ∧ (js "Şehir" ∉ RssFeeds.extractTags tag_example).
Proof.
  assert (RssFeeds.extractTags tag_example = [js "Metro"; js "YeşilUlaşım"; js "Ulaşım"]) as E
    by (vm_compute; reflexivity).
  split; [exact E|]. split; [vm_compute; reflexivity|]. split; [vm_compute; reflexivity|].
  rewrite E. split; intros H; vm_compute in H;
    repeat (apply elem_of_cons in H as [H|H]; [discriminate H|]); by apply elem_of_nil in H.
Qed.

(** * Further properties of the code *)

(** ** cleanContent applied again *)

Lemma indexWhere_Forall_None f s : Forall (λ c, f c = false) s → indexWhere f s = None.
Proof. induction 1 as [|c s H _ IH]; simpl; [done|]. by rewrite H, IH. Qed.

Lemma replaceAll_no_match rx repl s :
  (∀ a b, s = a ++ b → rx b = None) → replaceAll rx repl s = s.
Proof.
  induction s as [|c s IH]; intros H; [done|].
  rewrite replaceAll_cons, (H [] (c :: s) eq_refl). f_equal.
  apply IH. intros a b ->. by apply (H (c :: a) b).
Qed.

Lemma tagFree_app_r a b : tagFree (a ++ b) = true → tagFree b = true.
Proof. induction a as [|x a IH]; simpl; [done|]. intros [_ H]%andb_true_iff. auto. Qed.

Lemma tagFree_fixed s : tagFree s = true → replaceAll rx_tag [] s = s.
Proof.
  intros H. apply replaceAll_no_match. intros a [|c r] ->; [done|].
  apply tagFree_app_r in H. simpl in H. apply andb_true_iff in H as [H _].
  unfold rx_tag. destruct (c =? ch_lt)%N; [|done]. simpl in H.
  apply negb_true_iff, bool_decide_eq_false in H.
  rewrite indexWhere_Forall_None; [done|].
  apply Forall_forall. intros x Hx. apply N.eqb_neq. by intros <-.
Qed.

Lemma entityFree_app_r a b : entityFree (a ++ b) = true → entityFree b = true.
Proof. induction a as [|x a IH]; simpl; [done|]. intros [_ H]%andb_true_iff. auto. Qed.

Lemma entityFree_fixed repl s : entityFree s = true → replaceAll rx_entity repl s = s.
Proof.
  intros H. apply replaceAll_no_match. intros a [|c r] ->; [done|].
  apply entityFree_app_r in H. simpl in H. apply andb_true_iff in H as [H _].
  unfold rx_entity. destruct (c =? ch_amp)%N; [|done]. simpl in H.
  unfold semiFirst in H. by destruct (indexWhere (N.eqb ch_semi) r) as [[|k]|].
Qed.

Lemma elem_of_replaceAll rx repl s x :
  x ∈ replaceAll rx repl s → x ∈ s ∨ x ∈ repl.
Proof.
  unfold replaceAll. generalize 0. induction s as [|c s IH]; intros k; simpl.
  - by intros ?%elem_of_nil.
  - destruct k as [|k].
    + destruct (rx (c :: s)) as [[|n]|]; simpl; rewrite ?elem_of_app, !elem_of_cons;
        intros [?|H]; auto; apply IH in H as [?|?]; auto.
    + rewrite elem_of_cons. intros H. apply IH in H as [?|?]; auto.
Qed.

Lemma indexWhere_semi_None s : indexWhere (N.eqb ch_semi) s = None ↔ ch_semi ∉ s.
Proof.
  split.
  - intros H%indexWhere_None Hin. rewrite Forall_forall in H.
    specialize (H _ Hin). by rewrite N.eqb_refl in H.
  - intros H. apply indexWhere_Forall_None, Forall_forall.
    intros x Hx. apply N.eqb_neq. by intros <-.
Qed.

Lemma semiFirst_cases s :
  semiFirst s = true ↔ ch_semi ∉ s ∨ ∃ r, s = ch_semi :: r.
Proof.
  unfold semiFirst. destruct s as [|c r]; cbn [indexWhere].
  - split; [left; by intros ?%elem_of_nil|done].
  - destruct (N.eqb_spec ch_semi c) as [<-|Hne].
    + split; [eauto|done].
    + destruct (indexWhere (N.eqb ch_semi) r) as [k|] eqn:E; cbn.
      * split; [done|]. intros [H|[r' [= ? ?]]]; [|done].
        assert (indexWhere (N.eqb ch_semi) r = None) as E'
          by (apply indexWhere_semi_None; intros ?; apply H; by right).
        congruence.
      * split; [|done]. intros _. left. apply indexWhere_semi_None in E.
        rewrite elem_of_cons. by intros [?|?].
Qed.

Lemma semiFirst_app_l a b : semiFirst (a ++ b) = true → semiFirst a = true.
Proof.
  rewrite !semiFirst_cases. intros [H|[r E]].
  - left. intros ?. apply H, elem_of_app. by left.
  - destruct a as [|x a]; [left; by intros ?%elem_of_nil|].
    right. injection E as -> _. eauto.
Qed.

Lemma semiFirst_replaceAll rx repl s :
  (∀ t, rx (ch_semi :: t) = None) → ch_semi ∉ repl →
  semiFirst s = true → semiFirst (replaceAll rx repl s) = true.
Proof.
  intros Hrx Hrepl. rewrite !semiFirst_cases. intros [H|[r ->]].
  - left. intros [?|?]%elem_of_replaceAll; done.
  - right. rewrite replaceAll_cons, Hrx. eauto.
Qed.

Lemma entityFree_app_l a b : entityFree (a ++ b) = true → entityFree a = true.
Proof.
  induction a as [|x a IH]; simpl; [done|].
  intros [H1 H2]%andb_true_iff. rewrite IH by done. rewrite andb_true_r.
  destruct (x =? ch_amp)%N; [|done]. simpl in *. by apply (semiFirst_app_l a b).
Qed.

Lemma rx_entity_semi t : rx_entity (ch_semi :: t) = None.
Proof. done. Qed.

Lemma rx_spaces_semi t : rx_spaces (ch_semi :: t) = None.
Proof. done. Qed.

Lemma semi_not_space : ch_semi ∉ [ch_space].
Proof. by intros [?|?%elem_of_nil]%elem_of_cons. Qed.

Lemma entityFree_replaced n : ∀ s, length s ≤ n →
  entityFree (replaceAll rx_entity [ch_space] s) = true.
Proof.
  induction n as [|n IH]; intros [|c s] Hn; simpl in Hn; try done; try lia.
  rewrite replaceAll_cons. unfold rx_entity.
  destruct (c =? ch_amp)%N eqn:Ec.
  - destruct (indexWhere (N.eqb ch_semi) s) as [[|k]|] eqn:Ei.
    + simpl. rewrite Ec, IH by lia. simpl. rewrite andb_true_r.
      apply semiFirst_replaceAll; [apply rx_entity_semi|apply semi_not_space|].
      unfold semiFirst. by rewrite Ei.
    + simpl. apply IH. rewrite length_drop. lia.
    + simpl. rewrite Ec, IH by lia. simpl. rewrite andb_true_r.
      apply semiFirst_replaceAll; [apply rx_entity_semi|apply semi_not_space|].
      unfold semiFirst. by rewrite Ei.
  - simpl. rewrite Ec, IH by lia. done.
Qed.

Lemma entityFree_collapsed n : ∀ s, length s ≤ n →
  entityFree s = true → entityFree (replaceAll rx_spaces [ch_space] s) = true.
Proof.
  induction n as [|n IH]; intros [|c s] Hn He; simpl in Hn; try done; try lia.
  rewrite replaceAll_cons. unfold rx_spaces. simpl spanLength.
  simpl in He. apply andb_true_iff in He as [H1 H2].
  destruct (isWhiteSpace c) eqn:W.
  - simpl. apply IH; [rewrite length_drop; lia|].
    rewrite <- (take_drop (spanLength isWhiteSpace s) s) in H2.
    by apply entityFree_app_r in H2.
  - simpl. rewrite IH by (done || lia). rewrite andb_true_r.
    destruct (c =? ch_amp)%N; [|done]. simpl in *.
    by apply semiFirst_replaceAll; [apply rx_spaces_semi|apply semi_not_space|].
Qed.

Lemma onlySpaces_collapsed s : onlySpaces (replaceAll rx_spaces [ch_space] s).
Proof.
  unfold onlySpaces, replaceAll. generalize 0.
  induction s as [|c s IH]; intros k; simpl; [constructor|].
  destruct k as [|k]; [|apply IH].
  unfold rx_spaces. simpl spanLength. destruct (isWhiteSpace c) eqn:W; simpl.
  - constructor; [done|apply IH].
  - constructor; [by rewrite W|apply IH].
Qed.

Lemma collapse_fixed s :
  onlySpaces s → singleSpaced s = true → replaceAll rx_spaces [ch_space] s = s.
Proof.
  induction s as [|c s IH]; intros Ho Hs; [done|].
  apply Forall_cons in Ho as [Hc Ho].
  assert (singleSpaced s = true) as Hs' by (by apply (singleSpaced_app_r [c] s)).
  rewrite replaceAll_cons. unfold rx_spaces. simpl spanLength.
  destruct (isWhiteSpace c) eqn:W.
  - rewrite (Hc eq_refl).
    assert (spanLength isWhiteSpace s = 0) as ->.
    { destruct s as [|y s]; [done|]. simpl in Hs. rewrite W in Hs. simpl in *.
      by destruct (isWhiteSpace y). }
    simpl. f_equal. by apply IH.
  - f_equal. by apply IH.
Qed.

Lemma trimStart_fixed s : startsClean s → trimStart s = s.
Proof. destruct s as [|c s]; [done|]. intros H. simpl. by rewrite (H c). Qed.

Lemma trimEnd_fixed s : endsClean s → trimEnd s = s.
Proof.
  induction s as [|c s IH]; intros H; [done|]. simpl.
  destruct s as [|d s].
  - simpl. by rewrite (H c).
  - rewrite IH; [done|]. intros x Hx. apply H. by rewrite last_cons_cons.
Qed.

Lemma trimEnd_length s : length (trimEnd s) ≤ length s.
Proof.
  destruct (trimEnd_prefix s) as [b E]. rewrite E at 2. rewrite length_app. lia.
Qed.

Lemma Forall_trim {P : N → Prop} s : Forall P s → Forall P (trim s).
Proof.
  destruct (trim_substring s) as (a & b & E). intros H. rewrite E in H.
  by apply Forall_app in H as [_ [H _]%Forall_app].
Qed.

Lemma cleanContent_entityFree content : entityFree (cleanContent content) = true.
Proof.
  unfold cleanContent, substring0.
  set (e := replaceAll rx_entity [ch_space] (replaceAll rx_tag [] content)).
  set (x := replaceAll rx_spaces [ch_space] e).
  assert (entityFree x = true) as Hx.
  { apply (entityFree_collapsed (length e)); [done|].
    by apply (entityFree_replaced (length (replaceAll rx_tag [] content))). }
  destruct (trim_substring x) as (a & b & E). rewrite E in Hx.
  apply entityFree_app_r, entityFree_app_l in Hx.
  rewrite <- (take_drop 500 (trim x)) in Hx. by apply entityFree_app_l in Hx.
Qed.

Lemma cleanContent_onlySpaces content : onlySpaces (cleanContent content).
Proof.
  unfold cleanContent, substring0, onlySpaces.
  apply Forall_take, Forall_trim, onlySpaces_collapsed.
Qed.

Lemma cleanContent_again content :
  cleanContent (cleanContent content) = trimEnd (cleanContent content).
Proof.
  set (o := cleanContent content). unfold cleanContent at 1. unfold substring0.
  rewrite tagFree_fixed by apply cleanContent_tagFree.
  rewrite entityFree_fixed by apply cleanContent_entityFree.
  rewrite collapse_fixed
    by (apply cleanContent_onlySpaces || apply cleanContent_singleSpaced).
  unfold trim. rewrite trimStart_fixed by apply cleanContent_startsClean.
  apply take_ge. pose proof (trimEnd_length o). pose proof (cleanContent_length content).
  fold o in H0. lia.
Qed.

(** X1: a second application of [cleanContent] only removes trailing white
    space left by the truncation: it changes nothing when the first result
    is shorter than 500 code units, and a third application never changes
    anything. *)
Theorem cleanContent_settles (content : jsstring) :
  cleanContent (cleanContent content) = trimEnd (cleanContent content)
  ∧ (length (cleanContent content) < 500 →
     cleanContent (cleanContent content) = cleanContent content)
  ∧ cleanContent (cleanContent (cleanContent content)) = cleanContent (cleanContent content).
Proof.
  split; [apply cleanContent_again|]. split.
  - intros H. rewrite cleanContent_again. by apply trimEnd_fixed, cleanContent_endsClean.
  - rewrite (cleanContent_again (cleanContent content)), cleanContent_again.
    apply trimEnd_fixed, trimEnd_endsClean.
Qed.

Lemma cleanContent_settles_witness :
  length (cleanContent (js "<p>Merhaba &amp;  dünya</p> ")) < 500
  ∧ cleanContent (cleanContent (js "<p>Merhaba &amp;  dünya</p> "))
    = cleanContent (js "<p>Merhaba &amp;  dünya</p> ").
Proof.
  assert (length (cleanContent (js "<p>Merhaba &amp;  dünya</p> ")) < 500) as H
    by (vm_compute; lia).
  split; [exact H|].
  exact (proj1 (proj2 (cleanContent_settles (js "<p>Merhaba &amp;  dünya</p> "))) H).
Defined.

(** On the truncated input of 501 code units the second application does
    change the text. *)
Example cleanContent_not_idempotent :
  cleanContent (cleanContent long_input) ≠ cleanContent long_input.
Proof. vm_compute. discriminate. Qed.


(** ** generateSummary applied to a summary *)

Lemma generateSummary_cases content :
  generateSummary content =
  if bool_decide (20 < length (firstSentence content) ≤ 150)
  then firstSentence content ++ js "." else take 120 content ++ js "...".
Proof.
  unfold generateSummary. rewrite split_first. simpl fmap. cbv zeta.
  fold (firstSentence content). unfold substring0. rewrite truthy_length.
  destruct (Nat.ltb_spec 0 (length (firstSentence content))),
           (Nat.ltb_spec 20 (length (firstSentence content))),
           (Nat.leb_spec (length (firstSentence content)) 150); simpl;
    case_bool_decide; try done; lia.
Qed.

Lemma spanLength_Forall f s : Forall (λ c, f c = true) (take (spanLength f s) s).
Proof.
  induction s as [|c s IH]; simpl; [constructor|].
  destruct (f c) eqn:E; simpl; [by constructor|constructor].
Qed.

Lemma spanLength_le f s : spanLength f s ≤ length s.
Proof. induction s as [|c s IH]; simpl; [done|]. destruct (f c); simpl; lia. Qed.

Lemma spanLength_stop f s x r :
  Forall (λ c, f c = true) s → f x = false → spanLength f (s ++ x :: r) = length s.
Proof.
  induction 1 as [|c s Hc _ IH]; intros Hx; simpl; [by rewrite Hx|].
  rewrite Hc. f_equal. by apply IH.
Qed.

Lemma firstSentence_no_terminator content :
  Forall (λ c, negb (isTerminator c) = true) (firstSentence content).
Proof. unfold firstSentence. apply Forall_trim, spanLength_Forall. Qed.

Lemma trim_fixed s : startsClean s → endsClean s → trim s = s.
Proof. intros H1 H2. unfold trim. rewrite trimStart_fixed by done. by apply trimEnd_fixed. Qed.

Lemma firstSentence_of_sentence s :
  Forall (λ c, negb (isTerminator c) = true) s → startsClean s → endsClean s →
  firstSentence (s ++ js ".") = s.
Proof.
  intros Hs H1 H2. unfold firstSentence.
  change (js ".") with [ch_dot]. rewrite (spanLength_stop _ s ch_dot []) by done.
  rewrite take_app_length. by apply trim_fixed.
Qed.

(** X2: a summary that is a first sentence is its own summary: when the
    trimmed first sentence of the content has more than 20 and at most 150
    code units, summarizing the summary gives the summary back. *)
Theorem generateSummary_resummarize (content : jsstring) :
  20 < length (firstSentence content) ≤ 150 →
  generateSummary (generateSummary content) = generateSummary content.
Proof.
  intros H. rewrite (generateSummary_cases content), bool_decide_eq_true_2 by done.
  assert (firstSentence (firstSentence content ++ js ".") = firstSentence content) as E.
  { apply firstSentence_of_sentence.
    - apply firstSentence_no_terminator.
    - apply trim_startsClean.
    - apply trim_endsClean. }
  by rewrite generateSummary_cases, E, bool_decide_eq_true_2.
Qed.

Lemma generateSummary_resummarize_witness :
  20 < length (firstSentence (js "İstanbul'da yeni metro hattı açıldı. Devamı gelecek")) ≤ 150
  ∧ generateSummary (generateSummary (js "İstanbul'da yeni metro hattı açıldı. Devamı gelecek"))
    = generateSummary (js "İstanbul'da yeni metro hattı açıldı. Devamı gelecek").
Proof.
  assert (20 < length (firstSentence (js "İstanbul'da yeni metro hattı açıldı. Devamı gelecek")) ≤ 150)
    as H by (vm_compute; lia).
  split; [exact H|].
  exact (generateSummary_resummarize (js "İstanbul'da yeni metro hattı açıldı. Devamı gelecek") H).
Defined.

(** ** Tags *)

Lemma setAdd_elem seen t x : x ∈ setAdd seen t ↔ x ∈ seen ∨ x = t.
Proof.
  unfold setAdd. case_bool_decide as H.
  - split; [auto|]. by intros [?| ->].
  - rewrite elem_of_app, list_elem_of_singleton. done.
Qed.

Lemma setAdd_NoDup seen t : NoDup seen → NoDup (setAdd seen t).
Proof.
  intros H. unfold setAdd. case_bool_decide as Hin; [done|].
  apply NoDup_app. split; [done|]. split; [|apply NoDup_singleton].
  intros x Hx ->%list_elem_of_singleton. done.
Qed.

Lemma uniq_NoDup tags : NoDup (uniq tags).
Proof.
  unfold uniq. assert (∀ acc, NoDup acc → NoDup (foldl setAdd acc tags)) as H.
  { induction tags as [|t tags IH]; intros acc Ha; simpl; [done|].
    by apply IH, setAdd_NoDup. }
  apply H, NoDup_nil_2.
Qed.

Lemma uniq_elem tags x : x ∈ uniq tags ↔ x ∈ tags.
Proof.
  unfold uniq.
  assert (∀ acc, x ∈ foldl setAdd acc tags ↔ x ∈ acc ∨ x ∈ tags) as H.
  { induction tags as [|t tags IH]; intros acc; simpl.
    - rewrite elem_of_nil. tauto.
    - rewrite IH, setAdd_elem, elem_of_cons. tauto. }
  rewrite H, elem_of_nil. tauto.
Qed.

Lemma pushKeywordTags_elem keywords content tags x :
  x ∈ pushKeywordTags keywords content tags ↔
  x ∈ tags ∨ ∃ entry, entry ∈ keywords
                      ∧ includes (toLowerCase content) entry.1 = true ∧ x ∈ entry.2.
Proof.
  unfold pushKeywordTags. revert tags.
  induction keywords as [|e keywords IH]; intros tags; simpl.
  - split; [auto|]. intros [?|(? & ?%elem_of_nil & _)]; done.
  - rewrite IH. destruct (includes (toLowerCase content) e.1) eqn:E.
    + rewrite elem_of_app. split.
      * intros [[?|?]|(e' & ? & ? & ?)]; [auto|right..].
        -- exists e. rewrite elem_of_cons. auto.
        -- exists e'. rewrite elem_of_cons. auto.
      * intros [?|(e' & [->|?]%elem_of_cons & ? & ?)]; [auto|auto|].
        right. eauto.
    + split.
      * intros [?|(e' & ? & ? & ?)]; [auto|right].
        exists e'. rewrite elem_of_cons. auto.
      * intros [?|(e' & [->|?]%elem_of_cons & ? & ?)]; [auto|congruence|].
        right. eauto.
Qed.

Lemma scan_Match rx s : ∀ k m,
  Match m ∈ scan rx k s →
  ∃ a t n, s = a ++ t ∧ rx t = Some (S n) ∧ m = take (S n) t.
Proof.
  induction s as [|c s IH]; intros k m; simpl; [by intros ?%elem_of_nil|].
  destruct k as [|k].
  - destruct (rx (c :: s)) as [[|n]|] eqn:E; rewrite elem_of_cons.
    + intros [?|H]; [done|]. apply IH in H as (a & t & n & -> & ? & ?).
      by exists (c :: a), t, n.
    + intros [[= ->]|H].
      * by exists [], (c :: s), n.
      * apply IH in H as (a & t & n' & -> & ? & ?). by exists (c :: a), t, n'.
    + intros [?|H]; [done|]. apply IH in H as (a & t & n & -> & ? & ?).
      by exists (c :: a), t, n.
  - intros H. apply IH in H as (a & t & n & -> & ? & ?). by exists (c :: a), t, n.
Qed.

Lemma matchAll_elem rx s m :
  m ∈ matchAll rx s → ∃ a t n, s = a ++ t ∧ rx t = Some (S n) ∧ m = take (S n) t.
Proof.
  unfold matchAll. intros ([c|m'] & Hm & Hin)%list_elem_of_bind.
  - by apply elem_of_nil in Hm.
  - apply list_elem_of_singleton in Hm as ->. by apply scan_Match in Hin.
Qed.

(** A tag taken from a hashtag: not empty, made of the code units the
    pattern admits, and found in the content right after a '#'. *)
Lemma hashtag_origin extra content tag :
  tag ∈ substring1 <$> matchAll (rx_hashtag extra) content →
  tag ≠ []
  ∧ Forall (λ x, isWordChar x || extra x = true) tag
  ∧ ∃ a b, content = a ++ ch_hash :: tag ++ b.
Proof.
  intros (m & -> & (a & t & n & -> & Hrx & ->)%matchAll_elem)%list_elem_of_fmap.
  unfold rx_hashtag in Hrx. destruct t as [|c r]; [done|].
  destruct (N.eqb_spec c ch_hash) as [->|]; [|done].
  destruct (spanLength (λ x, isWordChar x || extra x) r) as [|k] eqn:Ek; [done|].
  injection Hrx as <-. unfold substring1. simpl. rewrite drop_0.
  pose proof (spanLength_le (λ x, isWordChar x || extra x) r) as Hle.
  pose proof (spanLength_Forall (λ x, isWordChar x || extra x) r) as Hall.
  rewrite Ek in Hle, Hall. repeat split.
  - destruct r; simpl in *; [lia|done].
  - done.
  - exists a, (drop (S k) r). by rewrite take_drop.
Qed.

(** X3: each variant of [extractTags] returns distinct tags, at most five
    of them (eight in the Twitter function). *)
Theorem extractTags_bounded (content : jsstring)
    (contextAnnotations : option (list (option jsstring))) :
  (length (Service.extractTags content) ≤ 5 ∧ NoDup (Service.extractTags content))
  ∧ (length (RssFeeds.extractTags content) ≤ 5 ∧ NoDup (RssFeeds.extractTags content))
  ∧ (length (TwitterData.extractTags content contextAnnotations) ≤ 8
     ∧ NoDup (TwitterData.extractTags content contextAnnotations)).
Proof.
  unfold Service.extractTags, RssFeeds.extractTags, TwitterData.extractTags.
  repeat split; try (rewrite length_take; lia);
    (eapply sublist_NoDup; [apply uniq_NoDup|apply sublist_take]).
Qed.

Lemma annotation_tags_elem (annotations : list (option jsstring)) tags x :
  x ∈ foldl (λ tags name,
               match name with
               | Some n => if truthy n then tags ++ [n] else tags
               | None => tags
               end) tags annotations
  ↔ x ∈ tags ∨ (Some x ∈ annotations ∧ x ≠ []).
Proof.
  revert tags. induction annotations as [|[n|] annotations IH]; intros tags; simpl.
  - split; [auto|]. by intros [?|[?%elem_of_nil _]].
  - rewrite IH, elem_of_cons. destruct n as [|c n]; simpl.
    + split; [tauto|]. intros [?|[[[= <-]|?] ?]]; tauto.
    + rewrite elem_of_app, list_elem_of_singleton. split.
      * intros [[?| ->]|[? ?]]; auto.
      * intros [?|[[[= ->]|?] ?]]; auto.
  - rewrite IH, elem_of_cons. split; [tauto|]. intros [?|[[?|?] ?]]; [auto|done|auto].
Qed.

Lemma related_tags_nonempty keywords entry tag :
  forallb (λ e : jsstring * list jsstring, forallb truthy e.2) keywords = true →
  entry ∈ keywords → tag ∈ entry.2 → tag ≠ [].
Proof.
  intros H He Ht. rewrite forallb_forall in H.
  specialize (H entry (proj1 (list_elem_of_In _ _) He)).
  rewrite forallb_forall in H. specialize (H tag (proj1 (list_elem_of_In _ _) Ht)).
  by apply truthy_nonempty.
Qed.

Lemma elem_of_take_inv {A} n (l : list A) x : x ∈ take n l → x ∈ l.
Proof. intros H. rewrite <- (take_drop n l). apply elem_of_app. by left. Qed.

Lemma tags_origin extra keywords annotations content tags tag :
  forallb (λ e : jsstring * list jsstring, forallb truthy e.2) keywords = true →
  (∀ x, x ∈ tags →
        x ∈ substring1 <$> matchAll (rx_hashtag extra) content
        ∨ (Some x ∈ annotations ∧ x ≠ [])) →
  tag ∈ pushKeywordTags keywords content tags →
  tagOrigin extra keywords annotations content tag.
Proof.
  intros Hk Htags [Hin|(entry & He & Hinc & Ht)]%pushKeywordTags_elem.
  - destruct (Htags _ Hin) as [H|[H Hne]].
    + apply hashtag_origin in H as (? & ? & ?). split; [done|]. by left.
    + split; [done|]. right. by left.
  - split; [by eapply related_tags_nonempty|]. right. right. eauto.
Qed.

(** X4: every tag [extractTags] returns is non-empty and comes from the
    content: it follows a '#' in the content and consists of the code units
    the hashtag pattern admits, or (in the Twitter function) it is the name
    of an annotation, or it is a related tag of a keyword that occurs in the
    lower-cased content. *)
Theorem extractTags_origin (content : jsstring) (annotations : list (option jsstring)) :
  Forall (tagOrigin (λ _, false) Service.keywords [] content) (Service.extractTags content)
  ∧ Forall (tagOrigin isTurkishLetter RssFeeds.keywords [] content)
           (RssFeeds.extractTags content)
  ∧ Forall (tagOrigin isTurkishLetter TwitterData.keywords annotations content)
           (TwitterData.extractTags content (Some annotations)).
Proof.
  unfold Service.extractTags, RssFeeds.extractTags, TwitterData.extractTags.
  repeat split; apply Forall_forall; intros tag Hin;
    apply elem_of_take_inv in Hin; apply (proj1 (uniq_elem _ _)) in Hin.
  - eapply tags_origin; [by vm_compute| |exact Hin]. simpl. auto.
  - eapply tags_origin; [by vm_compute| |exact Hin]. simpl. auto.
  - eapply tags_origin; [by vm_compute| |exact Hin].
    intros x Hx. by apply annotation_tags_elem in Hx.
Qed.

(** ** Categories *)

Lemma keyword_hit_spec lowerContent keywords :
  existsb (λ keyword, includes lowerContent keyword) keywords = true
  ↔ ∃ keyword, keyword ∈ keywords ∧ ∃ a b, lowerContent = a ++ keyword ++ b.
Proof.
  rewrite existsb_exists. split.
  - intros (k & Hin & H%includes_spec). exists k. by rewrite list_elem_of_In.
  - intros (k & Hin & H%includes_spec). exists k. by rewrite <- list_elem_of_In.
Qed.

Lemma firstCategory_Some categories lowerContent r :
  firstCategory categories lowerContent = Some r →
  ∃ before keywords after,
    categories = before ++ (r, keywords) :: after
    ∧ existsb (λ keyword, includes lowerContent keyword) keywords = true
    ∧ Forall (λ entry : jsstring * list jsstring,
                existsb (λ keyword, includes lowerContent keyword) entry.2 = false) before.
Proof.
  induction categories as [|[c kws] categories IH]; simpl; [done|].
  destruct (existsb _ kws) eqn:E.
  - intros [= ->]. by exists [], kws, categories.
  - intros (before & keywords & after & -> & ? & ?)%IH.
    exists ((c, kws) :: before), keywords, after. repeat split; try done. by constructor.
Qed.

Lemma firstCategory_None categories lowerContent :
  firstCategory categories lowerContent = None →
  Forall (λ entry : jsstring * list jsstring,
            existsb (λ keyword, includes lowerContent keyword) entry.2 = false) categories.
Proof.
  induction categories as [|[c kws] categories IH]; simpl; [constructor|].
  destruct (existsb _ kws) eqn:E; [done|]. intros H. constructor; auto.
Qed.

Lemma no_hit_spec lowerContent (entries : list (jsstring * list jsstring)) :
  Forall (λ entry : jsstring * list jsstring,
            existsb (λ keyword, includes lowerContent keyword) entry.2 = false) entries →
  ∀ entry keyword, entry ∈ entries → keyword ∈ entry.2 →
                   ¬ ∃ a b, lowerContent = a ++ keyword ++ b.
Proof.
  intros H entry keyword He Hk Hocc. rewrite Forall_forall in H.
  specialize (H entry He). apply not_true_iff_false in H. apply H.
  apply keyword_hit_spec. eauto.
Qed.

Lemma categorized_default categories content :
  categorized categories content
    (default (js "Genel") (firstCategory categories (toLowerCase content))).
Proof.
  destruct (firstCategory categories (toLowerCase content)) as [r|] eqn:E; simpl.
  - left. apply firstCategory_Some in E as (before & keywords & after & -> & Hhit & Hno).
    exists before, keywords, after. split; [done|]. split.
    + by apply keyword_hit_spec in Hhit.
    + by apply no_hit_spec.
  - right. split; [done|]. by apply no_hit_spec, firstCategory_None.
Qed.

(** X5: [categorizeContent] returns the name of the first category, in the
    order of the table, one of whose keywords occurs in the lower-cased
    content, and "Genel" exactly when it finds none: an earlier category
    wins over every later one. *)
Theorem categorizeContent_first_match (content : jsstring) :
  categorized ServiceCategories.categories content
    (ServiceCategories.categorizeContent content)
  ∧ categorized FunctionCategories.categories content
      (FunctionCategories.categorizeContent content).
Proof. split; apply categorized_default. Qed.

(** Content that mentions "metro" is filed under "Ulaşım" whatever else it
    mentions. *)
Lemma categorizeContent_metro content :
  occursLower (js "metro") content →
  ServiceCategories.categorizeContent content = js "Ulaşım"
  ∧ FunctionCategories.categorizeContent content = js "Ulaşım".
Proof.
  intros H%includes_spec.
  unfold ServiceCategories.categorizeContent, FunctionCategories.categorizeContent.
  cbv zeta. unfold ServiceCategories.categories, FunctionCategories.categories.
  cbn [firstCategory existsb]. by rewrite H.
Qed.

(** ** Sorting with any comparator *)

Lemma insertSorted_sorted_by {A} (cmp : A → A → option Z) (R : relation A) x l :
  Transitive R →
  (∀ a b, (sortCompare cmp a b < 0)%Z → R a b) →
  (∀ a b, ¬ (sortCompare cmp a b < 0)%Z → R b a) →
  StronglySorted R l → StronglySorted R (insertSorted cmp x l).
Proof.
  intros Htrans Hlt Hge. induction l as [|y l IH]; intros Hs; simpl.
  - repeat constructor.
  - apply StronglySorted_inv in Hs as [Hs Hy].
    destruct (Z.ltb_spec (sortCompare cmp x y) 0) as [H|H].
    + constructor; [by constructor|]. constructor; [by apply Hlt|].
      eapply Forall_impl; [exact Hy|]. intros z Hz. trans y; [by apply Hlt|done].
    + constructor; [by apply IH|].
      rewrite insertSorted_perm. constructor; [|done]. apply Hge. lia.
Qed.

Lemma arraySort_sorted_by {A} (cmp : A → A → option Z) (R : relation A) l :
  Transitive R →
  (∀ a b, (sortCompare cmp a b < 0)%Z → R a b) →
  (∀ a b, ¬ (sortCompare cmp a b < 0)%Z → R b a) →
  StronglySorted R (arraySort cmp l).
Proof.
  intros Htrans Hlt Hge. unfold arraySort.
  assert (∀ acc, StronglySorted R acc →
                 StronglySorted R (foldl (λ acc x, insertSorted cmp x acc) acc l)) as H.
  { induction l as [|x l IH]; intros acc Ha; simpl; [done|].
    by apply IH, insertSorted_sorted_by. }
  apply H. constructor.
Qed.

(** ** The order of strings *)

Lemma lex_le_refl s : lex_le s s.
Proof. induction s; constructor; done. Qed.

Lemma lex_le_trans a b c : lex_le a b → lex_le b c → lex_le a c.
Proof.
  intros H. revert c. induction H as [s|x y s t Hxy|x s t H IH]; intros c Hc.
  - constructor.
  - inversion Hc; subst; [apply lex_le_lt; lia|by apply lex_le_lt].
  - inversion Hc; subst; [by apply lex_le_lt|apply lex_le_eq; auto].
Qed.

Lemma lex_le_antisym a b : lex_le a b → lex_le b a → a = b.
Proof.
  induction 1 as [s|x y s t Hxy|x s t H IH]; inversion 1; subst; try done; try lia.
  f_equal. auto.
Qed.

Lemma lex_le_total a b : lex_le a b ∨ lex_le b a.
Proof.
  destruct (str_lt a b) eqn:E.
  - left. destruct (str_lt b a) eqn:E'.
    + exfalso. revert b E E'. induction a as [|x a IH]; intros [|y b]; simpl; try done.
      rewrite !orb_true_iff, !andb_true_iff, !N.ltb_lt, !N.eqb_eq.
      intros [?|[-> ?]] [?|[? ?]]; try lia. eauto.
    + by apply str_lt_lex.
  - right. by apply str_lt_lex.
Qed.

Lemma str_lt_true a b : str_lt a b = true ↔ lex_le a b ∧ a ≠ b.
Proof.
  split.
  - intros H. split.
    + destruct (lex_le_total a b) as [?|H']; [done|].
      apply str_lt_lex in H'. congruence.
    + intros ->. assert (str_lt b b = false) by (apply str_lt_lex, lex_le_refl). congruence.
  - intros [H Hne]. apply not_false_iff_true. intros H'%str_lt_lex.
    by apply Hne, lex_le_antisym.
Qed.

#[local] Instance lex_le_transitive : Transitive lex_le.
Proof. intros a b c. apply lex_le_trans. Qed.

(** ** getCategories *)

Lemma defaultCompare_sorted l : StronglySorted lex_le (arraySort defaultCompare l).
Proof.
  apply arraySort_sorted_by; [apply _|..]; intros a b; unfold sortCompare, defaultCompare; simpl.
  - destruct (str_lt a b) eqn:E; [intros _; by apply str_lt_true in E as [? ?]|].
    destruct (str_lt b a); lia.
  - destruct (str_lt a b) eqn:E; [lia|]. intros _. by apply str_lt_lex.
Qed.

Lemma StronglySorted_strict l :
  StronglySorted lex_le l → NoDup l → StronglySorted (λ a b, str_lt a b = true) l.
Proof.
  induction 1 as [|x l Hs IH Hx]; intros Hd; [constructor|].
  apply NoDup_cons in Hd as [Hnin Hd]. constructor; [auto|].
  apply Forall_forall. intros y Hy. rewrite Forall_forall in Hx.
  apply str_lt_true. split; [auto|]. by intros ->.
Qed.

(** X6: [getCategories] returns exactly the categories that some post
    carries, each once, in strictly ascending order of [<] on strings. *)
Theorem getCategories_sorted_unique (posts : list SocialMediaPost) :
  (∀ c, c ∈ getCategories posts ↔ ∃ post, post ∈ posts ∧ category post = Some c)
  ∧ NoDup (getCategories posts)
  ∧ StronglySorted (λ a b, str_lt a b = true) (getCategories posts).
Proof.
  unfold getCategories. cbv zeta.
  assert (NoDup (arraySort defaultCompare (uniq (omap category posts)))) as Hd
    by (rewrite arraySort_perm; apply uniq_NoDup).
  split; [|split; [done|]].
  - intros c. rewrite arraySort_perm, uniq_elem, list_elem_of_omap. done.
  - apply StronglySorted_strict; [apply defaultCompare_sorted|done].
Qed.

(** ** getPopularTags *)

Ltac decide_known :=
  repeat match goal with
         | |- context [bool_decide ?P] =>
           first [ rewrite (bool_decide_eq_true_2 P) by congruence
                 | rewrite (bool_decide_eq_false_2 P) by congruence ]
         end.

Lemma mapGet_mapSet key value entries k :
  mapGet k (mapSet key value entries) =
  if bool_decide (key = k) then Some value else mapGet k entries.
Proof.
  induction entries as [|[k' v'] entries IH]; simpl; [done|].
  destruct (decide (k' = key)), (decide (key = k)), (decide (k' = k));
    decide_known; simpl; decide_known; rewrite ?IH; decide_known; congruence.
Qed.

Lemma mapSet_keys key value entries :
  (mapSet key value entries).*1 =
  if bool_decide (key ∈ entries.*1) then entries.*1 else entries.*1 ++ [key].
Proof.
  induction entries as [|[k v] entries IH]; [done|].
  cbn [mapSet fmap list_fmap fst].
  destruct (decide (k = key)) as [->|Hk].
  - rewrite (bool_decide_eq_true_2 (key = key)) by done.
    rewrite (bool_decide_eq_true_2 (key ∈ key :: entries.*1)) by (by left). done.
  - rewrite (bool_decide_eq_false_2 (k = key)) by done.
    cbn [fmap list_fmap fst]. rewrite IH.
    destruct (decide (key ∈ entries.*1)) as [Hin|Hin].
    + rewrite (bool_decide_eq_true_2 (key ∈ entries.*1)) by done.
      rewrite (bool_decide_eq_true_2 (key ∈ k :: entries.*1)) by (by right). done.
    + rewrite (bool_decide_eq_false_2 (key ∈ entries.*1)) by done.
      rewrite (bool_decide_eq_false_2 (key ∈ k :: entries.*1)); [done|].
      rewrite elem_of_cons. intros [?|?]; congruence.
Qed.

Lemma mapSet_NoDup key value entries :
  NoDup entries.*1 → NoDup (mapSet key value entries).*1.
Proof.
  intros H. rewrite mapSet_keys. case_bool_decide as Hin; [done|].
  apply NoDup_app. split; [done|]. split; [|apply NoDup_singleton].
  by intros x Hx ->%list_elem_of_singleton.
Qed.

Lemma mapGet_elem entries k v :
  NoDup entries.*1 → (k, v) ∈ entries → mapGet k entries = Some v.
Proof.
  induction entries as [|[k' v'] entries IH]; simpl; [by intros _ ?%elem_of_nil|].
  intros [Hnin Hd]%NoDup_cons [[= -> ->]|Hin]%elem_of_cons.
  - by rewrite bool_decide_eq_true_2.
  - rewrite bool_decide_eq_false_2; [auto|]. intros ->. apply Hnin.
    apply list_elem_of_fmap. by exists (k, v).
Qed.

Lemma countIn_app t l1 l2 : countIn t (l1 ++ l2) = (countIn t l1 + countIn t l2)%Z.
Proof. unfold countIn. rewrite List.filter_app, length_app. lia. Qed.

Lemma countIn_nonneg t l : (0 ≤ countIn t l)%Z.
Proof. unfold countIn. lia. Qed.

Lemma countIn_single t tag : countIn t [tag] = if bool_decide (tag = t) then 1%Z else 0%Z.
Proof. unfold countIn. cbn [List.filter]. by case_bool_decide. Qed.

Lemma countIn_zero t l : countIn t l = 0%Z ↔ t ∉ l.
Proof.
  induction l as [|x l IH].
  - split; [by intros _ ?%elem_of_nil|done].
  - change (x :: l) with ([x] ++ l). rewrite countIn_app, countIn_single, elem_of_app.
    pose proof (countIn_nonneg t l). rewrite list_elem_of_singleton.
    case_bool_decide.
    + subst. split; [lia|]. intros H'. exfalso. auto.
    + rewrite Z.add_0_l, IH. split; [intros ? [?|?]; congruence|auto].
Qed.

(** The loop over the tags leaves in the map, for every tag seen, the
    number of times it was seen. *)
Lemma tagCounts_invariant l : ∀ entries seen,
  NoDup entries.*1 →
  (∀ t, mapGet t entries = if decide (countIn t seen = 0%Z) then None
                           else Some (countIn t seen)) →
  NoDup (foldl (λ tagCounts tag,
                  mapSet tag (default 0 (mapGet tag tagCounts) + 1)%Z tagCounts)
               entries l).*1
  ∧ ∀ t, mapGet t (foldl (λ tagCounts tag,
                            mapSet tag (default 0 (mapGet tag tagCounts) + 1)%Z tagCounts)
                         entries l)
         = if decide (countIn t (seen ++ l) = 0%Z) then None
           else Some (countIn t (seen ++ l)).
Proof.
  induction l as [|tag l IH]; intros entries seen Hd Hget; simpl.
  - by rewrite app_nil_r.
  - replace (seen ++ tag :: l) with ((seen ++ [tag]) ++ l) by (by rewrite <- app_assoc).
    apply IH; [by apply mapSet_NoDup|].
    intros t. rewrite mapGet_mapSet, countIn_app, countIn_single.
    pose proof (countIn_nonneg t seen).
    destruct (decide (tag = t)) as [->|Hne]; decide_known.
    + rewrite Hget.
      destruct (decide (countIn t seen = 0%Z)) as [E|E]; simpl;
        destruct (decide ((countIn t seen + 1)%Z = 0%Z)); try lia; by rewrite ?E.
    + rewrite Hget, Z.add_0_r. done.
Qed.

Lemma foldl_posts_tags {B} (f : B → jsstring → B) (posts : list SocialMediaPost) b :
  foldl (λ acc post, foldl f acc (tags post)) b posts = foldl f b (posts ≫= tags).
Proof.
  revert b. induction posts as [|p posts IH]; intros b; simpl; [done|].
  by rewrite foldl_app, IH.
Qed.

Lemma tagCounts_spec posts :
  let tagCounts :=
    foldl (λ tagCounts post,
             foldl (λ tagCounts tag,
                      mapSet tag (default 0 (mapGet tag tagCounts) + 1)%Z tagCounts)
                   tagCounts (tags post))
          [] posts in
  NoDup tagCounts.*1
  ∧ ∀ t n, (t, n) ∈ tagCounts ↔ n = occurrences t posts ∧ (1 ≤ n)%Z.
Proof.
  cbv zeta. rewrite foldl_posts_tags.
  destruct (tagCounts_invariant (posts ≫= tags) [] []) as [Hd Hget];
    [constructor|intros t; by case_decide|].
  simpl in Hget. split; [done|]. intros t n. unfold occurrences.
  pose proof (countIn_nonneg t (posts ≫= tags)). split.
  - intros Hin. apply mapGet_elem in Hin; [|done]. rewrite Hget in Hin.
    case_decide; [done|]. injection Hin as <-. split; [done|lia].
  - intros [-> Hn]. specialize (Hget t). case_decide; [lia|].
    clear -Hget. revert Hget. generalize (countIn t (posts ≫= tags)).
    induction (foldl _ _ _) as [|[k v] entries IH]; simpl; [done|].
    intros z. case_bool_decide; [intros [= ->]; subst; by left|].
    intros ?. right. auto.
Qed.

Lemma StronglySorted_fmap_in {A B} (f : A → B) (R : relation A) (R' : relation B) l :
  StronglySorted R l →
  (∀ a b, a ∈ l → b ∈ l → R a b → R' (f a) (f b)) →
  StronglySorted R' (f <$> l).
Proof.
  induction 1 as [|x l Hs IH Hx]; intros H; simpl; [constructor|].
  constructor.
  - apply IH. intros a b Ha Hb. apply H; by right.
  - apply Forall_fmap, Forall_forall. intros y Hy. rewrite Forall_forall in Hx.
    apply H; [by left|by right|auto].
Qed.

Lemma sliceTo_prefix {A} finish (l : list A) : ∃ n, sliceTo finish l = take n l.
Proof. unfold sliceTo. destruct (_ <? 0)%Z; eauto. Qed.

(** X7: [getPopularTags] returns distinct tags, each of which occurs in
    some post, in descending order of the number of occurrences; no tag
    left out occurs more often than a tag returned; and there are at most
    [limit] of them when [limit] (20 when left out) is not negative. *)
Theorem getPopularTags_top (posts : list SocialMediaPost) (limit : option Z) :
  let top := getPopularTags posts limit in
  NoDup top
  ∧ (∀ t, t ∈ top → (1 ≤ occurrences t posts)%Z)
  ∧ StronglySorted (λ a b, (occurrences b posts ≤ occurrences a posts)%Z) top
  ∧ (∀ t u, t ∈ top → u ∉ top → (occurrences u posts ≤ occurrences t posts)%Z)
  ∧ ((default 20 limit < 0)%Z ∨ (Z.of_nat (length top) ≤ default 20 limit)%Z).
Proof.
  unfold getPopularTags. cbv zeta.
  destruct (tagCounts_spec posts) as [Hd Hin]. cbv zeta in Hd, Hin.
  set (tagCounts := foldl _ [] posts) in *.
  set (sorted := arraySort (λ a b : jsstring * Z, Some (b.2 - a.2)%Z) tagCounts).
  assert (sorted ≡ₚ tagCounts) as Hperm by apply arraySort_perm.
  assert (StronglySorted (λ a b : jsstring * Z, (b.2 ≤ a.2)%Z) sorted) as Hsorted.
  { apply arraySort_sorted_by.
    - intros a b c ? ?. lia.
    - intros a b. unfold sortCompare. simpl. lia.
    - intros a b. unfold sortCompare. simpl. lia. }
  assert (NoDup sorted.*1) as Hd' by (by rewrite Hperm).
  assert (∀ t n, (t, n) ∈ sorted ↔ n = occurrences t posts ∧ (1 ≤ n)%Z) as Hin'
    by (intros t n; by rewrite Hperm).
  assert ((default 20 limit < 0)%Z
          ∨ (Z.of_nat (length (sliceTo (default 20%Z limit) sorted)) ≤ default 20 limit)%Z)
    as Hlen.
  { unfold sliceTo. destruct (Z.ltb_spec (default 20%Z limit) 0); [by left|right].
    rewrite length_take. lia. }
  destruct (sliceTo_prefix (default 20%Z limit) sorted) as [k Hk].
  rewrite Hk in Hlen |- *. rewrite fmap_take.
  assert (∀ t, t ∈ sorted.*1 ↔ (1 ≤ occurrences t posts)%Z) as Hkeys.
  { intros t. rewrite list_elem_of_fmap. split.
    - intros ([t' n] & -> & H%Hin'). simpl. lia.
    - intros H. exists (t, occurrences t posts). split; [done|]. by apply Hin'. }
  assert (StronglySorted (λ a b, (occurrences b posts ≤ occurrences a posts)%Z) sorted.*1)
    as Hs.
  { apply (StronglySorted_fmap_in _ _ _ _ Hsorted).
    intros [t n] [t' n'] [-> _]%Hin' [-> _]%Hin'. done. }
  split; [|split; [|split; [|split]]].
  - eapply sublist_NoDup; [exact Hd'|apply sublist_take].
  - intros t Ht%elem_of_take_inv. by apply Hkeys.
  - rewrite <- (take_drop k sorted.*1) in Hs. by apply StronglySorted_app_1_l in Hs.
  - intros t u Ht Hu.
    destruct (decide (1 ≤ occurrences u posts)%Z) as [Hocc|Hocc].
    + apply Hkeys in Hocc. rewrite <- (take_drop k sorted.*1) in Hocc, Hs.
      apply elem_of_app in Hocc as [?|Hocc]; [done|].
      by apply (StronglySorted_app_1_elem_of _ _ _ _ _ Hs Ht Hocc).
    + apply elem_of_take_inv, Hkeys in Ht. lia.
  - rewrite <- fmap_take, length_fmap. exact Hlen.
Qed.

(** ** Searching and filtering together *)

Lemma filter_true {A} (f : A → bool) l : (∀ x, x ∈ l → f x = true) → List.filter f l = l.
Proof.
  induction l as [|x l IH]; intros H; simpl; [done|].
  rewrite (H x) by (by left). f_equal. apply IH. intros y Hy. apply H. by right.
Qed.

Lemma filter_filter {A} (f g : A → bool) l :
  List.filter g (List.filter f l) = List.filter (λ x, f x && g x) l.
Proof.
  induction l as [|x l IH]; simpl; [done|].
  destruct (f x); simpl; [destruct (g x)|]; by rewrite IH.
Qed.

Lemma filter_comm {A} (f g : A → bool) l :
  List.filter g (List.filter f l) = List.filter f (List.filter g l).
Proof.
  rewrite !filter_filter. apply List.filter_ext. intros x. apply andb_comm.
Qed.

(** [searchPosts] with a fixed query keeps or drops each post on its own. *)
Lemma searchPosts_as_filter query :
  ∃ keep, ∀ posts, searchPosts posts query = List.filter keep posts.
Proof.
  unfold searchPosts. destruct (negb (truthy (trim query))).
  - exists (λ _, true). intros posts. by rewrite filter_true.
  - eexists. intros posts. reflexivity.
Qed.

(** X8: the page may search and filter in either order: what
    [applySearchAndFilters] shows is [filterPosts] of [searchPosts], equally
    [searchPosts] of [filterPosts], and applying it to its own result with
    the same query and filters changes nothing. *)
Theorem applySearchAndFilters_order (allPosts : list SocialMediaPost) (searchQuery : jsstring)
    (filters : SearchFilters.t) :
  Ui.applySearchAndFilters allPosts searchQuery filters
    = filterPosts (searchPosts allPosts searchQuery) filters
  ∧ Ui.applySearchAndFilters allPosts searchQuery filters
    = searchPosts (filterPosts allPosts filters) searchQuery
  ∧ Ui.applySearchAndFilters (Ui.applySearchAndFilters allPosts searchQuery filters)
      searchQuery filters
    = Ui.applySearchAndFilters allPosts searchQuery filters.
Proof.
  assert (∀ posts, Ui.applySearchAndFilters posts searchQuery filters
                   = filterPosts (searchPosts posts searchQuery) filters) as E.
  { intros posts. unfold Ui.applySearchAndFilters. cbv zeta.
    destruct (truthy (trim searchQuery)) eqn:Et; [done|].
    unfold searchPosts. by rewrite Et. }
  destruct (searchPosts_as_filter searchQuery) as [keep Hkeep].
  split; [apply E|]. split.
  - rewrite E, !Hkeep. unfold filterPosts. apply filter_comm.
  - rewrite !E, !Hkeep. unfold filterPosts.
    rewrite !filter_filter. apply List.filter_ext. intros x.
    destruct (keep x); simpl; [|done]. by rewrite andb_diag.
Qed.

(** ** Queries of several words *)

Lemma scan_one_space_app a b :
  scan rx_one_space 0 (a ++ b) = scan rx_one_space 0 a ++ scan rx_one_space 0 b.
Proof.
  induction a as [|c a IH]; [done|]. simpl.
  destruct (c =? ch_space)%N; simpl; by rewrite IH.
Qed.

Lemma segments_app_match ps m qs :
  segments (ps ++ Match m :: qs) = segments ps ++ segments qs.
Proof.
  induction ps as [|[c|m'] ps IH]; simpl; [done| |by rewrite IH].
  rewrite IH. by destruct (segments_first ps) as (seg & rest & ->).
Qed.

Lemma split_space a b :
  split rx_one_space (a ++ ch_space :: b) = split rx_one_space a ++ split rx_one_space b.
Proof.
  unfold split. rewrite scan_one_space_app. simpl scan at 2.
  apply segments_app_match.
Qed.

Lemma toLowerCase_app a b : toLowerCase (a ++ b) = toLowerCase a ++ toLowerCase b.
Proof. unfold toLowerCase. apply bind_app. Qed.

Lemma trimEnd_nil s : trimEnd s = [] → Forall (λ c, isWhiteSpace c = true) s.
Proof.
  induction s as [|c s IH]; simpl; [constructor|].
  destruct (trimEnd s); [|done]. destruct (isWhiteSpace c) eqn:E; [|done].
  intros _. constructor; auto.
Qed.

Lemma trim_nil s : trim s = [] ↔ Forall (λ c, isWhiteSpace c = true) s.
Proof.
  split.
  - unfold trim. intros H%trimEnd_nil.
    induction s as [|c s IH]; [constructor|]. simpl in H.
    destruct (isWhiteSpace c) eqn:E.
    + constructor; auto.
    + apply Forall_cons in H as [H _]. congruence.
  - intros H. unfold trim. by rewrite trimStart_blank.
Qed.

Lemma searchPosts_words posts query :
  trim query ≠ [] →
  searchPosts posts query =
  List.filter
    (λ post,
       forallb
         (λ term,
            includes
              (toLowerCase
                 (join_space ([content post; summary post] ++ tags post
                              ++ [default [] (category post)])))
              term)
         (List.filter (λ term, 0 <? length term) (split rx_one_space (toLowerCase query))))
    posts.
Proof. intros H. unfold searchPosts. by destruct (trim query). Qed.

(** X9: the words of a query are taken together: searching for two
    non-blank queries joined by a space is searching for the second in the
    result of the first. *)
Theorem searchPosts_conjunctive (posts : list SocialMediaPost) (q1 q2 : jsstring) :
  trim q1 ≠ [] → trim q2 ≠ [] →
  searchPosts posts (q1 ++ js " " ++ q2) = searchPosts (searchPosts posts q1) q2.
Proof.
  intros H1 H2.
  assert (trim (q1 ++ js " " ++ q2) ≠ []) as H12.
  { rewrite trim_nil. intros [H _]%Forall_app. by apply H1, trim_nil. }
  rewrite !searchPosts_words by done. rewrite filter_filter.
  apply List.filter_ext. intros post.
  change (js " " ++ q2) with (ch_space :: q2).
  rewrite toLowerCase_app. change (toLowerCase (ch_space :: q2)) with (ch_space :: toLowerCase q2).
  by rewrite split_space, List.filter_app, forallb_app.
Qed.

Lemma searchPosts_conjunctive_witness :
  trim (js "metro") ≠ [] ∧ trim (js "açıldı") ≠ []
  ∧ searchPosts [post_jan; post_feb] (js "metro" ++ js " " ++ js "açıldı")
    = searchPosts (searchPosts [post_jan; post_feb] (js "metro")) (js "açıldı").
Proof.
  assert (trim (js "metro") ≠ []) as H1 by (vm_compute; discriminate).
  assert (trim (js "açıldı") ≠ []) as H2 by (vm_compute; discriminate).
  split; [exact H1|]. split; [exact H2|].
  exact (searchPosts_conjunctive [post_jan; post_feb] (js "metro") (js "açıldı") H1 H2).
Defined.

(** A first query that is a tab is blank for [trim] but a word for
    [split(' ')]: the law needs its premise. *)
Example searchPosts_tab_word :
  searchPosts [post_jan] ([9%N] ++ js " " ++ js "metro") = []
  ∧ searchPosts (searchPosts [post_jan] [9%N]) (js "metro") = [post_jan].
Proof. split; vm_compute; reflexivity. Qed.

(** ** Filters that exclude everything or nothing *)

Lemma filterPosts_dates posts filters post :
  post ∈ filterPosts posts filters →
  whenSet (SearchFilters.dateFrom filters) (λ v, str_lt (date post) v) = false
  ∧ whenSet (SearchFilters.dateTo filters) (λ v, str_lt v (date post)) = false.
Proof.
  unfold filterPosts. rewrite elem_of_filter. intros [_ H].
  destruct (whenSet (SearchFilters.platform filters) _); [done|].
  destruct (whenSet (SearchFilters.category filters) _); [done|].
  destruct (whenSet (SearchFilters.dateFrom filters) _); [done|].
  by destruct (whenSet (SearchFilters.dateTo filters) _).
Qed.

(** X10: a date range whose lower bound is greater than its upper bound
    selects no post. *)
Theorem filterPosts_inverted_range (posts : list SocialMediaPost) (filters : SearchFilters.t)
    (dateFrom dateTo : jsstring) :
  given (SearchFilters.dateFrom filters) dateFrom →
  given (SearchFilters.dateTo filters) dateTo →
  str_lt dateTo dateFrom = true →
  filterPosts posts filters = [].
Proof.
  intros Hfrom Hto Hlt. apply elem_of_nil_inv. intros post Hin.
  apply filterPosts_dates in Hin as [H1 H2].
  rewrite whenSet_false in H1, H2.
  specialize (H1 _ Hfrom). specialize (H2 _ Hto).
  apply str_lt_lex in H1, H2. apply str_lt_true in Hlt as [Hle Hne].
  apply Hne, lex_le_antisym; [done|]. by apply (lex_le_trans _ (date post)).
Qed.

Lemma filterPosts_inverted_range_witness :
  given (SearchFilters.dateFrom filters_inverted) (js "2025-02-01")
  ∧ given (SearchFilters.dateTo filters_inverted) (js "2025-01-31")
  ∧ str_lt (js "2025-01-31") (js "2025-02-01") = true
  ∧ filterPosts [post_jan; post_feb; post_undated] filters_inverted = [].
Proof.
  assert (given (SearchFilters.dateFrom filters_inverted) (js "2025-02-01")) as H1
    by (split; [reflexivity|vm_compute; discriminate]).
  assert (given (SearchFilters.dateTo filters_inverted) (js "2025-01-31")) as H2
    by (split; [reflexivity|vm_compute; discriminate]).
  assert (str_lt (js "2025-01-31") (js "2025-02-01") = true) as H3
    by (vm_compute; reflexivity).
  split; [exact H1|]. split; [exact H2|]. split; [exact H3|].
  exact (filterPosts_inverted_range [post_jan; post_feb; post_undated] filters_inverted
           (js "2025-02-01") (js "2025-01-31") H1 H2 H3).
Defined.

(** X11: when the search form reports no active filter, [filterPosts]
    returns the list it was given. *)
Theorem filterPosts_no_active_filter (posts : list SocialMediaPost) (filters : SearchFilters.t) :
  Ui.hasActiveFilters filters = false → filterPosts posts filters = posts.
Proof.
  unfold Ui.hasActiveFilters. cbv zeta.
  rewrite !orb_false_iff. intros [[[[H1 H2] H3] H4] H5].
  unfold filterPosts. apply filter_true. intros post _.
  assert (∀ field test,
            match field with Some v => truthy v | None => false end = false →
            whenSet field test = false) as Hoff.
  { intros [v|] test H; simpl; [by rewrite H|done]. }
  rewrite !Hoff by done.
  destruct (SearchFilters.tags filters) as [l|]; [|done]. by rewrite H5.
Qed.

Lemma filterPosts_no_active_filter_witness :
  Ui.hasActiveFilters filters_blank = false
  ∧ filterPosts [post_jan; post_feb] filters_blank = [post_jan; post_feb].
Proof.
  assert (Ui.hasActiveFilters filters_blank = false) as H by reflexivity.
  split; [exact H|].
  exact (filterPosts_no_active_filter [post_jan; post_feb] filters_blank H).
Defined.

(** ** The tag buttons of the search form *)

Lemma elem_of_filter_ne (tag t : jsstring) l :
  t ∈ List.filter (λ x, negb (bool_decide (x = tag))) l ↔ t ∈ l ∧ t ≠ tag.
Proof.
  rewrite elem_of_filter, negb_true_iff, bool_decide_eq_false. done.
Qed.

Lemma filter_ne_absent (tag : jsstring) l :
  tag ∉ l → List.filter (λ x, negb (bool_decide (x = tag))) l = l.
Proof.
  intros H. apply filter_true. intros x Hx.
  apply negb_true_iff, bool_decide_eq_false. by intros ->.
Qed.

Lemma NoDup_filter_bool {A} (f : A → bool) l : NoDup l → NoDup (List.filter f l).
Proof. intros H. eapply sublist_NoDup; [exact H|apply filter_sublist]. Qed.

(** X12: a click on a tag button flips that tag in the tag filter and
    leaves every other tag, and every other filter field, as it was; a
    second click brings back the same set of tags (the same list when the
    tag was not selected at first). *)
Theorem handleTagToggle_flips (localFilters : SearchFilters.t) (tag : jsstring) :
  let old := default [] (SearchFilters.tags localFilters) in
  let once := Ui.handleTagToggle localFilters tag in
  let new := default [] (SearchFilters.tags once) in
  (tag ∈ new ↔ tag ∉ old)
  ∧ (∀ t, t ≠ tag → (t ∈ new ↔ t ∈ old))
  ∧ (NoDup old → NoDup new)
  ∧ (SearchFilters.platform once, SearchFilters.category once,
     SearchFilters.dateFrom once, SearchFilters.dateTo once)
    = (SearchFilters.platform localFilters, SearchFilters.category localFilters,
       SearchFilters.dateFrom localFilters, SearchFilters.dateTo localFilters)
  ∧ SearchFilters.tags (Ui.handleTagToggle once tag)
    = Some (List.filter (λ t, negb (bool_decide (t = tag))) old
            ++ (if bool_decide (tag ∈ old) then [tag] else [])).
Proof.
  cbv zeta. unfold Ui.handleTagToggle. simpl.
  set (old := default [] (SearchFilters.tags localFilters)).
  destruct (decide (tag ∈ old)) as [Hin|Hnin].
  - rewrite (bool_decide_eq_true_2 (tag ∈ old)) by done.
    assert (tag ∉ List.filter (λ t, negb (bool_decide (t = tag))) old) as Hout
      by (rewrite elem_of_filter_ne; by intros [_ ?]).
    rewrite (bool_decide_eq_false_2 _ Hout).
    repeat split; try done.
    + intros [? _]%elem_of_filter_ne. done.
    + intros ?. by apply elem_of_filter_ne.
    + apply NoDup_filter_bool.
  - rewrite (bool_decide_eq_false_2 (tag ∈ old)) by done.
    assert (tag ∈ old ++ [tag]) as Hnow by (apply elem_of_app; right; by left).
    rewrite (bool_decide_eq_true_2 _ Hnow).
    repeat split; try done.
    + rewrite elem_of_app, list_elem_of_singleton. intros [?|?]; done.
    + intros ?. apply elem_of_app. by left.
    + intros Hd. apply NoDup_app. split; [done|]. split; [|apply NoDup_singleton].
      by intros x Hx ->%list_elem_of_singleton.
    + rewrite List.filter_app. f_equal. f_equal.
      cbn [List.filter]. by rewrite (bool_decide_eq_true_2 (tag = tag)).
Qed.

(** ** The post of the day *)

(** X13: [getTodaysPost] is undefined only for an empty list; otherwise it
    is a post of the list: the first one dated today when there is one, the
    first post of the list when there is none. *)
Theorem getTodaysPost_choice (today : jsstring) (filteredPosts : list SocialMediaPost) :
  (Ui.getTodaysPost today filteredPosts = None ↔ filteredPosts = [])
  ∧ (∀ post, Ui.getTodaysPost today filteredPosts = Some post →
       post ∈ filteredPosts
       ∧ ((date post = today
           ∧ ∃ before after, filteredPosts = before ++ post :: after
                             ∧ Forall (λ p, date p ≠ today) before)
          ∨ (Forall (λ p, date p ≠ today) filteredPosts
             ∧ head filteredPosts = Some post))).
Proof.
  unfold Ui.getTodaysPost.
  assert (∀ l, match List.find (λ post, bool_decide (date post = today)) l with
               | Some post =>
                 date post = today
                 ∧ ∃ before after, l = before ++ post :: after
                                   ∧ Forall (λ p, date p ≠ today) before
               | None => Forall (λ p, date p ≠ today) l
               end) as Hfind.
  { induction l as [|p l IH]; simpl; [constructor|].
    case_bool_decide as Hp.
    - split; [done|]. by exists [], l.
    - destruct (List.find _ l) as [q|].
      + destruct IH as (Hq & before & after & -> & Hb).
        split; [done|]. exists (p :: before), after. split; [done|]. by constructor.
      + by constructor. }
  specialize (Hfind filteredPosts).
  destruct (List.find _ filteredPosts) as [q|] eqn:E.
  - split.
    + split; [done|]. intros ->. done.
    + intros post [= <-]. destruct Hfind as (Hq & before & after & -> & Hb).
      split; [apply elem_of_app; right; by left|]. left. split; [done|]. eauto.
  - split.
    + destruct filteredPosts; [done|]. split; done.
    + intros post Hp. split; [by apply list_elem_of_lookup_2 in Hp|].
      right. split; [done|]. by rewrite head_lookup.
Qed.

(** ** Every run of getAllPosts *)

Lemma getAllPosts_cases w m :
  (∃ entry, cache m !! "all_posts" = Some entry
            ∧ (clock w (length (log m)) - timestamp entry < CACHE_DURATION)%Z)
  ∨ stale w m.
Proof.
  destruct (cache m !! "all_posts") as [entry|] eqn:E.
  - destruct (Z.lt_ge_cases (clock w (length (log m)) - timestamp entry) CACHE_DURATION).
    + left. eauto.
    + right. intros e He. rewrite E in He. by injection He as <-.
  - right. intros e He. by rewrite E in He.
Qed.

Lemma Service_hit_run w m entry :
  cache m !! "all_posts" = Some entry →
  (clock w (length (log m)) - timestamp entry < CACHE_DURATION)%Z →
  Service.getAllPosts w m =
  (Returned (data entry), {| cache := cache m; log := log m ++ [ClockRead] |}).
Proof.
  apply (cache_hit_run Service.fetchRealTwitterData Service.fetchRealRSSFeeds
           Service.getMockData).
Qed.

(** X14: [getAllPosts] always returns a list and never throws.  A call
    adds at most four interactions with the host, of which at most two are
    requests; it leaves every cache key other than "all_posts" alone and
    never removes the entry "all_posts". *)
Theorem getAllPosts_always_returns (w : World) (m : Machine) :
  ∃ posts m' calls,
    Service.getAllPosts w m = (Returned posts, m')
    ∧ log m' = log m ++ calls
    ∧ length calls ≤ 4
    ∧ length (List.filter isFetch calls) ≤ 2
    ∧ (∀ key, key ≠ "all_posts"%string → cache m' !! key = cache m !! key)
    ∧ (is_Some (cache m !! "all_posts") → is_Some (cache m' !! "all_posts")).
Proof.
  destruct (getAllPosts_cases w m) as [(entry & Hc & Hf)|Hs].
  - rewrite (Service_hit_run w m entry) by done.
    eexists _, _, [ClockRead]. split; [reflexivity|]. simpl. repeat split; auto.
  - rewrite (Service_refresh_run w m Hs). cbv zeta.
    destruct (fetched w m) as [|p l] eqn:Ef.
    + destruct (cache m !! "all_posts") as [entry|] eqn:Hc.
      * eexists _, _, _. split; [reflexivity|]. simpl. rewrite <- app_assoc.
        split; [reflexivity|]. simpl. rewrite Hc. repeat split; auto.
      * destruct (Service_getMockData_run w
          {| cache := cache m;
             log := (log m ++ []) ++ [Fetch twitter_endpoint; Fetch rss_endpoint] |})
          as (posts & -> & _).
        eexists _, _, _. split; [reflexivity|]. simpl. rewrite <- !app_assoc.
        split; [reflexivity|]. simpl. rewrite Hc. repeat split; auto.
    + eexists _, _, _. split; [reflexivity|]. simpl. rewrite <- !app_assoc.
      split; [reflexivity|]. simpl.
      split; [destruct (cache m !! "all_posts"); simpl; lia|].
      split; [destruct (cache m !! "all_posts"); simpl; lia|].
      split; [intros key Hkey; by rewrite lookup_insert_ne|].
      intros _. rewrite lookup_insert_eq. eauto.
Qed.

(** X15: what the cache holds after a call is either what it held before
    or the list just returned, and then that list is not empty and is a
    rearrangement of what the adapters delivered: the fallback posts and
    empty results are never stored. *)
Theorem getAllPosts_cache_integrity (w : World) (m : Machine) :
  let run := Service.getAllPosts w m in
  cache run.2 = cache m
  ∨ ∃ posts now,
      run.1 = Returned posts
      ∧ cache run.2 = <["all_posts" := {| data := posts; timestamp := now |}]> (cache m)
      ∧ posts ≠ []
      ∧ posts ≡ₚ fetched w m.
Proof.
  cbv zeta. destruct (getAllPosts_cases w m) as [(entry & Hc & Hf)|Hs].
  - rewrite (Service_hit_run w m entry) by done. by left.
  - rewrite (Service_refresh_run w m Hs). cbv zeta.
    destruct (fetched w m) as [|p l] eqn:Ef.
    + left. destruct (cache m !! "all_posts") as [entry|]; [done|].
      by destruct (Service_getMockData_run w
          {| cache := cache m;
             log := (log m ++ []) ++ [Fetch twitter_endpoint; Fetch rss_endpoint] |})
          as (posts & -> & _).
    + right. eexists _, _. split; [reflexivity|]. split; [reflexivity|].
      split; [|apply arraySort_perm].
      intros E. pose proof (arraySort_perm (byDateDesc w) (p :: l)) as Hp.
      rewrite E in Hp. by apply Permutation_nil_cons in Hp.
Qed.

(** X16: a call that follows a refresh before five minutes have passed on
    the clock returns the list of the refresh again, sends no request and
    leaves the cache as the refresh left it. *)
Theorem getAllPosts_repeat (w : World) (m : Machine) :
  stale w m → fetched w m ≠ [] →
  (clock w (length (log (Service.getAllPosts w m).2))
   - clock w (pred (length (log (Service.getAllPosts w m).2)))
   < CACHE_DURATION)%Z →
  Service.getAllPosts w (Service.getAllPosts w m).2 =
  ((Service.getAllPosts w m).1,
   {| cache := cache (Service.getAllPosts w m).2;
      log := log (Service.getAllPosts w m).2 ++ [ClockRead] |}).
Proof.
  intros Hs Hne. rewrite (Service_refresh_run w m Hs). cbv zeta.
  destruct (fetched w m) as [|p l] eqn:Ef; [done|]. simpl. intros Hclock.
  erewrite Service_hit_run; [|apply lookup_insert_eq|]; [reflexivity|].
  cbn [timestamp log]. replace (S (S (refreshStart m)))
    with (pred (length (((log m ++ (if cache m !! "all_posts" is Some _
                                     then [ClockRead] else []))
                         ++ [Fetch twitter_endpoint; Fetch rss_endpoint]) ++ [ClockRead])));
    [done|].
  unfold refreshStart. rewrite !length_app.
  destruct (cache m !! "all_posts"); simpl; lia.
Qed.

Lemma getAllPosts_repeat_witness :
  stale (twitterOnly [post_jan; post_feb] t0) machine0
  ∧ fetched (twitterOnly [post_jan; post_feb] t0) machine0 ≠ []
  ∧ Service.getAllPosts (twitterOnly [post_jan; post_feb] t0)
      (Service.getAllPosts (twitterOnly [post_jan; post_feb] t0) machine0).2
    = ((Service.getAllPosts (twitterOnly [post_jan; post_feb] t0) machine0).1,
       {| cache := cache (Service.getAllPosts (twitterOnly [post_jan; post_feb] t0) machine0).2;
          log := log (Service.getAllPosts (twitterOnly [post_jan; post_feb] t0) machine0).2
                 ++ [ClockRead] |}).
Proof.
  assert (stale (twitterOnly [post_jan; post_feb] t0) machine0) as H1
    by (intros entry H; vm_compute in H; discriminate H).
  assert (fetched (twitterOnly [post_jan; post_feb] t0) machine0 ≠ []) as H2
    by (vm_compute; discriminate).
  assert ((clock (twitterOnly [post_jan; post_feb] t0)
             (length (log (Service.getAllPosts (twitterOnly [post_jan; post_feb] t0) machine0).2))
           - clock (twitterOnly [post_jan; post_feb] t0)
               (pred (length (log (Service.getAllPosts (twitterOnly [post_jan; post_feb] t0)
                                     machine0).2)))
           < CACHE_DURATION)%Z) as H3
    by (vm_compute; reflexivity).
  split; [exact H1|]. split; [exact H2|].
  exact (getAllPosts_repeat (twitterOnly [post_jan; post_feb] t0) machine0 H1 H2 H3).
Defined.

(** ** The feed function *)

Lemma parseRSSItem_run h t item feed index :
  ∃ r events,
    FeedFunction.parseRSSItem item feed index h t = (FeedFunction.Done r, t ++ events)
    ∧ FeedFunction.requests events = []
    ∧ FeedFunction.waits events = []
    ∧ match r with
      | Some post =>
        FeedFunction.kept h item = true
        ∧ content post = FeedFunction.itemContent item
        ∧ summary post = generateSummary (content post)
        ∧ tags post = RssFeeds.extractTags (content post)
        ∧ category post = Some (FunctionCategories.categorizeContent (content post))
        ∧ platform post = FeedFunction.platformTypeOf feed
      | None => FeedFunction.kept h item = false
      end.
Proof.
  unfold FeedFunction.parseRSSItem, FeedFunction.kept, FeedFunction.itemContent.
  set (text := cleanContent _).
  unfold FeedFunction.attempt.
  destruct (truthy text) eqn:Et; cbn [negb orb].
  - destruct (length text <? 10) eqn:El.
    + exists None, []. rewrite app_nil_r. repeat split.
      apply Nat.ltb_lt in El. apply andb_false_intro1, Nat.leb_gt. done.
    + apply Nat.ltb_ge, Nat.leb_le in El. rewrite El. cbn [andb].
      destruct (truthy (default [] (FeedFunction.pubDate item))) eqn:Ep; cbn [negb orb].
      * destruct (dateParse (FeedFunction.calendar h) (default [] (FeedFunction.pubDate item)))
          as [instant|] eqn:Ed;
          cbv beta iota delta [FeedFunction.andThen FeedFunction.askHost FeedFunction.pure
                               FeedFunction.now FeedFunction.raise
                               FeedFunction.generateRealisticEngagement];
          rewrite Ed; cbv beta iota.
        -- rewrite <- app_assoc. eexists _, _. split; [reflexivity|].
           cbv beta iota. repeat split.
        -- exists None, []. rewrite app_nil_r. repeat split.
      * cbv beta iota delta [FeedFunction.andThen FeedFunction.askHost FeedFunction.pure
                             FeedFunction.now FeedFunction.raise
                             FeedFunction.generateRealisticEngagement].
        rewrite <- !app_assoc. eexists _, _. split; [reflexivity|].
        cbv beta iota. repeat split.
  - exists None, []. rewrite app_nil_r. repeat split.
    destruct text; [done|discriminate Et].
Qed.

Lemma requests_app a b :
  FeedFunction.requests (a ++ b) = FeedFunction.requests a ++ FeedFunction.requests b.
Proof. apply omap_app. Qed.

Lemma waits_app a b :
  FeedFunction.waits (a ++ b) = FeedFunction.waits a ++ FeedFunction.waits b.
Proof. apply omap_app. Qed.

Lemma forEachItem_run h feed items : ∀ index posts t,
  ∃ added events,
    FeedFunction.forEachItem feed items index posts h t
    = (FeedFunction.Done (posts ++ added), t ++ events)
    ∧ FeedFunction.requests events = []
    ∧ FeedFunction.waits events = []
    ∧ content <$> added
      = FeedFunction.itemContent <$> List.filter (FeedFunction.kept h) items
    ∧ Forall (λ post,
        summary post = generateSummary (content post)
        ∧ tags post = RssFeeds.extractTags (content post)
        ∧ category post = Some (FunctionCategories.categorizeContent (content post))
        ∧ platform post = FeedFunction.platformTypeOf feed) added.
Proof.
  induction items as [|item rest IH]; intros index posts t.
  - exists [], []. rewrite !app_nil_r. repeat split. constructor.
  - cbn [FeedFunction.forEachItem List.filter].
    unfold FeedFunction.andThen at 1. unfold FeedFunction.attempt, FeedFunction.andThen at 1.
    destruct (parseRSSItem_run h t item feed index) as (r & ev & -> & Hr & Hw & Hpost).
    destruct r as [post|].
    + destruct Hpost as (-> & Hc & Hfields).
      cbv beta iota delta [FeedFunction.pure].
      destruct (IH (S index) (posts ++ [post]) (t ++ ev)) as (added & ev' & -> & Hr' & Hw' & Hc' & Hf').
      exists (post :: added), (ev ++ ev'). rewrite <- !app_assoc.
      split; [done|]. rewrite requests_app, waits_app, Hr, Hw, Hr', Hw'.
      repeat split; [|by constructor].
      cbn. by rewrite Hc, Hc'.
    + rewrite Hpost. cbv beta iota delta [FeedFunction.pure].
      destruct (IH (S index) posts (t ++ ev)) as (added & ev' & -> & Hr' & Hw' & Hc' & Hf').
      exists added, (ev ++ ev'). rewrite <- !app_assoc.
      split; [done|]. rewrite requests_app, waits_app, Hr, Hw, Hr', Hw'. done.
Qed.

Lemma fetchRSSFeed_run h t url feed :
  ∃ r events,
    FeedFunction.fetchRSSFeed url feed h t = (r, t ++ FeedFunction.Request url :: events)
    ∧ FeedFunction.requests events = []
    ∧ FeedFunction.waits events = []
    ∧ match r with
      | FeedFunction.Done posts =>
        ∃ status xmlText items,
          FeedFunction.respond h (length t) url
          = FeedFunction.Responded true status (Some xmlText)
          ∧ trim xmlText ≠ []
          ∧ FeedFunction.parseFromString h xmlText = FeedFunction.Document items
          ∧ content <$> posts
            = take 15 (FeedFunction.itemContent <$> List.filter (FeedFunction.kept h) items)
          ∧ Forall (λ post,
              summary post = generateSummary (content post)
              ∧ tags post = RssFeeds.extractTags (content post)
              ∧ category post = Some (FunctionCategories.categorizeContent (content post))
              ∧ platform post = FeedFunction.platformTypeOf feed) posts
      | FeedFunction.Raised e =>
        e ≠ FeedFunction.RangeError
        ∧ (∀ name n, e ≠ FeedFunction.GaveUp name n)
        ∧ ∀ status xmlText items,
            FeedFunction.respond h (length t) url
            = FeedFunction.Responded true status (Some xmlText) →
            FeedFunction.parseFromString h xmlText = FeedFunction.Document items →
            trim xmlText = []
      end.
Proof.
  unfold FeedFunction.fetchRSSFeed.
  cbv beta iota delta [FeedFunction.andThen FeedFunction.fetchUrl FeedFunction.askHost
                       FeedFunction.raise].
  destruct (FeedFunction.respond h (length t) url) as [|message|ok status text] eqn:Er.
  - eexists _, []. split; [reflexivity|]. repeat split; done.
  - eexists _, []. split; [reflexivity|]. repeat split; done.
  - destruct ok; cbn [negb].
    2: { eexists _, []. split; [reflexivity|]. repeat split; done. }
    destruct text as [xmlText|].
    2: { eexists _, []. split; [reflexivity|]. repeat split; done. }
    destruct (negb (truthy xmlText) || (length (trim xmlText) =? 0)) eqn:Eempty.
    { eexists _, []. split; [reflexivity|]. repeat split; try done.
      intros ? ? ? [= <- <-] _. apply orb_true_iff in Eempty as [E|E].
      - by destruct xmlText.
      - apply Nat.eqb_eq in E. by destruct (trim xmlText). }
    apply orb_false_elim in Eempty as [_ Etrim]. apply Nat.eqb_neq in Etrim.
    destruct (FeedFunction.parseFromString h xmlText) as [message|textContent|items] eqn:Ep.
    { eexists _, []. split; [reflexivity|]. repeat split; try done.
      intros ? ? ? [= <- <-] E. by rewrite Ep in E. }
    { eexists _, []. split; [reflexivity|]. repeat split; try done.
      intros ? ? ? [= <- <-] E. by rewrite Ep in E. }
    destruct (forEachItem_run h feed items 0 [] (t ++ [FeedFunction.Request url]))
      as (added & ev & -> & Hr & Hw & Hc & Hf).
    cbv beta iota delta [FeedFunction.pure]. rewrite <- app_assoc.
    eexists _, ev. split; [reflexivity|]. split; [done|]. split; [done|].
    exists status, xmlText, items. split; [done|].
    split; [by destruct (trim xmlText)|]. split; [done|].
    rewrite app_nil_l, fmap_take, Hc. split; [done|].
    by apply Forall_take.
Qed.


Lemma requests_request url events :
  FeedFunction.requests (FeedFunction.Request url :: events)
  = url :: FeedFunction.requests events.
Proof. reflexivity. Qed.

Lemma requests_wait ms events :
  FeedFunction.requests (FeedFunction.Wait ms :: events) = FeedFunction.requests events.
Proof. reflexivity. Qed.

Lemma waits_request url events :
  FeedFunction.waits (FeedFunction.Request url :: events) = FeedFunction.waits events.
Proof. reflexivity. Qed.

Lemma waits_wait ms events :
  FeedFunction.waits (FeedFunction.Wait ms :: events) = ms :: FeedFunction.waits events.
Proof. reflexivity. Qed.

Lemma retryLoop_run h url feed maxRetries : ∀ remaining attemptNo lastError t,
  attemptNo + remaining = S maxRetries →
  ∃ r events k,
    FeedFunction.retryLoop url feed maxRetries remaining attemptNo lastError h t
    = (r, t ++ events)
    ∧ FeedFunction.requests events = replicate k url
    ∧ FeedFunction.waits events = (λ i, 1000 * Z.of_nat i)%Z <$> seq attemptNo (k - 1)
    ∧ k ≤ remaining
    ∧ match r with
      | FeedFunction.Done _ => 1 ≤ k
      | FeedFunction.Raised e =>
        k = remaining
        ∧ (remaining = 0 → e = default (FeedFunction.GaveUp feed maxRetries) lastError)
      end
    ∧ (0 < remaining →
       ∃ before, FeedFunction.fetchRSSFeed url feed h (t ++ before) = (r, t ++ events)).
Proof.
  induction remaining as [|remaining IH]; intros attemptNo lastError t Hinv.
  - eexists _, [], 0. rewrite app_nil_r. split; [reflexivity|].
    repeat split; try done. lia.
  - cbn [FeedFunction.retryLoop]. unfold FeedFunction.attempt.
    destruct (fetchRSSFeed_run h t url feed) as (r1 & ev1 & E1 & Hr1 & Hw1 & _).
    rewrite E1. destruct r1 as [posts|e].
    + eexists _, _, 1. split; [reflexivity|].
      rewrite requests_request, waits_request, Hr1, Hw1.
      repeat split; try done; try lia.
      intros _. exists []. by rewrite app_nil_r.
    + cbv beta iota delta [FeedFunction.andThen].
      destruct (attemptNo <? maxRetries) eqn:Ea.
      * apply Nat.ltb_lt in Ea. cbv beta iota delta [FeedFunction.sleep].
        destruct (IH (S attemptNo) (Some e)
                    ((t ++ FeedFunction.Request url :: ev1)
                     ++ [FeedFunction.Wait (1000 * Z.of_nat attemptNo)]))
          as (r & ev & k & -> & Hr & Hw & Hk & Hres & Hlast); [lia|].
        assert (1 ≤ k) as Hk1 by (destruct r as [?|?]; [done|]; destruct Hres; lia).
        exists r, (FeedFunction.Request url :: ev1
                   ++ FeedFunction.Wait (1000 * Z.of_nat attemptNo) :: ev), (S k).
        split; [by rewrite <- !app_assoc|].
        rewrite requests_request, waits_request, requests_app, waits_app,
          requests_wait, waits_wait, Hr1, Hw1, Hr, Hw.
        split; [done|]. split.
        { replace (S k - 1) with (S (k - 1)) by lia. done. }
        split; [lia|]. split.
        { destruct r as [?|?]; [lia|]. destruct Hres. split; [lia|done]. }
        intros _. destruct Hlast as [before Hbefore]; [lia|].
        exists (FeedFunction.Request url :: ev1
                ++ FeedFunction.Wait (1000 * Z.of_nat attemptNo) :: before).
        rewrite <- !app_assoc in Hbefore. cbn [app] in Hbefore.
        rewrite <- ?app_assoc in Hbefore. cbn [app] in Hbefore.
        rewrite <- ?app_assoc. cbn [app]. exact Hbefore.
      * apply Nat.ltb_ge in Ea. assert (remaining = 0) as -> by lia.
        cbv beta iota delta [FeedFunction.pure FeedFunction.retryLoop FeedFunction.raise].
        cbn [default]. eexists _, _, 1. split; [reflexivity|].
        rewrite requests_request, waits_request, Hr1, Hw1.
        repeat split; try done.
        intros _. exists []. by rewrite app_nil_r.
Qed.

Lemma generateSummary_length content : length (generateSummary content) ≤ 151.
Proof.
  rewrite generateSummary_cases. case_bool_decide as H; rewrite length_app.
  - change (length (js ".")) with 1. lia.
  - rewrite length_take. change (length (js "...")) with 3. lia.
Qed.

Lemma fetchRSSFeed_done h t url feed posts t' :
  FeedFunction.fetchRSSFeed url feed h t = (FeedFunction.Done posts, t') →
  length posts ≤ 15
  ∧ Forall (λ post,
      10 ≤ length (content post) ≤ 500
      ∧ length (summary post) ≤ 151
      ∧ length (tags post) ≤ 5
      ∧ platform post = FeedFunction.platformTypeOf feed) posts.
Proof.
  intros E. destruct (fetchRSSFeed_run h t url feed) as (r & ev & E' & _ & _ & Hr).
  rewrite E in E'. injection E' as <- _.
  destruct Hr as (status & xmlText & items & _ & _ & _ & Hc & Hf).
  split.
  - rewrite <- (length_fmap content), Hc, length_take. lia.
  - apply Forall_forall. intros post Hin.
    pose proof (proj1 (Forall_forall _ _) Hf post Hin) as (Hs & Ht & _ & Hp).
    assert (content post ∈ content <$> posts) as Hin' by (by apply list_elem_of_fmap_2).
    rewrite Hc in Hin'. apply elem_of_take_inv in Hin'.
    apply list_elem_of_fmap in Hin' as (item & Hitem & Hkept).
    apply elem_of_filter in Hkept as [_ Hkept].
    unfold FeedFunction.kept in Hkept. apply andb_true_iff in Hkept as [Hlen _].
    apply Nat.leb_le in Hlen. rewrite Hitem. split.
    { split; [done|]. apply cleanContent_length. }
    rewrite Hs, Ht. split; [apply generateSummary_length|]. split; [|done].
    unfold RssFeeds.extractTags. rewrite length_take. lia.
Qed.

(** X17: one download of a feed.  [fetchRSSFeed] sends exactly one request
    and never waits.  It returns posts exactly when the response is ok, its
    text is not blank and the parser gives a document; the contents of the
    posts are then the cleaned texts of the items that have at least ten
    code units of content and no unreadable date, in document order, cut
    after fifteen, and each post carries the summary, tags, category and
    platform computed from its content and the feed name.  An item that
    cannot be turned into a post never makes the download fail. *)
Theorem fetchRSSFeed_posts (h : FeedFunction.Host) (t : list FeedFunction.Event)
    (url : string) (feed : jsstring) :
  ∃ events,
    (FeedFunction.fetchRSSFeed url feed h t).2 = t ++ FeedFunction.Request url :: events
    ∧ FeedFunction.requests events = []
    ∧ FeedFunction.waits events = []
    ∧ match (FeedFunction.fetchRSSFeed url feed h t).1 with
      | FeedFunction.Done posts =>
        ∃ status xmlText items,
          FeedFunction.respond h (length t) url
          = FeedFunction.Responded true status (Some xmlText)
          ∧ trim xmlText ≠ []
          ∧ FeedFunction.parseFromString h xmlText = FeedFunction.Document items
          ∧ content <$> posts
            = take 15 (FeedFunction.itemContent <$> List.filter (FeedFunction.kept h) items)
          ∧ Forall (λ post,
              10 ≤ length (content post) ≤ 500
              ∧ summary post = generateSummary (content post)
              ∧ tags post = RssFeeds.extractTags (content post)
              ∧ length (tags post) ≤ 5
              ∧ category post = Some (FunctionCategories.categorizeContent (content post))
              ∧ platform post = FeedFunction.platformTypeOf feed) posts
      | FeedFunction.Raised e =>
        e ≠ FeedFunction.RangeError
        ∧ ∀ status xmlText items,
            FeedFunction.respond h (length t) url
            = FeedFunction.Responded true status (Some xmlText) →
            FeedFunction.parseFromString h xmlText = FeedFunction.Document items →
            trim xmlText = []
      end.
Proof.
  destruct (fetchRSSFeed_run h t url feed) as (r & ev & E & Hr & Hw & Hres).
  exists ev. rewrite E. cbn [fst snd]. split; [done|]. split; [done|]. split; [done|].
  destruct r as [posts|e].
  - destruct Hres as (status & xmlText & items & H1 & H2 & H3 & H4 & H5).
    exists status, xmlText, items. repeat (split; [done|]).
    destruct (fetchRSSFeed_done _ _ _ _ _ _ E) as [_ Hb].
    apply Forall_forall. intros post Hin.
    pose proof (proj1 (Forall_forall _ _) H5 post Hin) as (? & ? & ? & ?).
    pose proof (proj1 (Forall_forall _ _) Hb post Hin) as (? & ? & ? & ?).
    done.
  - destruct Hres as (? & ? & ?). done.
Qed.

(** The run on the example feed: of the four items the short one and the one
    with the unreadable date are left out. *)
Example fetchRSSFeed_example :
  content <$> default [] (match (FeedFunction.fetchRSSFeed "u" (js "instagram")
                                   (feedHost feed_up) []).1 with
                          | FeedFunction.Done posts => Some posts
                          | FeedFunction.Raised _ => None
                          end)
  = [js "Metro hattı açıldı, yeni bir dönem başlıyor."; js "Parklar bahçeler yenileniyor."].
Proof. vm_compute. reflexivity. Qed.

(** X18: the retries.  With [maxRetries = n], [fetchRSSFeedWithRetry] makes
    [k ≤ n] downloads of the same address and waits 1000, 2000, ...,
    1000·(k-1) milliseconds between them, so the waits grow linearly and
    there is none after the last download.  It returns as soon as a
    download returns ([k ≥ 1]); it throws only after [n] downloads, and what
    it then throws, like what it returns, is the result of the last
    download; with [n = 0] nothing is downloaded and the error of its own
    is thrown. *)
Theorem fetchRSSFeedWithRetry_attempts (h : FeedFunction.Host) (t : list FeedFunction.Event)
    (url : string) (feed : jsstring) (maxRetries : nat) :
  ∃ r events k,
    FeedFunction.fetchRSSFeedWithRetry url feed maxRetries h t = (r, t ++ events)
    ∧ FeedFunction.requests events = replicate k url
    ∧ FeedFunction.waits events = (λ i, 1000 * Z.of_nat i)%Z <$> seq 1 (k - 1)
    ∧ k ≤ maxRetries
    ∧ match r with
      | FeedFunction.Done _ => 1 ≤ k
      | FeedFunction.Raised e =>
        k = maxRetries ∧ (maxRetries = 0 → e = FeedFunction.GaveUp feed 0)
      end
    ∧ (0 < maxRetries →
       ∃ before, FeedFunction.fetchRSSFeed url feed h (t ++ before) = (r, t ++ events)).
Proof.
  unfold FeedFunction.fetchRSSFeedWithRetry.
  destruct (retryLoop_run h url feed maxRetries maxRetries 1 None t eq_refl)
    as (r & events & k & E & Hr & Hw & Hk & Hres & Hlast).
  exists r, events, k. repeat (split; [done|]). split; [|done].
  destruct r as [posts|e]; [done|]. destruct Hres as [-> He]. split; [done|].
  intros Hz. rewrite (He Hz), Hz. done.
Qed.

(** A feed whose first two downloads time out: three requests, waits of one
    and two seconds, and the posts of the third download. *)
Example fetchRSSFeedWithRetry_flaky :
  let run := FeedFunction.fetchRSSFeedWithRetry "u" (js "facebook") 3 (feedHost feed_flaky) [] in
  FeedFunction.requests run.2 = ["u"; "u"; "u"]%string
  ∧ FeedFunction.waits run.2 = [1000; 2000]%Z
  ∧ (if run.1 is FeedFunction.Done posts then content <$> posts else [])
    = [js "Metro hattı açıldı, yeni bir dönem başlıyor."; js "Parklar bahçeler yenileniyor."].
Proof. vm_compute. repeat split. Qed.

(** A feed that is down: three requests, two waits, and the error of the
    last download. *)
Example fetchRSSFeedWithRetry_down :
  let run := FeedFunction.fetchRSSFeedWithRetry "u" (js "facebook") 3 (feedHost feed_down) [] in
  FeedFunction.requests run.2 = ["u"; "u"; "u"]%string
  ∧ FeedFunction.waits run.2 = [1000; 2000]%Z
  ∧ run.1 = FeedFunction.Raised (FeedFunction.HttpError 503 (js "facebook")).
Proof. vm_compute. repeat split. Qed.

Lemma retry_waits_total k :
  k ≤ 3 → (0 ≤ foldr Z.add 0 ((λ i, 1000 * Z.of_nat i) <$> seq 1 (k - 1)) ≤ 3000)%Z.
Proof.
  intros Hk. destruct k as [|[|[|[|k]]]]; [done..|lia].
Qed.

Lemma foldr_add_app (a b : list Z) :
  foldr Z.add 0%Z (a ++ b) = (foldr Z.add 0 a + foldr Z.add 0 b)%Z.
Proof. induction a as [|x a IH]; simpl; lia. Qed.

Lemma forEachFeed_run h feeds : ∀ allPosts t,
  ∃ added events,
    FeedFunction.forEachFeed feeds allPosts h t
    = (FeedFunction.Done (allPosts ++ added), t ++ events)
    ∧ length feeds ≤ length (FeedFunction.requests events) ≤ 3 * length feeds
    ∧ Forall (λ url, url ∈ feeds.*2) (FeedFunction.requests events)
    ∧ (0 ≤ foldr Z.add 0 (FeedFunction.waits events) ≤ 3000 * Z.of_nat (length feeds))%Z
    ∧ length added ≤ 15 * length feeds
    ∧ Forall (λ post,
        10 ≤ length (content post) ≤ 500
        ∧ length (summary post) ≤ 151
        ∧ length (tags post) ≤ 5
        ∧ ∃ feed, feed ∈ feeds.*1 ∧ platform post = FeedFunction.platformTypeOf feed) added.
Proof.
  induction feeds as [|[feed url] rest IH]; intros allPosts t.
  - exists [], []. rewrite !app_nil_r. repeat split; try done; constructor.
  - cbn [FeedFunction.forEachFeed].
    unfold FeedFunction.andThen at 1. unfold FeedFunction.attempt, FeedFunction.andThen at 1.
    unfold FeedFunction.fetchRSSFeedWithRetry.
    destruct (retryLoop_run h url feed 3 3 1 None t eq_refl)
      as (r & ev & k & -> & Hr & Hw & Hk & Hres & Hlast).
    destruct (retry_waits_total k Hk) as [Hw0 Hw1]. rewrite <- Hw in Hw0, Hw1.
    assert (1 ≤ k) as Hk1 by (destruct r as [?|?]; [done|]; destruct Hres; lia).
    assert (Forall (λ u, u ∈ ((feed, url) :: rest).*2) (replicate k url)) as Hurl.
    { apply Forall_forall. intros u ->%elem_of_replicate_inv. cbn. left. }
    destruct r as [posts|e]; cbv beta iota delta [FeedFunction.pure].
    + destruct Hlast as [before Hbefore]; [lia|].
      apply fetchRSSFeed_done in Hbefore as [Hlen Hposts].
      assert ((if 0 <? length posts then allPosts ++ posts else allPosts)
              = allPosts ++ posts) as ->.
      { destruct posts; [by rewrite app_nil_r|done]. }
      destruct (IH (allPosts ++ posts) (t ++ ev))
        as (added & ev' & -> & Hreq & Hurls & Hwait & Hadded & Hf).
      exists (posts ++ added), (ev ++ ev'). rewrite <- !app_assoc. split; [done|].
      rewrite requests_app, waits_app, foldr_add_app, !length_app, Hr, length_replicate.
      cbn [length]. split; [lia|]. split.
      { apply Forall_app. split; [done|].
        eapply Forall_impl; [exact Hurls|]. intros u Hu. cbn. by right. }
      split; [lia|]. split; [lia|].
      apply Forall_app. split.
      * eapply Forall_impl; [exact Hposts|]. intros post (? & ? & ? & ?).
        repeat (split; [done|]). exists feed. split; [cbn; left|done].
      * eapply Forall_impl; [exact Hf|]. intros post (? & ? & ? & f & Hin & ?).
        repeat (split; [done|]). exists f. split; [cbn; by right|done].
    + destruct (IH allPosts (t ++ ev))
        as (added & ev' & -> & Hreq & Hurls & Hwait & Hadded & Hf).
      exists added, (ev ++ ev'). rewrite <- !app_assoc. split; [done|].
      rewrite requests_app, waits_app, foldr_add_app, !length_app, Hr, length_replicate.
      cbn [length]. split; [lia|]. split.
      { apply Forall_app. split; [done|].
        eapply Forall_impl; [exact Hurls|]. intros u Hu. cbn. by right. }
      split; [lia|]. split; [lia|].
      eapply Forall_impl; [exact Hf|]. intros post (? & ? & ? & f & Hin & ?).
      repeat (split; [done|]). exists f. split; [cbn; by right|done].
Qed.

Lemma feed_platforms feed :
  feed ∈ FeedFunction.RSS_FEEDS.*1 →
  FeedFunction.platformTypeOf feed ∈ [instagram; facebook; youtube].
Proof.
  assert (FeedFunction.platformTypeOf (js "instagram") = instagram) as H1
    by (vm_compute; reflexivity).
  assert (FeedFunction.platformTypeOf (js "facebook") = facebook) as H2
    by (vm_compute; reflexivity).
  assert (FeedFunction.platformTypeOf (js "youtube") = youtube) as H3
    by (vm_compute; reflexivity).
  unfold FeedFunction.RSS_FEEDS. rewrite !fmap_cons, fmap_nil. cbn [fst].
  rewrite !elem_of_cons. intros [->|[->|[->|Hin]]].
  - rewrite H1. auto.
  - rewrite H2. auto.
  - rewrite H3. auto.
  - by apply elem_of_nil in Hin.
Qed.

(** X19: the handler.  A preflight request is answered at once.  Any other
    request is answered with status 200 and [success: true], never with the
    error answer: [count] is the length of [data], there are at most 45
    posts, each of platform instagram, facebook or youtube and with 10 to 500
    code units of content; between three and nine downloads were made, all
    from the three feed addresses, and the waits between retries add up to
    at most nine seconds.  When the stamps of all posts can be read, [data]
    is in descending order of time. *)
Theorem serve_always_answers (h : FeedFunction.Host) (t : list FeedFunction.Event)
    (method : jsstring) :
  ∃ reply events,
    FeedFunction.serve method h t = (FeedFunction.Done reply, t ++ events)
    ∧ (method = js "OPTIONS" → reply = FeedFunction.Preflight ∧ events = [])
    ∧ (method ≠ js "OPTIONS" →
       ∃ data lastUpdated,
         reply = FeedFunction.Success data (length data) lastUpdated
         ∧ length data ≤ 45
         ∧ Forall (λ post,
             platform post ∈ [instagram; facebook; youtube]
             ∧ 10 ≤ length (content post) ≤ 500) data
         ∧ 3 ≤ length (FeedFunction.requests events) ≤ 9
         ∧ Forall (λ url, url ∈ FeedFunction.RSS_FEEDS.*2) (FeedFunction.requests events)
         ∧ (0 ≤ foldr Z.add 0 (FeedFunction.waits events) ≤ 9000)%Z
         ∧ (Forall (λ post, is_Some (getTime (FeedFunction.calendar h) post)) data →
            StronglySorted (notOlder (FeedFunction.calendar h)) data)).
Proof.
  unfold FeedFunction.serve. case_bool_decide as Hm.
  - exists FeedFunction.Preflight, []. rewrite app_nil_r. by repeat split.
  - unfold FeedFunction.attempt, FeedFunction.andThen at 1.
    destruct (forEachFeed_run h FeedFunction.RSS_FEEDS [] t)
      as (added & ev & -> & Hreq & Hurls & Hwait & Hadded & Hf).
    cbv beta iota delta [FeedFunction.andThen FeedFunction.askHost FeedFunction.now
                         FeedFunction.pure].
    rewrite app_nil_l, <- app_assoc.
    eexists _, _. split; [reflexivity|]. split; [done|]. intros _.
    eexists _, _. split; [reflexivity|].
    pose proof (arraySort_perm (byDateDesc (FeedFunction.calendar h)) added) as Hperm.
    change (length FeedFunction.RSS_FEEDS) with 3 in *.
    split; [rewrite Hperm; lia|]. split.
    { rewrite Hperm. eapply Forall_impl; [exact Hf|].
      intros post (? & _ & _ & f & Hin & ->). split; [|done].
      by apply feed_platforms. }
    rewrite requests_app, waits_app, foldr_add_app, length_app.
    change (FeedFunction.requests [FeedFunction.Now]) with (@nil string).
    change (FeedFunction.waits [FeedFunction.Now]) with (@nil Z).
    rewrite !app_nil_r. cbn [length foldr].
    split; [lia|]. split.
    { done. }
    split; [lia|].
    intros Hdated. apply arraySort_sorted. by rewrite <- Hperm.
Qed.

(** The handler on the example feed when every download fails: nine
    requests, six waits, and an empty list with status 200. *)
Example serve_all_down :
  let run := FeedFunction.serve (js "GET") (feedHost feed_down) [] in
  length (FeedFunction.requests run.2) = 9
  ∧ FeedFunction.waits run.2 = [1000; 2000; 1000; 2000; 1000; 2000]%Z
  ∧ ∃ lastUpdated, run.1 = FeedFunction.Done (FeedFunction.Success [] 0 lastUpdated).
Proof. vm_compute. repeat split. eexists. reflexivity. Qed.
(** ** The Twitter function: summaries *)

Lemma noSigil_ext F G s : (∀ c, F c = G c) → noSigil F s = noSigil G s.
Proof. intros H. induction s as [|c s IH]; simpl; [done|]. by rewrite H, IH. Qed.

Lemma noSigil_none s : noSigil (λ _, false) s = true.
Proof. induction s as [|c s IH]; simpl; done. Qed.

Lemma noSigil_tail F c s : noSigil F (c :: s) = true → noSigil F s = true.
Proof. simpl. by intros [_ ?]%andb_true_iff. Qed.

Lemma noSigil_drop F n : ∀ s, noSigil F s = true → noSigil F (drop n s) = true.
Proof.
  induction n as [|n IH]; intros [|c s] H; try done.
  simpl. apply IH. by apply noSigil_tail in H.
Qed.

Lemma noSigil_app F a b :
  noSigil F a = true → noSigil F b = true →
  (∀ d, head b = Some d → isWordChar d = false) →
  noSigil F (a ++ b) = true.
Proof.
  intros Ha Hb Hd. induction a as [|c a IH]; [done|].
  simpl in *. apply andb_true_iff in Ha as [Hc Ha]. rewrite IH by done.
  rewrite andb_true_r. destruct a as [|x a]; [|done]. simpl.
  destruct b as [|d b]; [done|]. rewrite (Hd d) by done. by rewrite andb_false_r.
Qed.

Lemma noSigil_app_l F a b : noSigil F (a ++ b) = true → noSigil F a = true.
Proof.
  induction a as [|c a IH]; [done|]. simpl.
  intros [Hc H]%andb_true_iff. rewrite IH by done. rewrite andb_true_r.
  destruct a as [|x a]; [|done]. by rewrite andb_false_r.
Qed.

Lemma noSigil_take F n s : noSigil F s = true → noSigil F (take n s) = true.
Proof. rewrite <- (take_drop n s) at 1. apply noSigil_app_l. Qed.

Lemma noSigil_app_r F a b : noSigil F (a ++ b) = true → noSigil F b = true.
Proof.
  induction a as [|c a IH]; [done|]. intros H. apply IH. by apply noSigil_tail in H.
Qed.

Lemma noSigil_trim F s : noSigil F s = true → noSigil F (trim s) = true.
Proof.
  intros H. destruct (trim_substring s) as (a & b & E). rewrite E in H.
  by apply noSigil_app_r, noSigil_app_l in H.
Qed.

Lemma strip_head sigil r d :
  isWordChar sigil = false →
  head (replaceAll (rx_sigil sigil) [] r) = Some d → isWordChar d = true →
  head r = Some d.
Proof.
  intros Hsigil. remember (length r) as n eqn:Hn. revert r Hn.
  induction n as [n IH] using lt_wf_ind. intros [|c r] Hn; [done|].
  rewrite replaceAll_cons. unfold rx_sigil.
  destruct (c =? sigil)%N eqn:Ec; [|done].
  destruct (spanLength isWordChar r) as [|k] eqn:Ek; [done|].
  rewrite app_nil_l. intros Hd Hw. exfalso.
  assert (head (drop (S k) r) = Some d) as Hdrop.
  { apply (IH (length (drop (S k) r))); [|done|exact Hd|done].
    rewrite length_drop. subst n. simpl. lia. }
  rewrite <- Ek in Hdrop. apply spanLength_drop in Hdrop. congruence.
Qed.

Lemma strip_noSigil F sigil s :
  isWordChar sigil = false →
  noSigil F s = true →
  noSigil (λ c, F c || (c =? sigil)%N) (replaceAll (rx_sigil sigil) [] s) = true.
Proof.
  intros Hsigil. remember (length s) as n eqn:Hn. revert s Hn.
  induction n as [n IH] using lt_wf_ind. intros [|c r] Hn Hs; [done|].
  rewrite replaceAll_cons.
  destruct (rx_sigil sigil (c :: r)) as [[|k]|] eqn:Erx.
  - unfold rx_sigil in Erx. destruct (c =? sigil)%N; [|done].
    by destruct (spanLength isWordChar r).
  - rewrite app_nil_l. apply (IH (length (drop k r))); [|done|].
    + rewrite length_drop. subst n. simpl. lia.
    + apply noSigil_drop. by apply noSigil_tail in Hs.
  - cbn [noSigil]. rewrite (IH (length r)); [|subst n; simpl; lia|done|by apply noSigil_tail in Hs].
    rewrite andb_true_r. apply negb_true_iff.
    destruct (replaceAll (rx_sigil sigil) [] r) as [|d out] eqn:Eout;
      [by rewrite andb_false_r|].
    destruct (isWordChar d) eqn:Ed; [|by rewrite andb_false_r].
    rewrite andb_true_r.
    assert (head r = Some d) as Hr by (apply (strip_head sigil); [done|by rewrite Eout|done]).
    destruct r as [|x r]; [done|]. injection Hr as ->.
    simpl in Hs. apply andb_true_iff in Hs as [Hc _]. rewrite Ed, andb_true_r in Hc.
    apply negb_true_iff in Hc. rewrite Hc. simpl.
    unfold rx_sigil in Erx. destruct (c =? sigil)%N; [|done].
    simpl in Erx. by rewrite Ed in Erx.
Qed.

Lemma cleanText_sigilFree text : sigilFree (TwitterFunction.cleanText text) = true.
Proof.
  unfold sigilFree, TwitterFunction.cleanText. apply noSigil_trim.
  erewrite noSigil_ext; [apply (strip_noSigil (λ c, false || (c =? ch_at)%N) ch_hash);
                         [done|apply (strip_noSigil (λ _, false) ch_at); [done|]]|done].
  apply noSigil_none.
Qed.

Lemma generateSummary_sigilFree content :
  sigilFree content = true → sigilFree (generateSummary content) = true.
Proof.
  intros H. rewrite generateSummary_cases. unfold sigilFree in *.
  case_bool_decide as Hl.
  - apply noSigil_app; [|done|by intros d [= <-]].
    unfold firstSentence. by apply noSigil_trim, noSigil_take.
  - apply noSigil_app; [by apply noSigil_take|done|by intros d [= <-]].
Qed.

(** X20: the summary of a tweet is the summary the service makes of the
    tweet's text without addresses, mentions and hashtags.  It has at most
    151 code units, and no '@' or '#' in it is followed by a letter of the
    English alphabet, a digit or an underscore. *)
Theorem twitter_generateSummary_stripped (text : jsstring) :
  TwitterFunction.generateSummary text = generateSummary (TwitterFunction.cleanText text)
  ∧ sigilFree (TwitterFunction.cleanText text) = true
  ∧ sigilFree (TwitterFunction.generateSummary text) = true
  ∧ length (TwitterFunction.generateSummary text) ≤ 151.
Proof.
  assert (TwitterFunction.generateSummary text
          = generateSummary (TwitterFunction.cleanText text)) as E by reflexivity.
  rewrite E. split; [done|]. split; [apply cleanText_sigilFree|].
  split; [apply generateSummary_sigilFree, cleanText_sigilFree|apply generateSummary_length].
Qed.

(** The hashtag of the summary stops at the first letter outside the English
    alphabet, the hashtag of [extractTags] does not. *)
Example twitter_generateSummary_turkish_hashtag :
  TwitterFunction.generateSummary (js "#YeşilUlaşım için yeni hatlar https://t.co/abc açılıyor @ibb")
  = js "şilUlaşım için yeni hatlar  açılıyor."
  ∧ TwitterData.extractTags (js "#YeşilUlaşım için yeni hatlar") None
    = [js "YeşilUlaşım"; js "Ulaşım"; js "Metro"].
Proof. vm_compute. done. Qed.

(** ** The Twitter function: the handler *)

Lemma forEachTweet_run h userInfo tweets : ∀ st,
  ∃ r,
    TwitterFunction.forEachTweet userInfo tweets h st
    = (r, {| TwitterFunction.allPosts :=
               TwitterFunction.allPosts st
               ++ TwitterFunction.postsOf h userInfo (TwitterFunction.accepted h tweets);
             TwitterFunction.trace := TwitterFunction.trace st |})
    ∧ (r = TwitterFunction.Done () ∨ r = TwitterFunction.Raised TwitterFunction.RangeError).
Proof.
  induction tweets as [|tweet rest IH]; intros st.
  - exists (TwitterFunction.Done ()). split; [|by left].
    destruct st. cbn. by rewrite app_nil_r.
  - cbn [TwitterFunction.forEachTweet TwitterFunction.accepted].
    unfold TwitterFunction.andThen at 1.
    destruct (TwitterFunction.wanted tweet); cbn [negb].
    + unfold TwitterFunction.andThen, TwitterFunction.askHost, TwitterFunction.dated.
      destruct (dateParse (TwitterFunction.calendar h) (Tweet.created_at tweet))
        as [instant|] eqn:Ed.
      * rewrite (bool_decide_eq_true_2 (is_Some (Some instant))) by eauto.
        cbv beta iota delta [TwitterFunction.push].
        destruct (IH {| TwitterFunction.allPosts :=
                          TwitterFunction.allPosts st
                          ++ [TwitterFunction.postOf h userInfo tweet instant];
                        TwitterFunction.trace := TwitterFunction.trace st |})
          as (r & -> & Hr).
        exists r. split; [|done]. cbn [TwitterFunction.allPosts TwitterFunction.trace].
        unfold TwitterFunction.postsOf at 2. cbn [omap list_omap]. rewrite Ed. cbn [fmap option_fmap option_map].
        by rewrite <- app_assoc.
      * rewrite (bool_decide_eq_false_2 (is_Some None)) by (by intros [? ?]).
        exists (TwitterFunction.Raised TwitterFunction.RangeError). split; [|by right].
        destruct st. cbn. by rewrite app_nil_r.
    + cbv beta iota delta [TwitterFunction.pure]. apply IH.
Qed.

Lemma fetchAccount_run h username st :
  ∃ events,
    TwitterFunction.attempt (TwitterFunction.fetchAccount username)
      (λ error, TwitterFunction.pure ()) h st
    = (TwitterFunction.Done (),
       {| TwitterFunction.allPosts :=
            TwitterFunction.allPosts st
            ++ match TwitterFunction.answered h (length (TwitterFunction.trace st)) username with
               | Some (userInfo, tweets) =>
                 TwitterFunction.postsOf h userInfo (TwitterFunction.accepted h tweets)
               | None => []
               end;
          TwitterFunction.trace := TwitterFunction.trace st ++ events |})
    ∧ (events = [TwitterFunction.Request (TwitterFunction.UserByUsername username)]
       ∨ ∃ userId,
           events = [TwitterFunction.Request (TwitterFunction.UserByUsername username);
                     TwitterFunction.Request (TwitterFunction.UserTweets userId)]).
Proof.
  unfold TwitterFunction.attempt, TwitterFunction.fetchAccount, TwitterFunction.answered.
  unfold TwitterFunction.andThen at 1. unfold TwitterFunction.fetchUrl at 1.
  destruct (TwitterFunction.respond h (length (TwitterFunction.trace st))
              (TwitterFunction.UserByUsername username)) as [[ok1 status1 body1]|].
  2: { eexists. rewrite app_nil_r. split; [reflexivity|by left]. }
  cbn [TwitterFunction.ok TwitterFunction.body].
  destruct ok1; cbn [negb].
  2: { eexists. rewrite app_nil_r. split; [reflexivity|by left]. }
  destruct body1 as [|userId data1 firstUser1].
  { eexists. rewrite app_nil_r. split; [reflexivity|by left]. }
  destruct userId as [userId|]; cbn [default from_option Datatypes.id].
  2: { eexists. rewrite app_nil_r. split; [reflexivity|by left]. }
  destruct (truthy userId); cbn [negb].
  2: { eexists. rewrite app_nil_r. split; [reflexivity|by left]. }
  unfold TwitterFunction.andThen at 1. unfold TwitterFunction.fetchUrl at 1.
  cbn [TwitterFunction.trace TwitterFunction.allPosts].
  rewrite length_app, Nat.add_1_r.
  destruct (TwitterFunction.respond h (S (length (TwitterFunction.trace st)))
              (TwitterFunction.UserTweets userId)) as [[ok2 status2 body2]|].
  2: { eexists. rewrite app_nil_r, <- app_assoc. split; [reflexivity|right; eauto]. }
  cbn [TwitterFunction.ok TwitterFunction.body].
  destruct ok2; cbn [negb].
  2: { eexists. rewrite app_nil_r, <- app_assoc. split; [reflexivity|right; eauto]. }
  destruct body2 as [|userId2 data firstUser].
  { eexists. rewrite app_nil_r, <- app_assoc. split; [reflexivity|right; eauto]. }
  destruct data as [tweets|].
  2: { eexists. rewrite app_nil_r, <- app_assoc. split; [reflexivity|right; eauto]. }
  match goal with
  | |- context [TwitterFunction.forEachTweet ?u tweets h ?s] =>
    destruct (forEachTweet_run h u tweets s) as (r & -> & Hr)
  end.
  cbn [TwitterFunction.trace TwitterFunction.allPosts]. rewrite <- app_assoc.
  eexists. split; [|right; eauto].
  destruct Hr as [-> | ->]; reflexivity.
Qed.

Lemma accepted_elem h tweets tweet :
  tweet ∈ TwitterFunction.accepted h tweets →
  tweet ∈ tweets ∧ TwitterFunction.wanted tweet = true.
Proof.
  induction tweets as [|x rest IH]; cbn [TwitterFunction.accepted].
  - by intros ?%elem_of_nil.
  - destruct (TwitterFunction.wanted x) eqn:Ew.
    + destruct (TwitterFunction.dated h x); [|by intros ?%elem_of_nil].
      rewrite !elem_of_cons. intros [->|Hin]; [by split; [left|]|].
      destruct (IH Hin). split; [by right|done].
    + intros Hin. destruct (IH Hin). split; [by apply elem_of_cons; right|done].
Qed.

Lemma accepted_all h tweets :
  (∀ tweet, tweet ∈ tweets → TwitterFunction.wanted tweet = true →
            TwitterFunction.dated h tweet = true) →
  TwitterFunction.accepted h tweets = List.filter TwitterFunction.wanted tweets.
Proof.
  induction tweets as [|x rest IH]; intros H; cbn [TwitterFunction.accepted List.filter];
    [done|].
  rewrite IH by (intros t Ht; apply H, elem_of_cons; by right).
  destruct (TwitterFunction.wanted x) eqn:Ew; [|done].
  rewrite (H x) by (done || apply elem_of_cons; by left). done.
Qed.

Lemma accepted_until h before bad after :
  TwitterFunction.wanted bad = true → TwitterFunction.dated h bad = false →
  (∀ tweet, tweet ∈ before → TwitterFunction.wanted tweet = true →
            TwitterFunction.dated h tweet = true) →
  TwitterFunction.accepted h (before ++ bad :: after)
  = List.filter TwitterFunction.wanted before.
Proof.
  intros Hw Hd. induction before as [|x rest IH]; intros H;
    cbn [app TwitterFunction.accepted List.filter].
  - by rewrite Hw, Hd.
  - rewrite IH by (intros t Ht; apply H, elem_of_cons; by right).
    destruct (TwitterFunction.wanted x) eqn:Ew; [|done].
    rewrite (H x) by (done || apply elem_of_cons; by left). done.
Qed.

Lemma postsOf_elem h userInfo tweets post :
  post ∈ TwitterFunction.postsOf h userInfo tweets →
  ∃ tweet instant,
    tweet ∈ tweets
    ∧ dateParse (TwitterFunction.calendar h) (Tweet.created_at tweet) = Some instant
    ∧ post = TwitterFunction.postOf h userInfo tweet instant.
Proof.
  unfold TwitterFunction.postsOf. intros (tweet & Hin & Hpost)%list_elem_of_omap.
  destruct (dateParse (TwitterFunction.calendar h) (Tweet.created_at tweet))
    as [instant|] eqn:Ed; [|done].
  injection Hpost as <-. eauto.
Qed.

Lemma postsOf_content h userInfo tweets :
  Forall (λ tweet, TwitterFunction.dated h tweet = true) tweets →
  content <$> TwitterFunction.postsOf h userInfo tweets = Tweet.text <$> tweets.
Proof.
  unfold TwitterFunction.postsOf.
  induction 1 as [|tweet rest Hd _ IH]; [done|].
  cbn [omap list_omap]. unfold TwitterFunction.dated in Hd.
  apply bool_decide_eq_true in Hd as [instant Hd]. rewrite Hd.
  cbn [fmap option_fmap option_map]. rewrite !fmap_cons. f_equal. exact IH.
Qed.

Lemma accepted_dated h tweets :
  Forall (λ tweet, TwitterFunction.dated h tweet = true) (TwitterFunction.accepted h tweets).
Proof.
  induction tweets as [|x rest IH]; cbn [TwitterFunction.accepted]; [constructor|].
  destruct (TwitterFunction.wanted x); [|done].
  destruct (TwitterFunction.dated h x) eqn:Ed; [by constructor|constructor].
Qed.

Lemma account_posts_ok h userInfo tweets :
  Forall (λ post,
      platform post = twitter
      ∧ startsWith (js "RT @") (content post) = false
      ∧ summary post = TwitterFunction.generateSummary (content post)
      ∧ length (tags post) ≤ 8
      ∧ (∃ tweet, tweet ∈ tweets ∧ TwitterFunction.wanted tweet = true
                  ∧ content post = Tweet.text tweet
                  ∧ id post = js "twitter_" ++ Tweet.id tweet))
    (TwitterFunction.postsOf h userInfo (TwitterFunction.accepted h tweets)).
Proof.
  apply Forall_forall. intros post (tweet & instant & Hin & Hd & ->)%postsOf_elem.
  apply accepted_elem in Hin as [Hin Hw].
  cbv beta iota delta [TwitterFunction.postOf platform content summary tags id].
  split; [done|]. split.
  { unfold TwitterFunction.wanted in Hw. apply andb_true_iff in Hw as [_ Hw].
    by apply negb_true_iff in Hw. }
  split; [done|]. split.
  { unfold TwitterData.extractTags. rewrite length_take. lia. }
  exists tweet. done.
Qed.

(** X21: one account.  The step for an account never throws: it sends one or
    two requests and leaves the posts collected so far in place.  It adds
    posts only when both requests are answered with an ok response, the
    first with a user id and the second with an array of tweets; the posts
    are then those of the tweets that are no retweets and have no language
    other than Turkish, in order, up to the first such tweet whose date
    cannot be read: that tweet and all later ones are left out. *)
Theorem fetchAccount_posts (h : TwitterFunction.Host) (username : jsstring)
    (st : TwitterFunction.State) :
  ∃ added events,
    TwitterFunction.attempt (TwitterFunction.fetchAccount username)
      (λ error, TwitterFunction.pure ()) h st
    = (TwitterFunction.Done (),
       {| TwitterFunction.allPosts := TwitterFunction.allPosts st ++ added;
          TwitterFunction.trace := TwitterFunction.trace st ++ events |})
    ∧ (events = [TwitterFunction.Request (TwitterFunction.UserByUsername username)]
       ∨ ∃ userId,
           events = [TwitterFunction.Request (TwitterFunction.UserByUsername username);
                     TwitterFunction.Request (TwitterFunction.UserTweets userId)])
    ∧ (TwitterFunction.answered h (length (TwitterFunction.trace st)) username = None →
       added = [])
    ∧ (∀ userInfo tweets,
         TwitterFunction.answered h (length (TwitterFunction.trace st)) username
         = Some (userInfo, tweets) →
         added = TwitterFunction.postsOf h userInfo (TwitterFunction.accepted h tweets)
         ∧ ((∀ tweet, tweet ∈ tweets → TwitterFunction.wanted tweet = true →
                      TwitterFunction.dated h tweet = true) →
            content <$> added = Tweet.text <$> List.filter TwitterFunction.wanted tweets)
         ∧ (∀ before bad after,
              tweets = before ++ bad :: after →
              TwitterFunction.wanted bad = true → TwitterFunction.dated h bad = false →
              (∀ tweet, tweet ∈ before → TwitterFunction.wanted tweet = true →
                        TwitterFunction.dated h tweet = true) →
              content <$> added = Tweet.text <$> List.filter TwitterFunction.wanted before))
    ∧ Forall (λ post,
        platform post = twitter
        ∧ startsWith (js "RT @") (content post) = false
        ∧ summary post = TwitterFunction.generateSummary (content post)
        ∧ length (tags post) ≤ 8) added.
Proof.
  destruct (fetchAccount_run h username st) as (events & E & Hev).
  eexists _, events. split; [exact E|]. split; [done|].
  destruct (TwitterFunction.answered h (length (TwitterFunction.trace st)) username)
    as [[userInfo tweets]|].
  - split; [done|]. split.
    + intros ? ? [= <- <-]. split; [done|]. split.
      * intros Hall. rewrite <- (accepted_all h tweets Hall).
        apply postsOf_content, accepted_dated.
      * intros before bad after -> Hw Hd Hall.
        rewrite <- (accepted_until h before bad after Hw Hd Hall).
        apply postsOf_content, accepted_dated.
    + eapply Forall_impl; [apply account_posts_ok|].
      intros post (? & ? & ? & ? & _). done.
  - split; [done|]. split; [done|constructor].
Qed.

(** The example answer: the English tweet and the retweet are skipped, the
    tweet with the unreadable date ends the account, the tweet after it is
    lost. *)
Example fetchAccount_example :
  content <$> TwitterFunction.allPosts
    (TwitterFunction.attempt (TwitterFunction.fetchAccount (js "CBAdayOfisi"))
       (λ error, TwitterFunction.pure ()) (twitterHost (Some (js "token")))
       {| TwitterFunction.allPosts := []; TwitterFunction.trace := [] |}).2
  = [js "Yeni metro hattını bugün hizmete açıyoruz, hayırlı olsun."].
Proof. vm_compute. reflexivity. Qed.
